(** * Store composition layer of the Angular front end: a shallow embedding

    The development follows the store features of the repository:
    - [Js]            : the JavaScript values the stores hold (truthiness, [??], [||]);
    - [Menu]          : [updateMenuExpansion] / [toggleMenuExpansion] of the navigation feature;
    - [Navigation]    : [Navigation.resolveQueryPersistence] and [matchesActivePath];
    - [RequestStatus] : [withRequestStatus] (entities, snapshots, auto-reset timers);
    - [ResetState]    : [withResetState];
    - [Storage]       : [withStorage] (rehydrate, persist effect, broadcast listener);
    - [RequestLifecycle], [StorageBehaviour], [ResetTargets], [MenuToggles] :
                        further properties of the features above ([onDestroy],
                        [selectRequestSnapshot], [setResetState], ...);
    - [Layout]        : the layout store built from these features;
    - [MenuEvaluation]: [Navigation.evaluateMenuItems];
    - [Routes]        : [resolvePrimaryRoute], [resolveActiveSnapshot],
                        [resolvedPathSegments], [Navigation.resolveBreadcrumbs];
    - [QueryPersistence] : where the menu and the breadcrumbs use
                        [resolveQueryPersistence];
    - [StateLogger]   : [withLogger];
    - [PathSegments]  : [normalizePathSegments].

    Objects used as dictionaries are finite maps; the [requests] record keeps
    its insertion order (the auto-reset effect walks [entries(requests)]). *)

From stdpp Require Import gmap strings list fin_maps.
From Stdlib Require Import ZArith Lia Ascii.

Set Warnings "-register-all".
Open Scope string_scope.

(* ===================================================================== *)
(** ** JavaScript values *)
(* ===================================================================== *)

Module Js.

(** Numbers are modelled by integers (no NaN, no fractions). *)
Inductive JsValue : Type :=
| JUndefined
| JNull
| JBool (b : bool)
| JNum (n : Z)
| JStr (s : string)
| JArr (items : list JsValue)
| JObj (props : list (string * JsValue)).

(** [!!v] *)
Definition truthy (v : JsValue) : bool :=
  match v with
  | JUndefined | JNull => false
  | JBool b => b
  | JNum n => negb (n =? 0)%Z
  | JStr s => negb (String.eqb s "")
  | JArr _ | JObj _ => true
  end.

(** lodash [isNil] *)
Definition isNil (v : JsValue) : bool :=
  match v with
  | JUndefined | JNull => true
  | _ => false
  end.

(** [a ?? b] *)
Definition nullish (a b : JsValue) : JsValue := if isNil a then b else a.

(** [a || b] *)
Definition orElse (a b : JsValue) : JsValue := if truthy a then a else b.

(** [a !== b] is [negb (strictEquals a b)].  Primitives compare by value;
    arrays and objects compare by reference, and the only place that
    compares them here receives freshly deserialised ones, which are
    identical to nothing already stored. *)
Definition strictEquals (a b : JsValue) : bool :=
  match a, b with
  | JUndefined, JUndefined => true
  | JNull, JNull => true
  | JBool x, JBool y => Bool.eqb x y
  | JNum x, JNum y => (x =? y)%Z
  | JStr x, JStr y => String.eqb x y
  | _, _ => false
  end.

(** Property read [o.k] on an optional object ([o?.k]): a missing object
    or a missing key reads [undefined]. *)
Definition prop (o : option (gmap string JsValue)) (k : string) : JsValue :=
  match o with
  | None => JUndefined
  | Some m => default JUndefined (m !! k)
  end.

(** lodash [pick(object, keys)] on a dictionary. *)
Definition pick (o : gmap string JsValue) (ks : list string) : gmap string JsValue :=
  filter (fun kv => kv.1 ∈ ks) o.

(** lodash [omit(object, keys)] on a dictionary. *)
Definition omit (o : gmap string JsValue) (ks : list string) : gmap string JsValue :=
  filter (fun kv => kv.1 ∉ ks) o.

(** [String.prototype.startsWith] and [String.prototype.includes] *)
Fixpoint startsWith (s p : string) : bool :=
  match p, s with
  | EmptyString, _ => true
  | String a p', String b s' => Ascii.eqb a b && startsWith s' p'
  | String _ _, EmptyString => false
  end.

Fixpoint includes (s sub : string) : bool :=
  startsWith s sub ||
  match s with
  | EmptyString => false
  | String _ s' => includes s' sub
  end.

(** lodash [isEmpty(object)] on a dictionary: no own enumerable key. *)
Definition isEmpty (o : gmap string JsValue) : bool := bool_decide (size o = 0).

(** lodash [keys(object)] *)
Definition keys (o : gmap string JsValue) : list string := (map_to_list o).*1.

Lemma elem_of_keys (o : gmap string JsValue) (k : string) :
  k ∈ keys o ↔ is_Some (o !! k).
Proof.
  unfold keys. rewrite list_elem_of_fmap. split.
  - intros [[k' v] [-> H]]. apply elem_of_map_to_list in H. eauto.
  - intros [v H]. exists (k, v). split; [done|]. by apply elem_of_map_to_list.
Qed.

Lemma lookup_pick (o : gmap string JsValue) (ks : list string) (k : string) :
  pick o ks !! k = if decide (k ∈ ks) then o !! k else None.
Proof.
  unfold pick. destruct (decide (k ∈ ks)) as [Hin|Hnin].
  - destruct (o !! k) as [v|] eqn:E.
    + apply map_lookup_filter_Some. done.
    + apply map_lookup_filter_None. left. done.
  - apply map_lookup_filter_None. right. intros v _. done.
Qed.

Lemma lookup_omit (o : gmap string JsValue) (ks : list string) (k : string) :
  omit o ks !! k = if decide (k ∈ ks) then None else o !! k.
Proof.
  unfold omit. destruct (decide (k ∈ ks)) as [Hin|Hnin].
  - apply map_lookup_filter_None. right. intros v _ H. by apply H.
  - destruct (o !! k) as [v|] eqn:E.
    + apply map_lookup_filter_Some. done.
    + apply map_lookup_filter_None. left. done.
Qed.

Lemma isEmpty_true (o : gmap string JsValue) : isEmpty o = true <-> o = ∅.
Proof.
  unfold isEmpty. rewrite bool_decide_eq_true. apply map_size_empty_iff.
Qed.

Lemma isEmpty_false (o : gmap string JsValue) : isEmpty o = false <-> o <> ∅.
Proof.
  unfold isEmpty. rewrite bool_decide_eq_false. by rewrite map_size_empty_iff.
Qed.

End Js.

(* ===================================================================== *)
(** ** Menu expansion ([withNavigation]: [toggleMenuExpansion]) *)
(* ===================================================================== *)

Module Menu.

(** A menu item as it lives in the JavaScript heap.  [ref] is the identity
    of the object (its address); an [items] array is an object of its own,
    so it carries a reference too.  [expanded] and [items] are optional
    properties ([None] is [undefined]); [label] stands for the properties
    the spread [...menuItem] copies unchanged. *)
Inductive IMenuItem : Type :=
| MenuItem (ref : nat) (id : Z) (label : string) (expanded : option bool)
           (items : option (nat * list IMenuItem)).

(** [!expanded] on an optional boolean: [!undefined] is [true]. *)
Definition notExpanded (e : option bool) : option bool :=
  Some (negb (default false e)).

(** [id === menuId ? !expanded : expanded] *)
Definition requiresExpansion (menuId id : Z) (e : option bool) : option bool :=
  if (id =? menuId)%Z then notExpanded e else e.

(** The callback of [menuItems.map] in [updateMenuExpansion], threading the
    next free heap address: the recursive call on [items] runs first, then
    the object literal allocates the rebuilt item.  [mapItems] is the
    [map] itself; it allocates the result array before it visits the
    elements. *)
Fixpoint updateItem (menuId : Z) (menuItem : IMenuItem) (next : nat)
  : IMenuItem * nat :=
  match menuItem with
  | MenuItem _ id label expanded items =>
      let upd :=
        match items with
        | None => (None, next)
        | Some (_, l) =>
            let res :=
              (fix mapItems (l : list IMenuItem) (n : nat) : list IMenuItem * nat :=
                 match l with
                 | [] => ([], n)
                 | x :: xs =>
                     let r1 := updateItem menuId x n in
                     let r2 := mapItems xs r1.2 in
                     (r1.1 :: r2.1, r2.2)
                 end) l (S next) in
            (Some (next, res.1), res.2)
        end in
      (MenuItem upd.2 id label (requiresExpansion menuId id expanded) upd.1, S upd.2)
  end.

Fixpoint mapItems (menuId : Z) (l : list IMenuItem) (n : nat) : list IMenuItem * nat :=
  match l with
  | [] => ([], n)
  | x :: xs =>
      let r1 := updateItem menuId x n in
      let r2 := mapItems menuId xs r1.2 in
      (r1.1 :: r2.1, r2.2)
  end.

(** [updateMenuExpansion(menuId, menuItems)]: the array [menuItems] lives at
    some address; the result is a new array at address [next]. *)
Definition updateMenuExpansion (menuId : Z) (menuItems : nat * list IMenuItem)
    (next : nat) : (nat * list IMenuItem) * nat :=
  let res := mapItems menuId menuItems.2 (S next) in
  ((next, res.1), res.2).

(** The store around it: the [menuItems] linked signal and the allocator. *)
Record Store : Type := {
  menuItems : nat * list IMenuItem;
  heapNext : nat
}.

(** [toggleMenuExpansion(menuId)]: [store.menuItems.update(...)]. *)
Definition toggleMenuExpansion (menuId : Z) (s : Store) : Store :=
  let res := updateMenuExpansion menuId (menuItems s) (heapNext s) in
  {| menuItems := res.1; heapNext := res.2 |}.

(** *** Observations on a tree *)

(** Every item in document order with its id, label and flag. *)
Fixpoint flags (m : IMenuItem) : list (Z * string * option bool) :=
  match m with
  | MenuItem _ id label e items =>
      (id, label, e) ::
      match items with
      | None => []
      | Some (_, l) => flat_map flags l
      end
  end.

Definition flagsOf (arr : nat * list IMenuItem) : list (Z * string * option bool) :=
  flat_map flags arr.2.

(** Every object of a tree (items and arrays) with its address. *)
Fixpoint refs (m : IMenuItem) : list nat :=
  match m with
  | MenuItem r _ _ _ items =>
      r ::
      match items with
      | None => []
      | Some (ra, l) => ra :: flat_map refs l
      end
  end.

Definition refsOf (arr : nat * list IMenuItem) : list nat :=
  arr.1 :: flat_map refs arr.2.

(** The tree without addresses and flags: what [map] and the spread keep. *)
Inductive Shape : Type :=
| Node (id : Z) (label : string) (items : option (list Shape)).

Fixpoint shape (m : IMenuItem) : Shape :=
  match m with
  | MenuItem _ id label _ items =>
      Node id label
        match items with
        | None => None
        | Some (_, l) => Some (map shape l)
        end
  end.

(** The address of the first item carrying [id], in document order. *)
Fixpoint refOfId (target : Z) (m : IMenuItem) : option nat :=
  match m with
  | MenuItem r id _ _ items =>
      if (id =? target)%Z then Some r
      else match items with
           | None => None
           | Some (_, l) =>
               (fix first (l : list IMenuItem) : option nat :=
                  match l with
                  | [] => None
                  | x :: xs =>
                      match refOfId target x with
                      | Some a => Some a
                      | None => first xs
                      end
                  end) l
           end
  end.

Fixpoint refOfIdIn (target : Z) (l : list IMenuItem) : option nat :=
  match l with
  | [] => None
  | x :: xs =>
      match refOfId target x with
      | Some a => Some a
      | None => refOfIdIn target xs
      end
  end.

(** The flag change on one observation. *)
Definition flipAt (menuId : Z) (o : Z * string * option bool) : Z * string * option bool :=
  (o.1.1, o.1.2, requiresExpansion menuId o.1.1 o.2).

(** *** An induction principle that reaches the nested items *)

Section Induction.
Variable P : IMenuItem -> Prop.
Hypothesis Hleaf : forall r id label e, P (MenuItem r id label e None).
Hypothesis Hnode : forall r id label e ra l,
  Forall P l -> P (MenuItem r id label e (Some (ra, l))).

Fixpoint IMenuItem_nested_ind (m : IMenuItem) : P m :=
  match m with
  | MenuItem r id label e None => Hleaf r id label e
  | MenuItem r id label e (Some (ra, l)) =>
      Hnode r id label e ra l
        ((fix all (l : list IMenuItem) : Forall P l :=
            match l with
            | [] => @List.Forall_nil _ P
            | x :: xs => @List.Forall_cons _ P x xs (IMenuItem_nested_ind x) (all xs)
            end) l)
  end.
End Induction.

Lemma updateItem_node menuId r id label e ra l next :
  updateItem menuId (MenuItem r id label e (Some (ra, l))) next =
  let res := mapItems menuId l (S next) in
  (MenuItem res.2 id label (requiresExpansion menuId id e) (Some (next, res.1)),
   S res.2).
Proof.
  cbn [updateItem].
  match goal with
  | |- context [?f l (S next)] =>
      assert (E : forall l n, f l n = mapItems menuId l n)
  end.
  { clear. intros l. induction l as [|x xs IH]; intros n; [reflexivity|].
    cbn [mapItems]. rewrite <- IH. reflexivity. }
  rewrite !E. reflexivity.
Qed.

(** *** What the rebuilt tree looks like *)

Lemma flags_updateItem menuId m :
  forall next, flags (updateItem menuId m next).1 = map (flipAt menuId) (flags m).
Proof.
  induction m as [r id label e | r id label e ra l IH] using IMenuItem_nested_ind;
    intros next.
  - reflexivity.
  - rewrite updateItem_node. cbn [fst flags map]. f_equal.
    generalize (S next). clear next.
    induction IH as [|x xs Hx _ IHxs]; intros n; [reflexivity|].
    cbn [mapItems fst snd flat_map]. rewrite List.map_app, Hx, IHxs. reflexivity.
Qed.

Lemma flags_mapItems menuId l :
  forall n, flat_map flags (mapItems menuId l n).1 = map (flipAt menuId) (flat_map flags l).
Proof.
  induction l as [|x xs IH]; intros n; [reflexivity|].
  cbn [mapItems fst snd flat_map]. rewrite List.map_app, flags_updateItem, IH. reflexivity.
Qed.

Lemma shape_updateItem menuId m :
  forall next, shape (updateItem menuId m next).1 = shape m.
Proof.
  induction m as [r id label e | r id label e ra l IH] using IMenuItem_nested_ind;
    intros next.
  - reflexivity.
  - rewrite updateItem_node. cbn [fst shape]. do 2 f_equal.
    generalize (S next). clear next.
    induction IH as [|x xs Hx _ IHxs]; intros n; [reflexivity|].
    cbn [mapItems fst snd map]. rewrite Hx, IHxs. reflexivity.
Qed.

Lemma shape_mapItems menuId l :
  forall n, map shape (mapItems menuId l n).1 = map shape l.
Proof.
  induction l as [|x xs IH]; intros n; [reflexivity|].
  cbn [mapItems fst snd map]. rewrite shape_updateItem, IH. reflexivity.
Qed.

(** Every object of the result was allocated by the call: its address lies
    between the allocator's value before and after. *)
Definition allocatedIn (lo hi : nat) (rs : list nat) : Prop :=
  Forall (fun r => lo <= r < hi) rs.

Lemma allocatedIn_weaken lo lo' hi hi' rs :
  lo' <= lo -> hi <= hi' -> allocatedIn lo hi rs -> allocatedIn lo' hi' rs.
Proof.
  intros Hlo Hhi H. unfold allocatedIn in *.
  eapply Forall_impl; [exact H|]. cbn. intros r Hr. lia.
Qed.

Lemma refs_updateItem menuId m :
  forall next,
    next < (updateItem menuId m next).2 /\
    allocatedIn next (updateItem menuId m next).2 (refs (updateItem menuId m next).1).
Proof.
  induction m as [r id label e | r id label e ra l IH] using IMenuItem_nested_ind;
    intros next.
  - cbn. split; [lia|]. repeat constructor; lia.
  - rewrite updateItem_node. cbn [fst snd refs].
    assert (Hl : forall n,
               n <= (mapItems menuId l n).2 /\
               allocatedIn n (mapItems menuId l n).2
                 (flat_map refs (mapItems menuId l n).1)).
    { clear next. induction IH as [|x xs Hx _ IHxs]; intros n.
      - cbn. split; [lia|constructor].
      - cbn [mapItems fst snd flat_map].
        destruct (Hx n) as [Hx1 Hx2].
        destruct (IHxs (updateItem menuId x n).2) as [Hs1 Hs2].
        split; [lia|]. apply Forall_app. split.
        + eapply allocatedIn_weaken; [| |exact Hx2]; lia.
        + eapply allocatedIn_weaken; [| |exact Hs2]; lia. }
    destruct (Hl (S next)) as [H1 H2]. split; [lia|].
    constructor; [lia|]. constructor; [lia|].
    eapply allocatedIn_weaken; [| |exact H2]; lia.
Qed.

Lemma refs_mapItems menuId l :
  forall n,
    n <= (mapItems menuId l n).2 /\
    allocatedIn n (mapItems menuId l n).2 (flat_map refs (mapItems menuId l n).1).
Proof.
  induction l as [|x xs IH]; intros n.
  - cbn. split; [lia|constructor].
  - cbn [mapItems fst snd flat_map].
    destruct (refs_updateItem menuId x n) as [Hx1 Hx2].
    destruct (IH (updateItem menuId x n).2) as [Hs1 Hs2].
    split; [lia|]. apply Forall_app. split.
    + eapply allocatedIn_weaken; [| |exact Hx2]; lia.
    + eapply allocatedIn_weaken; [| |exact Hs2]; lia.
Qed.

(** Scenario C of the specification: toggling id 2 below id 1. *)
Definition scenarioC : Store :=
  {| menuItems :=
       (0, [MenuItem 1 1 "one" (Some false)
              (Some (2, [MenuItem 3 2 "two" (Some false) None]))]);
     heapNext := 4 |}.

Example scenarioC_flags :
  flagsOf (menuItems (toggleMenuExpansion 2 scenarioC)) =
  [(1%Z, "one", Some false); (2%Z, "two", Some true)].
Proof. reflexivity. Qed.

(** A parent with two children; the second child is a sibling of the
    toggled item. *)
Definition siblings : Store :=
  {| menuItems :=
       (0, [MenuItem 1 1 "root" (Some false)
              (Some (2, [MenuItem 3 2 "first" (Some false) None;
                         MenuItem 4 3 "second" (Some true) None]))]);
     heapNext := 5 |}.

Lemma flipAt_other menuId (o : Z * string * option bool) :
  o.1.1 <> menuId -> flipAt menuId o = o.
Proof.
  destruct o as [[i l] e]. cbn. intros H. unfold flipAt, requiresExpansion. cbn.
  destruct (Z.eqb_spec i menuId); [contradiction|reflexivity].
Qed.

Lemma flipAt_target menuId (o : Z * string * option bool) :
  o.1.1 = menuId -> flipAt menuId o = (o.1.1, o.1.2, notExpanded o.2).
Proof.
  destruct o as [[i l] e]. cbn. intros ->. unfold flipAt, requiresExpansion. cbn.
  rewrite Z.eqb_refl. reflexivity.
Qed.

(** C10 (amended): [toggleMenuExpansion(id)] keeps the shape, ids and labels
    of the tree and changes flags only on the items carrying [id], at any
    depth: such an item gets [!expanded], every other item keeps its flag.
    No object identity is retained: the result array, every nested array
    and every item (ancestors, siblings and unrelated subtrees alike) is a
    freshly allocated object, none of which occurs in the previous tree. *)
Theorem toggleMenuExpansion_flips_target_rebuilds_all (menuId : Z) (s : Store) :
  allocatedIn 0 (heapNext s) (refsOf (menuItems s)) ->
  flagsOf (menuItems (toggleMenuExpansion menuId s)) =
    map (flipAt menuId) (flagsOf (menuItems s))
  /\ (forall o, o.1.1 <> menuId -> flipAt menuId o = o)
  /\ (forall o, o.1.1 = menuId -> flipAt menuId o = (o.1.1, o.1.2, notExpanded o.2))
  /\ map shape (menuItems (toggleMenuExpansion menuId s)).2 = map shape (menuItems s).2
  /\ (forall r, r ∈ refsOf (menuItems (toggleMenuExpansion menuId s)) ->
                r ∉ refsOf (menuItems s)).
Proof.
  intros Hheap. destruct s as [[ra l] next]. cbn in *.
  unfold toggleMenuExpansion, updateMenuExpansion, flagsOf, refsOf. cbn.
  split; [apply flags_mapItems|].
  split; [apply flipAt_other|].
  split; [apply flipAt_target|].
  split; [apply shape_mapItems|].
  intros r Hr Hold.
  assert (Hlt : r < next).
  { unfold allocatedIn, refsOf in Hheap. cbn in Hheap.
    rewrite Forall_forall in Hheap. apply Hheap in Hold. lia. }
  apply elem_of_cons in Hr as [->|Hr]; [lia|].
  destruct (refs_mapItems menuId l (S next)) as [_ Hnew].
  unfold allocatedIn in Hnew. rewrite Forall_forall in Hnew.
  apply Hnew in Hr. lia.
Qed.

Lemma toggleMenuExpansion_flips_target_rebuilds_all_witness :
  allocatedIn 0 (heapNext siblings) (refsOf (menuItems siblings))
  /\ flagsOf (menuItems (toggleMenuExpansion 2 siblings)) =
     [(1%Z, "root", Some false); (2%Z, "first", Some true); (3%Z, "second", Some true)].
Proof.
  assert (H : allocatedIn 0 (heapNext siblings) (refsOf (menuItems siblings))).
  { unfold allocatedIn. cbn. repeat constructor; lia. }
  split; [exact H|].
  exact (proj1 (toggleMenuExpansion_flips_target_rebuilds_all 2 siblings H)).
Defined.

(** C10 as stated fails: toggling id 2 leaves the flag of its sibling (id 3)
    alone, yet the sibling is no longer the object it was. *)
Lemma toggleMenuExpansion_sibling_identity_not_retained :
  refOfIdIn 3 (menuItems siblings).2 = Some 4%nat
  /\ refOfIdIn 3 (menuItems (toggleMenuExpansion 2 siblings)).2 = Some 8%nat
  /\ ~ (refOfIdIn 3 (menuItems (toggleMenuExpansion 2 siblings)).2 =
        refOfIdIn 3 (menuItems siblings).2).
Proof.
  split; [reflexivity|]. split; [reflexivity|]. cbn. discriminate.
Qed.

End Menu.

(* ===================================================================== *)
(** ** Query-parameter persistence ([Navigation.resolveQueryPersistence]) *)
(* ===================================================================== *)

Module Navigation.
Import Js.

(** Angular's [QueryParamsHandling]: ['merge' | 'preserve' | 'replace' | '']. *)
Inductive QueryParamsHandling : Type :=
| merge | preserve | replace | noHandling.

(** Angular's [IsActiveMatchOptions]. *)
Inductive MatchMode : Type := exact | subset | ignored.

Record IsActiveMatchOptions : Type := {
  paths : MatchMode;
  fragment : MatchMode;
  matrixParams : MatchMode;
  queryParams : MatchMode
}.

(** The host router as the service consumes it: the current URL and the
    URL-matching predicate [isActive(path, router, options)]. *)
Record Router : Type := {
  url : string;
  isActive : string -> IsActiveMatchOptions -> bool
}.

(** [matchesActivePath(router, path, options)] with [options] the optional
    match-mode string (the non-reactive overload the service calls). *)
Definition matchesActivePath (router : Router) (path : option string)
    (options : option MatchMode) : bool :=
  match path with
  | None => false
  | Some p =>
      isActive router p
        {| paths := default exact options;
           fragment := ignored;
           matrixParams := exact;
           queryParams := ignored |}
  end.

(** [!isNil(queryParams) && !isEmpty(queryParams)] *)
Definition hasQueryParams (queryParams : option (gmap string JsValue)) : bool :=
  match queryParams with
  | None => false
  | Some q => negb (isEmpty q)
  end.

Definition isRootPath (path : option string) : bool :=
  match path with
  | Some p => String.eqb p "" || String.eqb p "/"
  | None => false
  end.

Definition resolveQueryPersistence (router : Router) (path : option string)
    (queryParams : option (gmap string JsValue))
    (queryParamsHandling : option QueryParamsHandling) : QueryParamsHandling :=
  match queryParamsHandling with
  | Some handling => handling
  | None =>
      if hasQueryParams queryParams then merge
      else
        let isExtendedRoute := matchesActivePath router path (Some subset) in
        let isActivatedRoute := matchesActivePath router path (Some exact) in
        if negb isActivatedRoute then
          if isRootPath path then noHandling
          else if isExtendedRoute then preserve else noHandling
        else if includes (url router) "?" then preserve else noHandling
  end.

(** A router standing on [/users/create?tab=2]. *)
Definition sampleRouter : Router :=
  {| url := "/users/create?tab=2";
     isActive := fun p o =>
       match paths o with
       | exact => String.eqb p "/users/create"
       | _ => String.eqb p "/users/create" || String.eqb p "/users" || String.eqb p "/"
       end |}.

Lemma isRootPath_true path :
  isRootPath path = true <-> path = Some "" \/ path = Some "/".
Proof.
  destruct path as [p|]; cbn.
  - rewrite orb_true_iff, !String.eqb_eq. split.
    + intros [->| ->]; auto.
    + intros [[= ->]|[= ->]]; auto.
  - split; [discriminate|]. intros [|]; discriminate.
Qed.

Lemma hasQueryParams_true queryParams :
  hasQueryParams queryParams = true <-> exists q, queryParams = Some q /\ q <> ∅.
Proof.
  destruct queryParams as [q|]; cbn.
  - rewrite negb_true_iff, isEmpty_false. split.
    + intros Hq. by exists q.
    + by intros (q' & [= <-] & Hq).
  - split; [discriminate|]. by intros (q & [=] & _).
Qed.

Lemma hasQueryParams_false queryParams :
  hasQueryParams queryParams = false <-> queryParams = None \/ queryParams = Some ∅.
Proof.
  destruct queryParams as [q|]; cbn.
  - rewrite negb_false_iff, isEmpty_true. split.
    + intros ->. by right.
    + by intros [[=]|[= ->]].
  - split; [by left|done].
Qed.

(** The four cases of [resolveQueryPersistence], in the order the function
    tries them. *)
Lemma resolveQueryPersistence_cases (router : Router) (path : option string)
    (queryParams : option (gmap string JsValue)) :
  (forall handling,
      resolveQueryPersistence router path queryParams (Some handling) = handling)
  /\ (forall q, queryParams = Some q -> q <> ∅ ->
      resolveQueryPersistence router path queryParams None = merge)
  /\ (queryParams = None \/ queryParams = Some ∅ ->
      matchesActivePath router path (Some exact) = false ->
      (path = Some "" \/ path = Some "/" ->
         resolveQueryPersistence router path queryParams None = noHandling)
      /\ (path <> Some "" -> path <> Some "/" ->
          resolveQueryPersistence router path queryParams None =
            if matchesActivePath router path (Some subset) then preserve else noHandling))
  /\ (queryParams = None \/ queryParams = Some ∅ ->
      matchesActivePath router path (Some exact) = true ->
      resolveQueryPersistence router path queryParams None =
        if includes (url router) "?" then preserve else noHandling).
Proof.
  split; [reflexivity|]. split; [|split].
  - intros q Hq Hne. unfold resolveQueryPersistence.
    by rewrite (proj2 (hasQueryParams_true queryParams) (ex_intro _ q (conj Hq Hne))).
  - intros Hq Hact. apply hasQueryParams_false in Hq.
    unfold resolveQueryPersistence. rewrite Hq, Hact. cbn [negb].
    split.
    + intros Hroot. apply isRootPath_true in Hroot. rewrite Hroot. reflexivity.
    + intros H1 H2. destruct (isRootPath path) eqn:E; [|reflexivity].
      apply isRootPath_true in E as [E|E]; contradiction.
  - intros Hq Hact. apply hasQueryParams_false in Hq.
    unfold resolveQueryPersistence. rewrite Hq, Hact. reflexivity.
Qed.

End Navigation.

(* ===================================================================== *)
(** ** Request status tracking ([withRequestStatus]) *)
(* ===================================================================== *)

Module RequestStatus.
Import Js.

Inductive TRequestStatus : Type := idle | pending | fulfilled | rejected.

(** [IRequestEntity]: [data] is an optional property ([None]: the key is
    absent). *)
Record IRequestEntity : Type := {
  status : TRequestStatus;
  message : JsValue;
  data : option JsValue
}.

Record IRequestSnapshot : Type := {
  snap_event : string;
  snap_data : JsValue;
  snap_status : TRequestStatus;
  snap_message : JsValue;
  isPending : bool;
  isDisabled : bool;
  isRejected : bool;
  isFulfilled : bool;
  isIdle : bool
}.

(** The state source of a store composed with the feature: the [requests]
    record (an object, walked in insertion order) and the fields of the
    composing store. *)
Record State : Type := {
  requests : list (string * IRequestEntity);
  fields : gmap string JsValue
}.

(** A partial state, as an updater returns it or as [patchState] takes it. *)
Record Partial : Type := {
  p_requests : option (list (string * IRequestEntity));
  p_fields : gmap string JsValue
}.

(** [IRequestStatusPayload<TState, TData>]: [message], [data] and
    [Partial<TState>] in one object.  A [requests] property, when the payload
    has one, is a record of request entities like the state slot of that
    name ([entries]: its properties as written); every other property of the
    payload is an entry of [properties]. *)
Record IRequestStatusPayload : Type := {
  payload_requests : option (list (string * IRequestEntity));
  properties : gmap string JsValue
}.

(** [result?.[k]] for a property other than [requests] *)
Definition payloadProp (result : option IRequestStatusPayload) (k : string) : JsValue :=
  prop (properties <$> result) k.

(** [result?.requests] *)
Definition payloadRequests (result : option IRequestStatusPayload)
  : option (list (string * IRequestEntity)) :=
  result ≫= payload_requests.

Definition status_eqb (a b : TRequestStatus) : bool :=
  match a, b with
  | idle, idle | pending, pending | fulfilled, fulfilled | rejected, rejected => true
  | _, _ => false
  end.

(** The own property [event] of the record ([None]: the record has no such
    key of its own). *)
Fixpoint lookupEntry (event : string) (l : list (string * IRequestEntity))
  : option IRequestEntity :=
  match l with
  | [] => None
  | (k, v) :: xs => if String.eqb k event then Some v else lookupEntry event xs
  end.

(** [{ ...requests, [event]: entity }]: an existing key keeps its place, a
    new key goes last. *)
Fixpoint setEntry (event : string) (entity : IRequestEntity)
    (l : list (string * IRequestEntity)) : list (string * IRequestEntity) :=
  match l with
  | [] => [(event, entity)]
  | (k, v) :: xs =>
      if String.eqb k event then (k, entity) :: xs
      else (k, v) :: setEntry event entity xs
  end.

Definition idleEntity : IRequestEntity :=
  {| status := idle; message := JNull; data := None |}.

(** [initialState(events)]: [Object.fromEntries] of one idle entity per event. *)
Definition initialState (events : list string) : list (string * IRequestEntity) :=
  fold_left (fun acc event => setEntry event idleEntity acc) events [].

(** The object a list of properties stands for: a key written twice is one
    property, with the value written last. *)
Definition fromEntries (entries : list (string * IRequestEntity))
  : list (string * IRequestEntity) :=
  fold_left (fun acc entry => setEntry entry.1 entry.2 acc) entries [].

(** The names every object inherits from [Object.prototype]. *)
Definition objectPrototype : list string :=
  ["constructor"; "__defineGetter__"; "__defineSetter__"; "hasOwnProperty";
   "__lookupGetter__"; "__lookupSetter__"; "isPrototypeOf"; "propertyIsEnumerable";
   "toString"; "valueOf"; "__proto__"; "toLocaleString"].

(** What [requests[event]] evaluates to: an entity of the record; for a name
    the record does not hold itself, the member of [Object.prototype] of that
    name (a function, or the prototype itself for [__proto__]: a truthy value
    with no [status], [data] or [message]); [undefined] otherwise. *)
Inductive TRequestRead : Type :=
| ownEntity (entity : IRequestEntity)
| inheritedMember
| undefinedEntity.

Definition readEntry (event : string) (l : list (string * IRequestEntity))
  : TRequestRead :=
  match lookupEntry event l with
  | Some entity => ownEntity entity
  | None =>
      if bool_decide (event ∈ objectPrototype) then inheritedMember else undefinedEntity
  end.

(** [{ ...state, ...partial }] *)
Definition merge (st : State) (p : Partial) : State :=
  {| requests := default (requests st) (p_requests p);
     fields := p_fields p ∪ fields st |}.

(** [patchState(store, ...updaters)]: the updaters are folded over the
    current state and the result is written in one go. *)
Definition patchState (st : State) (updaters : list (State -> Partial)) : State :=
  fold_left (fun next updater => merge next (updater next)) updaters st.

Definition _getRequestSnapshot (event : string) (entity : TRequestRead)
  : IRequestSnapshot :=
  {| snap_event := event;
     snap_data :=
       match entity with
       | ownEntity e => nullish (default JUndefined (data e)) JNull
       | _ => JNull
       end;
     snap_status := match entity with ownEntity e => status e | _ => idle end;
     snap_message :=
       match entity with
       | ownEntity e => orElse (message e) JNull
       | _ => JNull
       end;
     isPending :=
       match entity with ownEntity e => status_eqb (status e) pending | _ => false end;
     isDisabled :=
       match entity with ownEntity e => status_eqb (status e) pending | _ => false end;
     isRejected :=
       match entity with ownEntity e => status_eqb (status e) rejected | _ => false end;
     isFulfilled :=
       match entity with ownEntity e => status_eqb (status e) fulfilled | _ => false end;
     isIdle :=
       match entity with
       | ownEntity e => status_eqb (status e) idle
       | inheritedMember => false
       | undefinedEntity => true
       end |}.

(** *** The exported updaters *)

Definition setIdle (event : string) : State -> Partial := fun state =>
  {| p_requests := Some (setEntry event
                           {| status := idle; message := JNull; data := None |}
                           (requests state));
     p_fields := ∅ |}.

Definition setPending (event : string) : State -> Partial := fun state =>
  {| p_requests := Some (setEntry event
                           {| status := pending; message := JNull; data := None |}
                           (requests state));
     p_fields := ∅ |}.

(** [...(!!payload?.data && { data: payload.data })] *)
Definition dataProperty (payload : option IRequestStatusPayload) : option JsValue :=
  if truthy (payloadProp payload "data") then Some (payloadProp payload "data") else None.

Definition setFulfilled (event : string) (payload : option IRequestStatusPayload)
  : State -> Partial := fun state =>
  {| p_requests := Some (setEntry event
                           {| status := fulfilled;
                              message := orElse (payloadProp payload "message") JNull;
                              data := dataProperty payload |}
                           (requests state));
     p_fields := ∅ |}.

Definition setRejected (event : string) (payload : option IRequestStatusPayload)
  : State -> Partial := fun state =>
  {| p_requests := Some (setEntry event
                           {| status := rejected;
                              message := orElse (payloadProp payload "message") JNull;
                              data := dataProperty payload |}
                           (requests state));
     p_fields := ∅ |}.

(** *** The store: state, timeout registry, pending timers, clock, effect *)

Record Timer : Type := {
  timer_id : nat;
  timer_event : string;
  timer_due : Z
}.

(** [effectRegistered]: the effect of [onInit] exists; [dirty]: the signal
    [requests] has changed since the effect last ran, so the scheduler will
    run it when the current task has ended. *)
Record Store : Type := {
  state : State;
  eventTimeouts : gmap string nat;
  timers : list Timer;
  nextTimer : nat;
  now : Z;
  effectRegistered : bool;
  dirty : bool
}.

Definition withState (st : State) (w : Store) : Store :=
  {| state := st; eventTimeouts := eventTimeouts w; timers := timers w;
     nextTimer := nextTimer w; now := now w;
     effectRegistered := effectRegistered w; dirty := dirty w |}.

Definition setDirty (b : bool) (w : Store) : Store :=
  {| state := state w; eventTimeouts := eventTimeouts w; timers := timers w;
     nextTimer := nextTimer w; now := now w;
     effectRegistered := effectRegistered w; dirty := b |}.

(** [patchState(store, ...updaters)] on the store: every updater of the
    feature builds a new [requests] object, so the signal changes. *)
Definition patch (updaters : list (State -> Partial)) (w : Store) : Store :=
  setDirty true (withState (patchState (state w) updaters) w).

Definition isSettled (s : TRequestStatus) : bool :=
  status_eqb s fulfilled || status_eqb s rejected.

Definition clearTimeout (id : nat) (ts : list Timer) : list Timer :=
  filter (fun t => timer_id t <> id) ts.

(** The conversion of a number to a 32-bit signed integer that the argument
    of [setTimeout] undergoes. *)
Definition toInt32 (n : Z) : Z := ((n + 2147483648) mod 4294967296 - 2147483648)%Z.

(** The delay [setTimeout(handler, delay)] waits for: the converted delay,
    or 0 when that is negative. *)
Definition timeoutDelay (delay : Z) : Z := Z.max 0 (toInt32 delay).

(** The body of the [forEach] in the [onInit] effect, for one entry: a
    settled request has its recorded timer cleared and a reset scheduled
    [resetDelay] from now. *)
Definition scheduleReset (resetDelay : Z) (w : Store) (entry : string * IRequestEntity)
  : Store :=
  if isSettled (status entry.2) then
    let cleared :=
      match eventTimeouts w !! entry.1 with
      | Some id => clearTimeout id (timers w)
      | None => timers w
      end in
    {| state := state w;
       eventTimeouts := <[entry.1 := nextTimer w]> (eventTimeouts w);
       timers := cleared ++ [{| timer_id := nextTimer w;
                                timer_event := entry.1;
                                timer_due := now w + timeoutDelay resetDelay |}];
       nextTimer := S (nextTimer w);
       now := now w;
       effectRegistered := effectRegistered w;
       dirty := dirty w |}
  else w.

(** One run of the effect registered in [onInit]. *)
Definition requestsEffect (resetDelay : Z) (w : Store) : Store :=
  fold_left (scheduleReset resetDelay) (requests (state w)) w.

(** The scheduler, when a task has ended: the effect runs if it exists and
    [requests] has changed since its last run, once, on the state the task
    has left. *)
Definition flushEffects (resetDelay : Z) (w : Store) : Store :=
  if effectRegistered w && dirty w then requestsEffect resetDelay (setDirty false w)
  else w.

(** *** The methods *)

Definition markPending (event : string) (w : Store) : Store :=
  patch [setPending event] w.

(** [pick(result, stateKeys)]: the state keys are [requests] and the keys of
    the composing store's fields. *)
Definition normalizedState (result : option IRequestStatusPayload) (st : State)
  : Partial :=
  {| p_requests := fromEntries <$> payloadRequests result;
     p_fields := match result with
                 | Some r => pick (properties r) (keys (fields st))
                 | None => ∅
                 end |}.

Definition markResolved (event : string) (status : TRequestStatus)
    (result : option IRequestStatusPayload) (w : Store) : Store :=
  let data := nullish (payloadProp result "data") JNull in
  let message := nullish (payloadProp result "message") (JStr "") in
  let stateSource := state w in
  let normalized := normalizedState result stateSource in
  let payload :=
    Some {| payload_requests := None;
            properties := <["data" := data]> (<["message" := message]> ∅) |} in
  let statusUpdater :=
    if status_eqb status fulfilled
    then setFulfilled event payload
    else setRejected event payload in
  patch [statusUpdater; fun _ => normalized] w.

Definition markFulfilled (event : string) (result : option IRequestStatusPayload)
    (w : Store) : Store :=
  markResolved event fulfilled result w.

Definition markRejected (event : string) (result : option IRequestStatusPayload)
    (w : Store) : Store :=
  markResolved event rejected result w.

(** [store.requestStatus()[event]] *)
Definition requestStatus (w : Store) (event : string) : IRequestSnapshot :=
  _getRequestSnapshot event (readEntry event (requests (state w))).

(** [resetDelay = 1500] when the options leave it out. *)
Definition defaultResetDelay : Z := 1500.

(** The store as [withState(initialState(eventTypes))] builds it. *)
Definition newStore (events : list string) (fields0 : gmap string JsValue) : Store :=
  {| state := {| requests := initialState events; fields := fields0 |};
     eventTimeouts := ∅; timers := []; nextTimer := 0; now := 0;
     effectRegistered := false; dirty := false |}.

(** The [onInit] hook: [effect(() => ...)] creates the effect, which is due
    for its first run. *)
Definition onInit (w : Store) : Store :=
  {| state := state w; eventTimeouts := eventTimeouts w; timers := timers w;
     nextTimer := nextTimer w; now := now w;
     effectRegistered := true; dirty := true |}.

(** *** Tasks *)

(** A call of a method of the store. *)
Inductive Call : Type :=
| MarkPending (event : string)
| MarkFulfilled (event : string) (result : option IRequestStatusPayload)
| MarkRejected (event : string) (result : option IRequestStatusPayload).

Definition perform (w : Store) (call : Call) : Store :=
  match call with
  | MarkPending event => markPending event w
  | MarkFulfilled event result => markFulfilled event result w
  | MarkRejected event result => markRejected event result w
  end.

(** A task: the calls it makes run one after the other, then the scheduler
    runs the effect. *)
Definition task (resetDelay : Z) (calls : list Call) (w : Store) : Store :=
  flushEffects resetDelay (fold_left perform calls w).

(** The store when the task that constructed it has ended. *)
Definition createStore (resetDelay : Z) (events : list string)
    (fields0 : gmap string JsValue) : Store :=
  flushEffects resetDelay (onInit (newStore events fields0)).

(** *** The event loop: timers *)

(** The callback of a timer: [patchState(store, setIdle(event))]. *)
Definition fireTimer (t : Timer) (w : Store) : Store :=
  {| state := patchState (state w) [setIdle (timer_event t)];
     eventTimeouts := eventTimeouts w;
     timers := clearTimeout (timer_id t) (timers w);
     nextTimer := nextTimer w;
     now := Z.max (now w) (timer_due t);
     effectRegistered := effectRegistered w;
     dirty := true |}.

Definition earlier (a b : Timer) : bool :=
  (timer_due a <? timer_due b)%Z
  || ((timer_due a =? timer_due b)%Z && (timer_id a <=? timer_id b)%nat).

(** The timer the browser runs next among those due by [limit]: the earliest
    one, the oldest among equals. *)
Fixpoint nextDue (limit : Z) (ts : list Timer) : option Timer :=
  match ts with
  | [] => None
  | t :: rest =>
      let r := nextDue limit rest in
      if (timer_due t <=? limit)%Z then
        match r with
        | Some u => if earlier t u then Some t else Some u
        | None => Some t
        end
      else r
  end.

(** Run every timer due by [limit], each callback a task of its own; [None]
    when [fuel] callbacks did not exhaust them. *)
Fixpoint runTimers (fuel : nat) (resetDelay : Z) (limit : Z) (w : Store)
  : option Store :=
  match nextDue limit (timers w) with
  | None => Some w
  | Some t =>
      match fuel with
      | O => None
      | S fuel' =>
          runTimers fuel' resetDelay limit (flushEffects resetDelay (fireTimer t w))
      end
  end.

Definition setNow (t : Z) (w : Store) : Store :=
  {| state := state w; eventTimeouts := eventTimeouts w; timers := timers w;
     nextTimer := nextTimer w; now := t;
     effectRegistered := effectRegistered w; dirty := dirty w |}.

(** [d] milliseconds pass with no call into the store. *)
Definition elapse (fuel : nat) (resetDelay : Z) (d : Z) (w : Store) : option Store :=
  setNow (now w + d) <$> runTimers fuel resetDelay (now w + d) w.

(** *** Well-formed stores *)

(** The keys of [requests] are distinct; every pending timer is the one the
    registry records for its event; two events never share a recorded timer;
    the recorded timers are older than the next one to be created; and the
    effect of [onInit] exists. *)
Definition wf (w : Store) : Prop :=
  NoDup (requests (state w)).*1
  /\ Forall (fun t => eventTimeouts w !! timer_event t = Some (timer_id t)) (timers w)
  /\ (forall k1 k2 id,
        eventTimeouts w !! k1 = Some id -> eventTimeouts w !! k2 = Some id -> k1 = k2)
  /\ (forall k id, eventTimeouts w !! k = Some id -> id < nextTimer w)
  /\ effectRegistered w = true.

(** No request other than [event] is settled. *)
Definition quietOthers (event : string) (l : list (string * IRequestEntity)) : Prop :=
  forall k v, (k, v) ∈ l -> k <> event -> isSettled (status v) = false.

(** Only [event] is in play: the pending timers are its own and no other
    request is settled. *)
Definition quiet (event : string) (w : Store) : Prop :=
  (forall t, t ∈ timers w -> timer_event t = event)
  /\ quietOthers event (requests (state w)).

(** *** The [requests] record *)

Lemma lookupEntry_setEntry_eq event entity l :
  lookupEntry event (setEntry event entity l) = Some entity.
Proof.
  induction l as [|[k v] xs IH]; cbn.
  - by rewrite String.eqb_refl.
  - destruct (String.eqb k event) eqn:E; cbn; rewrite E; [reflexivity|exact IH].
Qed.

Lemma lookupEntry_setEntry_ne event event' entity l :
  event' <> event ->
  lookupEntry event' (setEntry event entity l) = lookupEntry event' l.
Proof.
  intros Hne. induction l as [|[k v] xs IH]; cbn.
  - destruct (String.eqb_spec event event'); [congruence|reflexivity].
  - destruct (String.eqb_spec k event) as [->|Hk]; cbn.
    + destruct (String.eqb_spec event event'); [congruence|reflexivity].
    + destruct (String.eqb k event'); [reflexivity|exact IH].
Qed.

Lemma elem_of_setEntry event entity l k v :
  (k, v) ∈ setEntry event entity l -> (k = event /\ v = entity) \/ (k, v) ∈ l.
Proof.
  induction l as [|[k0 v0] xs IH]; cbn.
  - intros H. apply list_elem_of_singleton in H. injection H as -> ->. by left.
  - destruct (String.eqb_spec k0 event) as [->|Hk]; intros H;
      apply elem_of_cons in H as [H|H].
    + injection H as -> ->. by left.
    + right. by apply list_elem_of_further.
    + right. rewrite H. apply list_elem_of_here.
    + destruct (IH H) as [?|?]; [by left|right]. by apply list_elem_of_further.
Qed.

Lemma setEntry_keys event entity l k :
  k ∈ (setEntry event entity l).*1 <-> k = event \/ k ∈ l.*1.
Proof.
  induction l as [|[k0 v0] xs IH]; cbn.
  - rewrite list_elem_of_singleton, elem_of_nil. tauto.
  - destruct (String.eqb_spec k0 event) as [->|Hk]; cbn;
      rewrite !elem_of_cons; [tauto|]. rewrite IH. tauto.
Qed.

Lemma NoDup_setEntry event entity l :
  NoDup l.*1 -> NoDup (setEntry event entity l).*1.
Proof.
  induction l as [|[k0 v0] xs IH]; cbn; intros H.
  - apply NoDup_singleton.
  - apply NoDup_cons in H as [Hnin Hnd].
    destruct (String.eqb_spec k0 event) as [->|Hk]; cbn.
    + apply NoDup_cons. done.
    + apply NoDup_cons. split; [|by apply IH].
      rewrite setEntry_keys. intros [?|?]; [congruence|contradiction].
Qed.

Lemma lookupEntry_elem_of event l v :
  lookupEntry event l = Some v -> (event, v) ∈ l.
Proof.
  induction l as [|[k0 v0] xs IH]; cbn; [discriminate|].
  destruct (String.eqb_spec k0 event) as [->|Hk].
  - intros [= ->]. apply list_elem_of_here.
  - intros H. apply list_elem_of_further. by apply IH.
Qed.

Lemma quietOthers_setEntry event entity l :
  quietOthers event l -> quietOthers event (setEntry event entity l).
Proof.
  intros Hq k v Hin Hne. apply elem_of_setEntry in Hin as [[? _]|Hin]; [congruence|].
  by apply (Hq k v).
Qed.

Lemma NoDup_initialState events : NoDup (initialState events).*1.
Proof.
  unfold initialState.
  assert (G : forall acc, NoDup acc.*1 ->
             NoDup (fold_left (fun acc event => setEntry event idleEntity acc) events acc).*1).
  { induction events as [|e es IH]; cbn; intros acc Hacc; [exact Hacc|].
    apply IH. by apply NoDup_setEntry. }
  apply G. cbn. apply NoDup_nil. done.
Qed.

Lemma NoDup_fromEntries entries : NoDup (fromEntries entries).*1.
Proof.
  unfold fromEntries.
  assert (G : forall acc, NoDup acc.*1 ->
             NoDup (fold_left (fun acc entry => setEntry entry.1 entry.2 acc) entries acc).*1).
  { induction entries as [|e es IH]; cbn; intros acc Hacc; [exact Hacc|].
    apply IH. by apply NoDup_setEntry. }
  apply G. cbn. apply NoDup_nil. done.
Qed.

(** A record whose keys are distinct stands for itself. *)
Lemma fromEntries_NoDup entries : NoDup entries.*1 -> fromEntries entries = entries.
Proof.
  unfold fromEntries.
  assert (G : forall acc,
             NoDup ((acc ++ entries)%list).*1 ->
             fold_left (fun acc entry => setEntry entry.1 entry.2 acc) entries acc
             = (acc ++ entries)%list).
  { induction entries as [|[k v] es IH]; intros acc Hnd; cbn [fold_left].
    - by rewrite app_nil_r.
    - assert (E : setEntry k v acc = (acc ++ [(k, v)])%list).
      { assert (Hk : k ∉ acc.*1).
        { rewrite fmap_app in Hnd. apply NoDup_app in Hnd as (_ & Hd & _).
          intros Hin. apply (Hd k Hin). cbn. apply list_elem_of_here. }
        clear -Hk. induction acc as [|[k0 v0] xs IHx]; [reflexivity|].
        cbn in Hk. apply not_elem_of_cons in Hk as [Hne Hk]. cbn.
        destruct (String.eqb_spec k0 k); [congruence|]. by rewrite IHx. }
      cbn [fst snd]. rewrite E, IH; rewrite <- app_assoc; [reflexivity|exact Hnd]. }
  intros Hnd. by apply (G []).
Qed.

(** *** The effect *)

Lemma scheduleReset_state d w entry : state (scheduleReset d w entry) = state w.
Proof. unfold scheduleReset. by destruct (isSettled _). Qed.

Lemma scheduleReset_now d w entry : now (scheduleReset d w entry) = now w.
Proof. unfold scheduleReset. by destruct (isSettled _). Qed.

Lemma scheduleReset_flags d w entry :
  effectRegistered (scheduleReset d w entry) = effectRegistered w
  /\ dirty (scheduleReset d w entry) = dirty w.
Proof. unfold scheduleReset. by destruct (isSettled _). Qed.

Lemma fold_scheduleReset_state d l :
  forall w, state (fold_left (scheduleReset d) l w) = state w
            /\ now (fold_left (scheduleReset d) l w) = now w.
Proof.
  induction l as [|x xs IH]; intros w; cbn; [done|].
  destruct (IH (scheduleReset d w x)) as [-> ->].
  by rewrite scheduleReset_state, scheduleReset_now.
Qed.

Lemma fold_scheduleReset_flags d l :
  forall w, effectRegistered (fold_left (scheduleReset d) l w) = effectRegistered w
            /\ dirty (fold_left (scheduleReset d) l w) = dirty w.
Proof.
  induction l as [|x xs IH]; intros w; cbn; [done|].
  destruct (IH (scheduleReset d w x)) as [-> ->]. apply scheduleReset_flags.
Qed.

Lemma requestsEffect_state d w : state (requestsEffect d w) = state w.
Proof. apply fold_scheduleReset_state. Qed.

Lemma requestsEffect_now d w : now (requestsEffect d w) = now w.
Proof. apply fold_scheduleReset_state. Qed.

(** The effect never writes to the state, and it does not move the clock. *)
Lemma flushEffects_keeps_state d w : state (flushEffects d w) = state w.
Proof.
  unfold flushEffects. destruct (effectRegistered w && dirty w); [|done].
  by rewrite requestsEffect_state.
Qed.

Lemma flushEffects_now d w : now (flushEffects d w) = now w.
Proof.
  unfold flushEffects. destruct (effectRegistered w && dirty w); [|done].
  by rewrite requestsEffect_now.
Qed.

Lemma flushEffects_registered d w :
  effectRegistered (flushEffects d w) = effectRegistered w.
Proof.
  unfold flushEffects. destruct (effectRegistered w && dirty w); [|done].
  unfold requestsEffect. by rewrite (proj1 (fold_scheduleReset_flags d _ _)).
Qed.

Lemma flushEffects_clean d w :
  effectRegistered w = true -> dirty (flushEffects d w) = false.
Proof.
  intros Hr. unfold flushEffects. rewrite Hr. cbn [andb].
  destruct (dirty w) eqn:E; [|done].
  unfold requestsEffect. by rewrite (proj2 (fold_scheduleReset_flags d _ _)).
Qed.

(** With the effect due, the scheduler runs it. *)
Lemma flushEffects_run d w :
  effectRegistered w = true -> dirty w = true ->
  flushEffects d w = requestsEffect d (setDirty false w).
Proof. intros Hr Hd. unfold flushEffects. by rewrite Hr, Hd. Qed.

Lemma fold_scheduleReset_unsettled d l :
  (forall k v, (k, v) ∈ l -> isSettled (status v) = false) ->
  forall w, fold_left (scheduleReset d) l w = w.
Proof.
  induction l as [|[k v] xs IH]; intros H w; cbn; [reflexivity|].
  unfold scheduleReset at 2. cbn.
  rewrite (H k v) by apply list_elem_of_here.
  apply IH. intros k' v' Hin. apply (H k' v'). by apply list_elem_of_further.
Qed.

(** With the other requests unsettled the effect only acts on [event]. *)
Lemma fold_scheduleReset_single d event v l :
  NoDup l.*1 -> quietOthers event l -> lookupEntry event l = Some v ->
  forall w, fold_left (scheduleReset d) l w = scheduleReset d w (event, v).
Proof.
  induction l as [|[k x] xs IH]; cbn; intros Hnd Hq Hl w; [discriminate|].
  apply NoDup_cons in Hnd as [Hnin Hnd].
  destruct (String.eqb_spec k event) as [->|Hk].
  - injection Hl as ->. apply fold_scheduleReset_unsettled.
    intros k' v' Hin. apply (Hq k' v'); [by apply list_elem_of_further|].
    intros ->. apply Hnin. apply list_elem_of_fmap. by exists (event, v').
  - assert (E : scheduleReset d w (k, x) = w).
    { unfold scheduleReset. cbn. by rewrite (Hq k x) by (done || apply list_elem_of_here). }
    rewrite E. apply IH; [done| |done].
    intros k' v' Hin. apply Hq. by apply list_elem_of_further.
Qed.

Lemma cleared_other_events event w :
  Forall (fun t => eventTimeouts w !! timer_event t = Some (timer_id t)) (timers w) ->
  Forall (fun t => timer_event t <> event
                   /\ eventTimeouts w !! timer_event t = Some (timer_id t))
    match eventTimeouts w !! event with
    | Some id => clearTimeout id (timers w)
    | None => timers w
    end.
Proof.
  intros Ht. rewrite Forall_forall in Ht. apply Forall_forall. intros t Hin.
  destruct (eventTimeouts w !! event) as [id|] eqn:E.
  - unfold clearTimeout in Hin. apply list_elem_of_filter in Hin as [Hid Hin].
    split; [|by apply Ht]. intros Hev. apply Ht in Hin. rewrite Hev, E in Hin. congruence.
  - split; [|by apply Ht]. intros Hev. apply Ht in Hin. rewrite Hev, E in Hin. discriminate.
Qed.

Lemma wf_scheduleReset d w entry : wf w -> wf (scheduleReset d w entry).
Proof.
  intros (Hnd & Ht & Hinj & Hlt & Hreg). unfold scheduleReset.
  destruct (isSettled (status entry.2)); [|done].
  split; [exact Hnd|]. split; [|split; [|split]]; cbn.
  - apply Forall_app. split.
    + pose proof (cleared_other_events entry.1 w Ht) as Hc.
      rewrite Forall_forall in Hc. apply Forall_forall. intros t Hin.
      destruct (Hc t Hin) as [Hne Hrec]. by rewrite lookup_insert_ne.
    + constructor; [|constructor]. cbn. apply lookup_insert_eq.
  - intros k1 k2 id H1 H2. rewrite lookup_insert in H1, H2.
    destruct (decide (entry.1 = k1)) as [<-|N1], (decide (entry.1 = k2)) as [<-|N2];
      [done| | |by apply (Hinj k1 k2 id)].
    + injection H1 as <-. apply Hlt in H2. lia.
    + injection H2 as <-. apply Hlt in H1. lia.
  - intros k id H. rewrite lookup_insert in H.
    destruct (decide (entry.1 = k)) as [<-|N].
    + injection H as <-. lia.
    + apply Hlt in H. lia.
  - exact Hreg.
Qed.

Lemma wf_fold_scheduleReset d l : forall w, wf w -> wf (fold_left (scheduleReset d) l w).
Proof.
  induction l as [|x xs IH]; intros w Hw; cbn; [done|].
  apply IH. by apply wf_scheduleReset.
Qed.

Lemma wf_setDirty b w : wf w -> wf (setDirty b w).
Proof. intros H. exact H. Qed.

Lemma wf_setNow t w : wf w -> wf (setNow t w).
Proof. intros H. exact H. Qed.

Lemma wf_flushEffects d w : wf w -> wf (flushEffects d w).
Proof.
  intros Hw. unfold flushEffects. destruct (effectRegistered w && dirty w); [|done].
  by apply wf_fold_scheduleReset.
Qed.

(** *** What the methods write *)

(** The entity a settle call stores: the message survives only when it is
    truthy, the data property exists only when the data is truthy. *)
Definition settledEntity (st : TRequestStatus) (result : option IRequestStatusPayload)
  : IRequestEntity :=
  {| status := st;
     message := if truthy (payloadProp result "message")
                then payloadProp result "message" else JNull;
     data := if truthy (payloadProp result "data")
             then Some (payloadProp result "data") else None |}.

(** The state a settle call leaves: the payload's [requests] record when it
    has one, the current record with the settled entity otherwise. *)
Definition settledState (event : string) (st : TRequestStatus)
    (result : option IRequestStatusPayload) (s : State) : State :=
  {| requests :=
       default (setEntry event
                  (settledEntity (if status_eqb st fulfilled then fulfilled else rejected)
                     result)
                  (requests s))
         (fromEntries <$> payloadRequests result);
     fields := match result with
               | Some r => pick (properties r) (keys (fields s))
               | None => ∅
               end ∪ fields s |}.

Lemma settle_message (m : JsValue) :
  orElse (nullish m (JStr "")) JNull = if truthy m then m else JNull.
Proof. by destruct m. Qed.

Lemma settle_data (d : JsValue) :
  (if truthy (nullish d JNull) then Some (nullish d JNull) else None) =
  (if truthy d then Some d else None).
Proof. by destruct d. Qed.

Lemma payload_data (d m : JsValue) :
  payloadProp (Some {| payload_requests := None;
                       properties := <["data" := d]> (<["message" := m]> ∅) |}) "data" = d.
Proof. unfold payloadProp. cbn. by rewrite lookup_insert_eq. Qed.

Lemma payload_message (d m : JsValue) :
  payloadProp (Some {| payload_requests := None;
                       properties := <["data" := d]> (<["message" := m]> ∅) |}) "message"
  = m.
Proof.
  unfold payloadProp. cbn. rewrite lookup_insert_ne by done. by rewrite lookup_insert_eq.
Qed.

Lemma state_markPending event w :
  state (markPending event w) =
  {| requests := setEntry event {| status := pending; message := JNull; data := None |}
                   (requests (state w));
     fields := fields (state w) |}.
Proof.
  unfold markPending, patch. cbn. unfold merge. cbn. by rewrite (left_id ∅ (∪)).
Qed.

Lemma state_markResolved event st result w :
  state (markResolved event st result w) = settledState event st result (state w).
Proof.
  unfold markResolved, patch, settledState. cbn [state setDirty withState].
  cbn [patchState fold_left]. unfold merge, settledEntity. cbn [requests fields p_requests p_fields normalizedState].
  destruct (status_eqb st fulfilled); cbn [setFulfilled setRejected p_requests p_fields requests fields default];
    unfold dataProperty; rewrite payload_data, payload_message, settle_message, settle_data;
    rewrite (left_id ∅ (∪)); f_equal; by destruct (payloadRequests result).
Qed.

(** A payload without a [requests] property. *)
Definition plain (result : option IRequestStatusPayload) : Prop :=
  payloadRequests result = None.

Lemma requests_settledState_plain event st result s :
  plain result ->
  requests (settledState event st result s) =
  setEntry event
    (settledEntity (if status_eqb st fulfilled then fulfilled else rejected) result)
    (requests s).
Proof. unfold plain, settledState. cbn. by intros ->. Qed.

Lemma NoDup_settledState event st result s :
  NoDup (requests s).*1 -> NoDup (requests (settledState event st result s)).*1.
Proof.
  intros Hnd. unfold settledState. cbn [requests].
  destruct (payloadRequests result) as [entries|]; cbn.
  - apply NoDup_fromEntries.
  - by apply NoDup_setEntry.
Qed.

(** *** Well-formedness is kept by every step *)

Lemma wf_withState st w : wf w -> NoDup (requests st).*1 -> wf (withState st w).
Proof. intros (_ & Hrest) Hnd. split; [exact Hnd|exact Hrest]. Qed.

Lemma wf_newStore events fields0 : wf (onInit (newStore events fields0)).
Proof.
  split; [apply NoDup_initialState|]. split; [constructor|]. split; [|split]; cbn.
  - intros k1 k2 id H. by rewrite lookup_empty in H.
  - intros k id H. by rewrite lookup_empty in H.
  - reflexivity.
Qed.

Lemma wf_createStore d events fields0 : wf (createStore d events fields0).
Proof. apply wf_flushEffects, wf_newStore. Qed.

Lemma wf_markPending event w : wf w -> wf (markPending event w).
Proof.
  intros Hw. destruct Hw as (Hnd & Hrest). split; [|exact Hrest].
  rewrite state_markPending. cbn. by apply NoDup_setEntry.
Qed.

Lemma wf_markResolved event st result w : wf w -> wf (markResolved event st result w).
Proof.
  intros Hw. destruct Hw as (Hnd & Hrest). split; [|exact Hrest].
  rewrite state_markResolved. by apply NoDup_settledState.
Qed.

Lemma wf_perform w call : wf w -> wf (perform w call).
Proof.
  destruct call; cbn; [apply wf_markPending|apply wf_markResolved|apply wf_markResolved].
Qed.

Lemma wf_calls calls : forall w, wf w -> wf (fold_left perform calls w).
Proof.
  induction calls as [|c cs IH]; intros w Hw; cbn; [done|].
  apply IH. by apply wf_perform.
Qed.

Lemma wf_task d calls w : wf w -> wf (task d calls w).
Proof. intros Hw. apply wf_flushEffects. by apply wf_calls. Qed.

Lemma wf_fireTimer t w : wf w -> wf (fireTimer t w).
Proof.
  intros (Hnd & Ht & Hrest). unfold fireTimer.
  split; [|split; [|exact Hrest]]; cbn.
  - by apply NoDup_setEntry.
  - rewrite Forall_forall in Ht. apply Forall_forall. intros u Hin.
    unfold clearTimeout in Hin. apply list_elem_of_filter in Hin as [_ Hin]. by apply Ht.
Qed.

Lemma wf_runTimers fuel d limit :
  forall w w', wf w -> runTimers fuel d limit w = Some w' -> wf w'.
Proof.
  induction fuel as [|fuel IH]; intros w w' Hw; cbn.
  - destruct (nextDue limit (timers w)); [discriminate|]. by intros [= <-].
  - destruct (nextDue limit (timers w)) as [t|]; [|by intros [= <-]].
    apply IH. by apply wf_flushEffects, wf_fireTimer.
Qed.

Lemma wf_elapse fuel d dt w w' : wf w -> elapse fuel d dt w = Some w' -> wf w'.
Proof.
  intros Hw. unfold elapse.
  destruct (runTimers fuel d (now w + dt) w) as [w1|] eqn:E; [|discriminate].
  intros [= <-]. exact (wf_runTimers _ _ _ _ _ Hw E).
Qed.

(** *** One event in play: the timers the effect leaves behind *)

Lemma NoDup_keys_functional (l : list (string * IRequestEntity)) k v1 v2 :
  NoDup l.*1 -> (k, v1) ∈ l -> (k, v2) ∈ l -> v1 = v2.
Proof.
  induction l as [|[k0 v0] xs IH]; cbn; intros Hnd H1 H2.
  - by apply elem_of_nil in H1.
  - apply NoDup_cons in Hnd as [Hnin Hnd].
    assert (Hk : forall v, (k0, v) ∈ xs -> False).
    { intros v Hv. apply Hnin. apply list_elem_of_fmap. by exists (k0, v). }
    apply elem_of_cons in H1 as [H1|H1]; apply elem_of_cons in H2 as [H2|H2].
    + congruence.
    + injection H1 as -> ->. destruct (Hk _ H2).
    + injection H2 as -> ->. destruct (Hk _ H1).
    + by apply IH.
Qed.

Lemma clearTimeout_all id (ts : list Timer) :
  (forall t, t ∈ ts -> timer_id t = id) -> clearTimeout id ts = [].
Proof.
  unfold clearTimeout. induction ts as [|t ts IH]; intros H; [reflexivity|].
  rewrite filter_cons. destruct (decide (timer_id t <> id)) as [Hne|_].
  - exfalso. apply Hne. apply H. apply list_elem_of_here.
  - apply IH. intros u Hu. apply H. by apply list_elem_of_further.
Qed.

Lemma recorded_cleared event w :
  wf w -> (forall t, t ∈ timers w -> timer_event t = event) ->
  match eventTimeouts w !! event with
  | Some id => clearTimeout id (timers w)
  | None => timers w
  end = [].
Proof.
  intros (_ & Ht & _) Hev. rewrite Forall_forall in Ht.
  destruct (eventTimeouts w !! event) as [id|] eqn:E.
  - apply clearTimeout_all. intros t Hin.
    specialize (Ht t Hin). rewrite (Hev t Hin), E in Ht. congruence.
  - destruct (timers w) as [|t ts]; [reflexivity|].
    specialize (Ht t (list_elem_of_here _ _)).
    rewrite (Hev t (list_elem_of_here _ _)), E in Ht. discriminate.
Qed.

(** The timer a run of the effect schedules for [event] in store [w]. *)
Definition resetTimer (d : Z) (event : string) (w : Store) : Timer :=
  {| timer_id := nextTimer w; timer_event := event;
     timer_due := now w + timeoutDelay d |}.

Lemma requestsEffect_settled d event entity w :
  wf w -> quiet event w ->
  lookupEntry event (requests (state w)) = Some entity ->
  isSettled (status entity) = true ->
  requestsEffect d w =
  {| state := state w;
     eventTimeouts := <[event := nextTimer w]> (eventTimeouts w);
     timers := [resetTimer d event w];
     nextTimer := S (nextTimer w);
     now := now w;
     effectRegistered := effectRegistered w;
     dirty := dirty w |}.
Proof.
  intros Hw [Hev Hq] Hl Hs. unfold requestsEffect.
  rewrite (fold_scheduleReset_single d event entity); [|apply Hw|done|done].
  unfold scheduleReset. cbn [fst snd]. rewrite Hs.
  by rewrite (recorded_cleared event w Hw Hev).
Qed.

Lemma requestsEffect_unsettled d event entity w :
  wf w -> quietOthers event (requests (state w)) ->
  lookupEntry event (requests (state w)) = Some entity ->
  isSettled (status entity) = false ->
  requestsEffect d w = w.
Proof.
  intros [Hnd _] Hq Hl Hs. unfold requestsEffect.
  apply fold_scheduleReset_unsettled. intros k v Hin.
  destruct (decide (k = event)) as [->|Hne]; [|by apply (Hq k v)].
  assert (v = entity) as ->; [|done].
  apply lookupEntry_elem_of in Hl.
  exact (NoDup_keys_functional _ _ _ _ Hnd Hin Hl).
Qed.

(** A task whose calls leave [event] settled and the other requests
    unsettled, on a store with no timer of another event: the effect clears
    what is pending and schedules one reset. *)
Lemma flushEffects_settled d event entity w :
  wf w -> quiet event w -> dirty w = true ->
  lookupEntry event (requests (state w)) = Some entity ->
  isSettled (status entity) = true ->
  flushEffects d w =
  {| state := state w;
     eventTimeouts := <[event := nextTimer w]> (eventTimeouts w);
     timers := [resetTimer d event w];
     nextTimer := S (nextTimer w);
     now := now w;
     effectRegistered := true;
     dirty := false |}.
Proof.
  intros Hw Hq Hd Hl Hs. rewrite flushEffects_run by (done || apply Hw).
  rewrite (requestsEffect_settled d event entity); try done.
  cbn. by rewrite (proj2 (proj2 (proj2 (proj2 Hw)))).
Qed.

(** A task whose calls leave no request settled: the effect runs and does
    nothing. *)
Lemma flushEffects_unsettled d event entity w :
  wf w -> quietOthers event (requests (state w)) ->
  lookupEntry event (requests (state w)) = Some entity ->
  isSettled (status entity) = false ->
  flushEffects d w = setDirty false w.
Proof.
  intros Hw Hq Hl Hs. unfold flushEffects.
  rewrite (proj2 (proj2 (proj2 (proj2 Hw)))). cbn [andb].
  destruct (dirty w) eqn:Hd.
  - by apply (requestsEffect_unsettled d event entity).
  - destruct w. cbn in *. by subst.
Qed.

(** *** Time passing over a store with one pending timer *)

Lemma runTimers_none fuel d limit w :
  nextDue limit (timers w) = None -> runTimers fuel d limit w = Some w.
Proof. intros H. destruct fuel; cbn; by rewrite H. Qed.

Lemma elapse_not_due fuel d dt w t :
  timers w = [t] -> (now w + dt < timer_due t)%Z ->
  elapse fuel d dt w = Some (setNow (now w + dt) w).
Proof.
  intros Ht Hlt. unfold elapse. rewrite runTimers_none; [reflexivity|].
  rewrite Ht. cbn. destruct (Z.leb_spec (timer_due t) (now w + dt)); [lia|reflexivity].
Qed.

Lemma elapse_no_timer fuel d dt w :
  timers w = [] -> elapse fuel d dt w = Some (setNow (now w + dt) w).
Proof. intros Ht. unfold elapse. rewrite runTimers_none; [reflexivity|]. by rewrite Ht. Qed.

Lemma elapse_fires fuel d dt w t :
  wf w -> timers w = [t] -> quietOthers (timer_event t) (requests (state w)) ->
  (timer_due t <= now w + dt)%Z ->
  elapse (S fuel) d dt w =
  Some {| state := {| requests := setEntry (timer_event t) idleEntity (requests (state w));
                      fields := fields (state w) |};
          eventTimeouts := eventTimeouts w;
          timers := [];
          nextTimer := nextTimer w;
          now := now w + dt;
          effectRegistered := true;
          dirty := false |}.
Proof.
  intros Hw Ht Hq Hle. unfold elapse. cbn [runTimers]. rewrite Ht.
  cbn [nextDue].
  destruct (Z.leb_spec (timer_due t) (now w + dt)); [|lia].
  assert (Ec : clearTimeout (timer_id t) [t] = []).
  { apply clearTimeout_all. intros u Hu. by apply list_elem_of_singleton in Hu as ->. }
  assert (Ep : patchState (state w) [setIdle (timer_event t)] =
               {| requests := setEntry (timer_event t) idleEntity (requests (state w));
                  fields := fields (state w) |}).
  { cbn. unfold merge. cbn. by rewrite (left_id ∅ (∪)). }
  assert (Hwf : wf (fireTimer t w)) by by apply wf_fireTimer.
  rewrite (flushEffects_unsettled d (timer_event t) idleEntity (fireTimer t w) Hwf).
  - unfold fireTimer. rewrite Ht, Ec, Ep. cbn [setDirty state eventTimeouts timers nextTimer now effectRegistered].
    rewrite runTimers_none by reflexivity. cbn.
    by rewrite (proj2 (proj2 (proj2 (proj2 Hw)))).
  - unfold fireTimer. cbn [state]. rewrite Ep. cbn. by apply quietOthers_setEntry.
  - unfold fireTimer. cbn [state]. rewrite Ep. cbn. apply lookupEntry_setEntry_eq.
  - reflexivity.
Qed.

Lemma readEntry_own event l entity :
  lookupEntry event l = Some entity -> readEntry event l = ownEntity entity.
Proof. unfold readEntry. by intros ->. Qed.

Lemma requestStatus_entity w event entity :
  lookupEntry event (requests (state w)) = Some entity ->
  requestStatus w event = _getRequestSnapshot event (ownEntity entity).
Proof. unfold requestStatus. intros H. by rewrite (readEntry_own _ _ _ H). Qed.

(** The snapshot of an idle request. *)
Definition idleSnapshot (event : string) : IRequestSnapshot :=
  {| snap_event := event; snap_data := JNull; snap_status := idle; snap_message := JNull;
     isPending := false; isDisabled := false; isRejected := false; isFulfilled := false;
     isIdle := true |}.

(** The snapshot read under a name the record does not hold but every
    object inherits: the defaults of an idle request, yet not idle. *)
Definition inheritedSnapshot (event : string) : IRequestSnapshot :=
  {| snap_event := event; snap_data := JNull; snap_status := idle; snap_message := JNull;
     isPending := false; isDisabled := false; isRejected := false; isFulfilled := false;
     isIdle := false |}.

(** *** The timers of one event, on any well-formed store *)

Definition timersFor (event : string) (w : Store) : list Timer :=
  filter (fun t => timer_event t = event) (timers w).

Lemma filter_none (P : Timer -> Prop) `{forall t, Decision (P t)} (ts : list Timer) :
  Forall (fun t => ~ P t) ts -> filter P ts = [].
Proof.
  induction 1 as [|t ts Ht _ IH]; [reflexivity|].
  rewrite filter_cons, decide_False by done. exact IH.
Qed.

Lemma filter_clearTimeout_other event id (ts : list Timer) :
  Forall (fun t => timer_event t = event -> timer_id t <> id) ts ->
  filter (fun t => timer_event t = event) (clearTimeout id ts)
  = filter (fun t => timer_event t = event) ts.
Proof.
  unfold clearTimeout. induction 1 as [|t ts Ht _ IH]; [reflexivity|].
  rewrite !filter_cons.
  destruct (decide (timer_id t <> id)) as [Hid|Hid];
    destruct (decide (timer_event t = event)) as [Hev|Hev]; rewrite ?filter_cons.
  - rewrite decide_True by done. by rewrite IH.
  - rewrite decide_False by done. exact IH.
  - destruct Hid. by apply Ht.
  - exact IH.
Qed.

Lemma scheduleReset_other d event w k v :
  wf w -> k <> event ->
  timersFor event (scheduleReset d w (k, v)) = timersFor event w.
Proof.
  intros (_ & Ht & Hinj & _) Hne. unfold scheduleReset, timersFor. cbn [fst snd].
  destruct (isSettled (status v)); [|done]. cbn [timers].
  rewrite filter_app, filter_cons, decide_False by (cbn; congruence).
  rewrite filter_nil, app_nil_r.
  destruct (eventTimeouts w !! k) as [id|] eqn:E; [|done].
  apply filter_clearTimeout_other.
  rewrite Forall_forall in Ht. apply Forall_forall. intros t Hin Hev Hid.
  apply Ht in Hin. rewrite Hev, Hid in Hin. apply Hne. by apply (Hinj k event id).
Qed.

Lemma scheduleReset_self d event w v :
  wf w -> isSettled (status v) = true ->
  timersFor event (scheduleReset d w (event, v)) = [resetTimer d event w].
Proof.
  intros (_ & Ht & _) Hs. unfold scheduleReset, timersFor. cbn [fst snd].
  rewrite Hs. cbn [timers]. rewrite filter_app.
  rewrite (filter_none (fun t => timer_event t = event)).
  - rewrite filter_cons, decide_True by done. reflexivity.
  - eapply Forall_impl; [exact (cleared_other_events event w Ht)|].
    cbn. intros t [Hne _]. exact Hne.
Qed.

Lemma scheduleReset_nextTimer d w entry :
  nextTimer w <= nextTimer (scheduleReset d w entry).
Proof. unfold scheduleReset. destruct (isSettled _); cbn; lia. Qed.

Lemma fold_scheduleReset_nextTimer d l :
  forall w, nextTimer w <= nextTimer (fold_left (scheduleReset d) l w).
Proof.
  induction l as [|x xs IH]; intros w; cbn; [lia|].
  pose proof (scheduleReset_nextTimer d w x). pose proof (IH (scheduleReset d w x)). lia.
Qed.

Lemma fold_scheduleReset_other d event l :
  event ∉ l.*1 ->
  forall w, wf w ->
    timersFor event (fold_left (scheduleReset d) l w) = timersFor event w.
Proof.
  induction l as [|[k v] xs IH]; cbn; intros Hnin w Hw; [reflexivity|].
  apply not_elem_of_cons in Hnin as [Hne Hnin].
  rewrite IH by (done || by apply wf_scheduleReset).
  apply scheduleReset_other; [done|congruence].
Qed.

(** Whatever else is in the store, after the effect has run a settled
    request has exactly one pending timer, created by this run and due
    [resetDelay] (as [setTimeout] takes it) from now. *)
Lemma fold_scheduleReset_one_timer d event v l :
  NoDup l.*1 -> lookupEntry event l = Some v -> isSettled (status v) = true ->
  forall w, wf w ->
    exists id, nextTimer w <= id
               /\ timersFor event (fold_left (scheduleReset d) l w)
                  = [{| timer_id := id; timer_event := event;
                        timer_due := now w + timeoutDelay d |}].
Proof.
  induction l as [|[k x] xs IH]; cbn; intros Hnd Hl Hs w Hw; [discriminate|].
  apply NoDup_cons in Hnd as [Hnin Hnd].
  destruct (String.eqb_spec k event) as [->|Hk].
  - injection Hl as ->. exists (nextTimer w). split; [lia|].
    rewrite fold_scheduleReset_other by (done || by apply wf_scheduleReset).
    by apply scheduleReset_self.
  - destruct (IH Hnd Hl Hs (scheduleReset d w (k, x)) (wf_scheduleReset d w _ Hw))
      as (id & Hid & E).
    exists id. rewrite scheduleReset_now in E. split; [|exact E].
    pose proof (scheduleReset_nextTimer d w (k, x)). lia.
Qed.

(** The effect leaves the timers of an unsettled request as they are. *)
Lemma fold_scheduleReset_keeps d event v l :
  NoDup l.*1 -> lookupEntry event l = Some v -> isSettled (status v) = false ->
  forall w, wf w ->
    timersFor event (fold_left (scheduleReset d) l w) = timersFor event w.
Proof.
  induction l as [|[k x] xs IH]; cbn; intros Hnd Hl Hs w Hw; [discriminate|].
  apply NoDup_cons in Hnd as [Hnin Hnd].
  destruct (String.eqb_spec k event) as [->|Hk].
  - injection Hl as ->.
    assert (E : scheduleReset d w (event, v) = w)
      by (unfold scheduleReset; cbn [snd]; by rewrite Hs).
    rewrite E. by apply fold_scheduleReset_other.
  - rewrite IH by (done || by apply wf_scheduleReset).
    by apply scheduleReset_other.
Qed.

(** After a task that leaves [event] settled, the scheduler's run of the
    effect leaves exactly one timer pending for it. *)
Lemma flushEffects_one_timer d event entity w :
  wf w -> dirty w = true ->
  lookupEntry event (requests (state w)) = Some entity ->
  isSettled (status entity) = true ->
  exists id, nextTimer w <= id
             /\ timersFor event (flushEffects d w)
                = [{| timer_id := id; timer_event := event;
                      timer_due := now w + timeoutDelay d |}].
Proof.
  intros Hw Hd Hl Hs. rewrite flushEffects_run by (done || apply Hw).
  exact (fold_scheduleReset_one_timer d event entity _ (proj1 Hw) Hl Hs
           (setDirty false w) (wf_setDirty false w Hw)).
Qed.

Lemma timer_older w t : wf w -> t ∈ timers w -> timer_id t < nextTimer w.
Proof.
  intros (_ & Ht & _ & Hlt & _) Hin. rewrite Forall_forall in Ht.
  apply (Hlt (timer_event t)). by apply Ht.
Qed.

Lemma requestsEffect_nextTimer d w : nextTimer w <= nextTimer (requestsEffect d w).
Proof. apply fold_scheduleReset_nextTimer. Qed.

Lemma flushEffects_nextTimer d w : nextTimer w <= nextTimer (flushEffects d w).
Proof.
  unfold flushEffects. destruct (effectRegistered w && dirty w); [|lia].
  apply (requestsEffect_nextTimer d (setDirty false w)).
Qed.

Lemma runTimers_nextTimer fuel d limit :
  forall w w', runTimers fuel d limit w = Some w' -> nextTimer w <= nextTimer w'.
Proof.
  induction fuel as [|fuel IH]; intros w w'; cbn.
  - destruct (nextDue limit (timers w)); [discriminate|]. intros [= <-]. lia.
  - destruct (nextDue limit (timers w)) as [t|]; [|intros [= <-]; lia].
    intros H. apply IH in H.
    pose proof (flushEffects_nextTimer d (fireTimer t w)) as H'.
    cbn in H'. lia.
Qed.

Lemma elapse_clock fuel d dt w w' :
  elapse fuel d dt w = Some w' ->
  now w' = (now w + dt)%Z /\ nextTimer w <= nextTimer w'.
Proof.
  unfold elapse. destruct (runTimers fuel d (now w + dt) w) as [w1|] eqn:E; [|discriminate].
  intros [= <-]. split; [reflexivity|]. cbn.
  exact (runTimers_nextTimer fuel d _ w w1 E).
Qed.

Lemma now_perform w call : now (perform w call) = now w.
Proof. by destruct call. Qed.

Lemma now_calls calls : forall w, now (fold_left perform calls w) = now w.
Proof.
  induction calls as [|c cs IH]; intros w; cbn; [done|]. by rewrite IH, now_perform.
Qed.

Lemma now_task d calls w : now (task d calls w) = now w.
Proof. unfold task. by rewrite flushEffects_now, now_calls. Qed.

(** A delay that [setTimeout] takes as it is. *)
Lemma timeoutDelay_in_range (d : Z) : (0 <= d <= 2147483647)%Z -> timeoutDelay d = d.
Proof.
  intros H. unfold timeoutDelay, toInt32.
  rewrite Z.mod_small by lia. lia.
Qed.

Lemma timeoutDelay_nonneg (d : Z) : (0 <= timeoutDelay d)%Z.
Proof. unfold timeoutDelay. lia. Qed.

(** *** A settle and the run of the effect that follows it *)

Lemma lookupEntry_settled event st result w :
  plain result ->
  lookupEntry event (requests (state (markResolved event st result w)))
  = Some (settledEntity (if status_eqb st fulfilled then fulfilled else rejected) result).
Proof.
  intros Hp. rewrite state_markResolved, requests_settledState_plain by done.
  apply lookupEntry_setEntry_eq.
Qed.

Lemma isSettled_settledEntity st result :
  isSettled (status (settledEntity (if status_eqb st fulfilled then fulfilled else rejected)
                       result)) = true.
Proof. cbn. by destruct (status_eqb st fulfilled). Qed.

Lemma settle_one_timer d event st result w :
  wf w -> plain result ->
  exists id, nextTimer w <= id
             /\ timersFor event (flushEffects d (markResolved event st result w))
                = [{| timer_id := id; timer_event := event;
                      timer_due := now w + timeoutDelay d |}].
Proof.
  intros Hw Hp.
  exact (flushEffects_one_timer d event _ (markResolved event st result w)
           (wf_markResolved event st result w Hw) eq_refl
           (lookupEntry_settled event st result w Hp)
           (isSettled_settledEntity st result)).
Qed.

Lemma quiet_markResolved event st result w :
  plain result -> quiet event w -> quiet event (markResolved event st result w).
Proof.
  intros Hp [Hev Hq]. split; [exact Hev|].
  rewrite state_markResolved, requests_settledState_plain by done.
  by apply quietOthers_setEntry.
Qed.

Lemma quiet_markPending event w : quiet event w -> quiet event (markPending event w).
Proof.
  intros [Hev Hq]. split; [exact Hev|].
  rewrite state_markPending. cbn. by apply quietOthers_setEntry.
Qed.

(** On a store where only [event] is in play, a settle followed by the run
    of the effect leaves the settled state and one timer. *)
Lemma settle_quiet d event st result w :
  wf w -> quiet event w -> plain result ->
  flushEffects d (markResolved event st result w) =
  {| state := settledState event st result (state w);
     eventTimeouts := <[event := nextTimer w]> (eventTimeouts w);
     timers := [resetTimer d event w];
     nextTimer := S (nextTimer w);
     now := now w;
     effectRegistered := true;
     dirty := false |}.
Proof.
  intros Hw Hq Hp.
  rewrite (flushEffects_settled d event _ (markResolved event st result w)
             (wf_markResolved event st result w Hw)
             (quiet_markResolved event st result w Hp Hq) eq_refl
             (lookupEntry_settled event st result w Hp)
             (isSettled_settledEntity st result)).
  by rewrite state_markResolved.
Qed.

(** On such a store a [markPending] followed by the run of the effect
    changes the entity and nothing else. *)
Lemma pending_quiet d event w :
  wf w -> quiet event w ->
  flushEffects d (markPending event w) = setDirty false (markPending event w).
Proof.
  intros Hw Hq.
  apply (flushEffects_unsettled d event
           {| status := pending; message := JNull; data := None |}).
  - by apply wf_markPending.
  - apply (quiet_markPending event w Hq).
  - rewrite state_markPending. cbn. apply lookupEntry_setEntry_eq.
  - reflexivity.
Qed.

(** *** Sample stores *)

Definition loadPayload : IRequestStatusPayload :=
  {| payload_requests := None;
     properties := <["message" := JStr "ok"]> (<["data" := JArr [JNum 1; JNum 2; JNum 3]]> ∅) |}.

(** A payload with [properties] and no [requests] property. *)
Definition payloadOf (properties : gmap string JsValue) : IRequestStatusPayload :=
  {| payload_requests := None; properties := properties |}.

(** Scenario A of the specification: [events = ['LOAD']], default delay. *)
Definition scenarioA : Store := createStore defaultResetDelay ["LOAD"] ∅.

Example scenarioA_pending :
  let s := requestStatus (task defaultResetDelay [MarkPending "LOAD"] scenarioA) "LOAD" in
  snap_status s = pending /\ isPending s = true.
Proof. split; reflexivity. Qed.

Example scenarioA_fulfilled :
  let w := task defaultResetDelay [MarkFulfilled "LOAD" (Some loadPayload)]
             (task defaultResetDelay [MarkPending "LOAD"] scenarioA) in
  snap_status (requestStatus w "LOAD") = fulfilled
  /\ snap_data (requestStatus w "LOAD") = JArr [JNum 1; JNum 2; JNum 3]
  /\ snap_message (requestStatus w "LOAD") = JStr "ok"
  /\ (fun w' => requestStatus w' "LOAD") <$> elapse 1 defaultResetDelay 1500 w
     = Some (idleSnapshot "LOAD").
Proof. vm_compute. repeat split; reflexivity. Qed.

(** A store tracking two events, with [A] settled at time 0 and started
    again at time 100 (its reset timer of time 1500 is still pending), and
    the clock at 1000. *)
Definition twoEvents : option Store :=
  w ← elapse 1 1500 100
        (task 1500 [MarkFulfilled "A" None] (createStore 1500 ["A"; "B"] ∅));
  elapse 1 1500 900 (task 1500 [MarkPending "A"] w).

Lemma wf_scenarioA : wf scenarioA.
Proof. apply wf_createStore. Qed.

Lemma quiet_scenarioA : quiet "LOAD" scenarioA.
Proof.
  split; cbn.
  - intros t Ht. by apply elem_of_nil in Ht.
  - intros k v Hin Hne. apply list_elem_of_singleton in Hin. congruence.
Qed.

Lemma nullish_truthy (v : JsValue) : truthy v = true -> nullish v JNull = v.
Proof. by destruct v. Qed.

Lemma snapshot_settled event st result :
  _getRequestSnapshot event (ownEntity (settledEntity st result)) =
  {| snap_event := event;
     snap_data := if truthy (payloadProp result "data")
                  then payloadProp result "data" else JNull;
     snap_status := st;
     snap_message := if truthy (payloadProp result "message")
                     then payloadProp result "message" else JNull;
     isPending := status_eqb st pending;
     isDisabled := status_eqb st pending;
     isRejected := status_eqb st rejected;
     isFulfilled := status_eqb st fulfilled;
     isIdle := status_eqb st idle |}.
Proof.
  unfold _getRequestSnapshot, settledEntity. cbn -[payloadProp]. f_equal.
  - destruct (truthy (payloadProp result "data")) eqn:E; cbn -[payloadProp];
      [by apply nullish_truthy|done].
  - unfold orElse. destruct (truthy (payloadProp result "message")) eqn:E;
      [by rewrite E|done].
Qed.

Lemma requestStatus_state w w' event :
  state w = state w' -> requestStatus w event = requestStatus w' event.
Proof. unfold requestStatus. by intros ->. Qed.

(** The store a settle of [event] leaves when only [event] is in play: what
    the snapshot shows until the timer is due, and when it is. *)
Lemma settled_lifetime d event st result fuel w :
  wf w -> quiet event w -> plain result ->
  (forall dt, (0 <= dt < timeoutDelay d)%Z ->
     elapse fuel d dt (flushEffects d (markResolved event st result w))
     = Some (setNow (now w + dt) (flushEffects d (markResolved event st result w))))
  /\ (fun w' => requestStatus w' event) <$>
       elapse (S fuel) d (timeoutDelay d) (flushEffects d (markResolved event st result w))
     = Some (idleSnapshot event).
Proof.
  intros Hw Hq Hp.
  assert (E := settle_quiet d event st result w Hw Hq Hp).
  assert (Hw2 : wf (flushEffects d (markResolved event st result w)))
    by by apply wf_flushEffects, wf_markResolved.
  set (w2 := flushEffects d (markResolved event st result w)) in *.
  assert (Ht : timers w2 = [resetTimer d event w]) by by rewrite E.
  assert (Hn : now w2 = now w) by by rewrite E.
  split.
  - intros dt Hdt. rewrite (elapse_not_due fuel d dt w2 _ Ht); [by rewrite Hn|].
    unfold resetTimer. cbn [timer_due]. rewrite Hn. lia.
  - rewrite (elapse_fires fuel d (timeoutDelay d) w2 _ Hw2 Ht).
    + cbn. unfold requestStatus. cbn.
      by rewrite (readEntry_own _ _ _ (lookupEntry_setEntry_eq _ _ _)).
    + rewrite E. cbn [state timer_event resetTimer].
      rewrite requests_settledState_plain by done.
      apply quietOthers_setEntry. apply Hq.
    + unfold resetTimer. cbn [timer_due]. rewrite Hn. lia.
Qed.

(** *** The claims *)

(** C2 (amended): [markPending] then [markFulfilled] with a payload that
    has no [requests] property, in one task or in two, leave a snapshot with
    [isFulfilled = true], [isPending = false], [data] equal to the supplied
    data when that is truthy and [null] otherwise, [message] equal to the
    supplied message when that is truthy (a non-empty string) and [null]
    otherwise.  On a well-formed store the run of the effect that follows
    the settle leaves exactly one reset timer pending for the event, due
    after the delay [setTimeout] makes of [resetDelay] ([resetDelay] itself
    between 0 and 2147483647).  Where only this event is in play (no other
    request settled, no timer of another event pending) the snapshot stays
    as it is while less than that delay has elapsed, and once it has elapsed
    with no further call the snapshot is the idle one: status ['idle'],
    [isIdle = true], message [null], data [null]. *)
Theorem markPending_markFulfilled_lifecycle (d : Z) (event : string)
    (result : option IRequestStatusPayload) (fuel : nat) (w w' : Store) :
  plain result ->
  w' = task d [MarkPending event; MarkFulfilled event result] w
  \/ w' = task d [MarkFulfilled event result] (task d [MarkPending event] w) ->
  requestStatus w' event =
    {| snap_event := event;
       snap_data := if truthy (payloadProp result "data")
                    then payloadProp result "data" else JNull;
       snap_status := fulfilled;
       snap_message :=
         if truthy (payloadProp result "message")
         then payloadProp result "message" else JNull;
       isPending := false; isDisabled := false; isRejected := false;
       isFulfilled := true; isIdle := false |}
  /\ (wf w ->
      exists id,
        timersFor event w' =
        [{| timer_id := id; timer_event := event; timer_due := now w + timeoutDelay d |}])
  /\ (wf w -> quiet event w ->
      (forall dt, (0 <= dt < timeoutDelay d)%Z ->
         (fun w'' => requestStatus w'' event) <$> elapse fuel d dt w' =
         Some (requestStatus w' event))
      /\ (fun w'' => requestStatus w'' event) <$> elapse (S fuel) d (timeoutDelay d) w' =
         Some (idleSnapshot event))
  /\ ((0 <= d <= 2147483647)%Z -> timeoutDelay d = d).
Proof.
  intros Hp Hw'.
  assert (Hform : exists w1,
             w' = flushEffects d (markResolved event fulfilled result w1)
             /\ now w1 = now w
             /\ (wf w -> wf w1) /\ (wf w -> quiet event w -> quiet event w1)).
  { destruct Hw' as [-> | ->].
    - exists (markPending event w). split; [reflexivity|]. split; [reflexivity|].
      split; [apply wf_markPending|]. intros _. apply quiet_markPending.
    - exists (task d [MarkPending event] w). split; [reflexivity|].
      split; [apply now_task|]. split; [apply wf_task|].
      intros Hw Hq. unfold task. cbn [fold_left perform].
      rewrite pending_quiet by done. by apply quiet_markPending. }
  destruct Hform as (w1 & -> & Hnow & Hwf1 & Hq1).
  split; [|split; [|split]].
  - erewrite requestStatus_entity.
    + apply (snapshot_settled event fulfilled result).
    + rewrite flushEffects_keeps_state. by apply (lookupEntry_settled event fulfilled result w1).
  - intros Hw.
    destruct (settle_one_timer d event fulfilled result w1 (Hwf1 Hw) Hp) as (id & _ & E).
    exists id. by rewrite E, Hnow.
  - intros Hw Hq.
    destruct (settled_lifetime d event fulfilled result fuel w1 (Hwf1 Hw) (Hq1 Hw Hq) Hp)
      as [Hbefore Hafter].
    split; [|exact Hafter].
    intros dt Hdt. by rewrite (Hbefore dt Hdt).
  - apply timeoutDelay_in_range.
Qed.

Lemma markPending_markFulfilled_lifecycle_witness :
  wf scenarioA /\ quiet "LOAD" scenarioA
  /\ (fun w' => requestStatus w' "LOAD") <$>
       elapse 1 1500 (timeoutDelay 1500)
         (task 1500 [MarkFulfilled "LOAD" (Some loadPayload)]
            (task 1500 [MarkPending "LOAD"] scenarioA)) =
     Some (idleSnapshot "LOAD").
Proof.
  split; [exact wf_scenarioA|]. split; [exact quiet_scenarioA|].
  exact (proj2 (proj1 (proj2 (proj2
           (markPending_markFulfilled_lifecycle 1500 "LOAD" (Some loadPayload) 0 scenarioA
              _ eq_refl (or_intror eq_refl))))
           wf_scenarioA quiet_scenarioA)).
Defined.

(** C2 as stated fails twice over.  A falsy data payload (here the number 0)
    is not stored, so the snapshot shows [null] for it.  And with a second
    event in play the reset does not come [resetDelay] after the settle:
    on [twoEvents] the timer left over for [A] fires at 1500, the effect
    re-runs and moves the reset of [B] from 2500 to 3000. *)
Lemma markPending_markFulfilled_lifecycle_fails :
  snap_data
    (requestStatus
       (task 1500
          [MarkPending "LOAD";
           MarkFulfilled "LOAD"
             (Some (payloadOf (<["message" := JStr "ok"]> (<["data" := JNum 0]> ∅))))]
          scenarioA) "LOAD") <> JNum 0
  /\ (w ← twoEvents;
      (fun w' => (now w', isIdle (requestStatus w' "B"), snap_status (requestStatus w' "B"))) <$>
        elapse 3 1500 1500
          (task 1500 [MarkFulfilled "B" (Some loadPayload)]
             (task 1500 [MarkPending "B"] w)))
     = Some (2500%Z, false, fulfilled).
Proof. split; [vm_compute; discriminate|vm_compute; reflexivity]. Qed.

(** C3 (amended): [markPending(event)] replaces the entity of [event] by
    [{ status: 'pending', message: null }]: the status is pending, the
    message is null and the entity carries no [data] any more, whatever it
    held before.  The entities of the other events and the fields of the
    store are left as they were, and the run of the effect that follows the
    call changes nothing of this. *)
Theorem markPending_replaces_entity (d : Z) (event : string) (w : Store) :
  lookupEntry event (requests (state (markPending event w))) =
    Some {| status := pending; message := JNull; data := None |}
  /\ requestStatus (markPending event w) event =
     {| snap_event := event; snap_data := JNull; snap_status := pending;
        snap_message := JNull; isPending := true; isDisabled := true;
        isRejected := false; isFulfilled := false; isIdle := false |}
  /\ (forall other, other <> event ->
        lookupEntry other (requests (state (markPending event w))) =
        lookupEntry other (requests (state w)))
  /\ fields (state (markPending event w)) = fields (state w)
  /\ state (task d [MarkPending event] w) = state (markPending event w)
  /\ requestStatus (task d [MarkPending event] w) event =
     requestStatus (markPending event w) event.
Proof.
  split; [|split; [|split; [|split; [|split]]]].
  - rewrite state_markPending. apply lookupEntry_setEntry_eq.
  - rewrite (requestStatus_entity (markPending event w) event
               {| status := pending; message := JNull; data := None |});
      [reflexivity|].
    rewrite state_markPending. apply lookupEntry_setEntry_eq.
  - intros other Hne. rewrite state_markPending. by apply lookupEntry_setEntry_ne.
  - by rewrite state_markPending.
  - unfold task. by rewrite flushEffects_keeps_state.
  - apply requestStatus_state. unfold task. by rewrite flushEffects_keeps_state.
Qed.

(** C3 as stated fails: a fulfilled request holding data loses it on
    [markPending]. *)
Lemma markPending_drops_data :
  data <$> lookupEntry "LOAD"
    (requests (state (task 1500 [MarkFulfilled "LOAD" (Some loadPayload)] scenarioA)))
    = Some (Some (JArr [JNum 1; JNum 2; JNum 3]))
  /\ data <$> lookupEntry "LOAD"
       (requests (state (task 1500 [MarkPending "LOAD"]
                           (task 1500 [MarkFulfilled "LOAD" (Some loadPayload)] scenarioA))))
     = Some None
  /\ data <$> lookupEntry "LOAD"
       (requests (state (task 1500 [MarkPending "LOAD"]
                           (task 1500 [MarkFulfilled "LOAD" (Some loadPayload)] scenarioA))))
     <> data <$> lookupEntry "LOAD"
          (requests (state (task 1500 [MarkFulfilled "LOAD" (Some loadPayload)] scenarioA))).
Proof. vm_compute. repeat split; discriminate. Qed.

Lemma fields_settledState event st result s k :
  fields (settledState event st result s) !! k =
  match result with
  | Some r =>
      if decide (is_Some (properties r !! k) /\ is_Some (fields s !! k))
      then properties r !! k
      else fields s !! k
  | None => fields s !! k
  end.
Proof.
  unfold settledState. cbn [fields]. destruct result as [r|].
  - rewrite lookup_union, lookup_pick.
    destruct (decide (k ∈ keys (fields s))) as [Hin|Hnin].
    + apply elem_of_keys in Hin. destruct (properties r !! k) as [v|] eqn:E; cbn.
      * rewrite decide_True by (split; [eauto|done]).
        destruct Hin as [x ->]. reflexivity.
      * rewrite decide_False by (intros [[? [=]] _]).
        by destruct (fields s !! k).
    + rewrite decide_False; [by destruct (fields s !! k)|].
      intros [_ H]. apply Hnin. by apply elem_of_keys.
  - by rewrite lookup_union, lookup_empty, (left_id None _).
Qed.

(** C4 (amended): with a payload that has no [requests] property,
    [markFulfilled] and [markRejected] replace the entity of the event by a
    settled one: the status is set accordingly; the stored message is the
    payload's message when that is truthy and [null] otherwise (so [null],
    not the empty string, when the payload omits it); the entity has a
    [data] property exactly when the payload's data is truthy, and no [data]
    at all otherwise (data from an earlier settle is not kept); the other
    events keep their entities.  With a payload that has a [requests]
    property, that record replaces the whole [requests] record of the
    store, the status update included.  In both cases every other payload
    field whose name is a key of the store's state is written into the
    state, the other state fields are kept, all of it is one [patchState]
    call together with the status update, and the run of the effect that
    follows changes nothing of the state. *)
Theorem markResolved_settles (d : Z) (event : string)
    (result : option IRequestStatusPayload) (w : Store) :
  (plain result ->
   lookupEntry event (requests (state (markFulfilled event result w))) =
     Some {| status := fulfilled;
             message := if truthy (payloadProp result "message")
                        then payloadProp result "message" else JNull;
             data := if truthy (payloadProp result "data")
                     then Some (payloadProp result "data") else None |}
   /\ lookupEntry event (requests (state (markRejected event result w))) =
      Some {| status := rejected;
              message := if truthy (payloadProp result "message")
                         then payloadProp result "message" else JNull;
              data := if truthy (payloadProp result "data")
                      then Some (payloadProp result "data") else None |}
   /\ (forall other, other <> event ->
         lookupEntry other (requests (state (markFulfilled event result w))) =
           lookupEntry other (requests (state w))
         /\ lookupEntry other (requests (state (markRejected event result w))) =
            lookupEntry other (requests (state w))))
  /\ (forall entries, payloadRequests result = Some entries ->
        requests (state (markFulfilled event result w)) = fromEntries entries
        /\ requests (state (markRejected event result w)) = fromEntries entries)
  /\ (forall k,
        fields (state (markFulfilled event result w)) !! k =
          match result with
          | Some r =>
              if decide (is_Some (properties r !! k) /\ is_Some (fields (state w) !! k))
              then properties r !! k
              else fields (state w) !! k
          | None => fields (state w) !! k
          end
        /\ fields (state (markRejected event result w)) !! k =
           fields (state (markFulfilled event result w)) !! k)
  /\ state (markFulfilled event result w) =
     patchState (state w)
       [setFulfilled event
          (Some {| payload_requests := None;
                   properties :=
                     <["data" := nullish (payloadProp result "data") JNull]>
                       (<["message" := nullish (payloadProp result "message") (JStr "")]>
                          ∅) |});
        fun _ => normalizedState result (state w)]
  /\ state (markRejected event result w) =
     patchState (state w)
       [setRejected event
          (Some {| payload_requests := None;
                   properties :=
                     <["data" := nullish (payloadProp result "data") JNull]>
                       (<["message" := nullish (payloadProp result "message") (JStr "")]>
                          ∅) |});
        fun _ => normalizedState result (state w)]
  /\ state (task d [MarkFulfilled event result] w) = state (markFulfilled event result w)
  /\ state (task d [MarkRejected event result] w) = state (markRejected event result w).
Proof.
  unfold markFulfilled, markRejected.
  split; [|split; [|split; [|split; [|split; [|split]]]]].
  - intros Hp. split; [|split].
    + by rewrite (lookupEntry_settled event fulfilled result w Hp).
    + by rewrite (lookupEntry_settled event rejected result w Hp).
    + intros other Hne.
      rewrite !state_markResolved, !requests_settledState_plain by done.
      split; by apply lookupEntry_setEntry_ne.
  - intros entries He. rewrite !state_markResolved. unfold settledState.
    cbn [requests]. by rewrite He.
  - intros k. rewrite !state_markResolved, !fields_settledState. done.
  - reflexivity.
  - reflexivity.
  - unfold task. by rewrite flushEffects_keeps_state.
  - unfold task. by rewrite flushEffects_keeps_state.
Qed.

(** C4 as stated fails: with the message left out of the payload the stored
    message is [null], not the empty string; and a settle without data
    leaves the entity without the data an earlier settle had stored. *)
Lemma markFulfilled_message_defaults_to_null :
  message <$> lookupEntry "LOAD"
    (requests (state (task 1500 [MarkFulfilled "LOAD" (Some (payloadOf ∅))] scenarioA)))
    = Some JNull
  /\ message <$> lookupEntry "LOAD"
       (requests (state (task 1500 [MarkFulfilled "LOAD" (Some (payloadOf ∅))] scenarioA)))
     <> Some (JStr "")
  /\ data <$> lookupEntry "LOAD"
       (requests (state (task 1500 [MarkRejected "LOAD" None]
                           (task 1500 [MarkFulfilled "LOAD" (Some loadPayload)] scenarioA))))
     = Some None.
Proof. vm_compute. repeat split; discriminate. Qed.

(** C5 (amended): on any well-formed store, two [markFulfilled] calls for
    one event with payloads that have no [requests] property, in two tasks
    less than the reset delay apart, leave exactly one auto-reset timer
    pending for that event: the timer of the first call is no longer pending,
    the pending one is newer and due one delay after the second call; two
    such calls in one task leave one timer as well.  The delay is what
    [setTimeout] makes of [resetDelay] ([resetDelay] itself between 0 and
    2147483647).  When only this event is in play (no other request settled,
    no timer of another event pending), that timer is the only one there is,
    the request is still fulfilled at any time before its due time (so also
    one delay after the first call), and it is idle once the delay has
    elapsed since the second call. *)
Theorem markFulfilled_twice_one_timer (d dt : Z) (event : string)
    (r1 r2 : option IRequestStatusPayload) (fuel : nat) (w : Store) :
  wf w -> plain r1 -> plain r2 -> (0 <= dt < timeoutDelay d)%Z ->
  (forall w1, elapse fuel d dt (task d [MarkFulfilled event r1] w) = Some w1 ->
     exists id1 id2,
       timersFor event (task d [MarkFulfilled event r1] w) =
         [{| timer_id := id1; timer_event := event;
             timer_due := now w + timeoutDelay d |}]
       /\ timersFor event (task d [MarkFulfilled event r2] w1) =
          [{| timer_id := id2; timer_event := event;
              timer_due := (now w + dt) + timeoutDelay d |}]
       /\ id1 < id2)
  /\ (exists id,
        timersFor event (task d [MarkFulfilled event r1; MarkFulfilled event r2] w) =
        [{| timer_id := id; timer_event := event; timer_due := now w + timeoutDelay d |}])
  /\ (quiet event w ->
      timers (task d [MarkFulfilled event r1] w) =
        [{| timer_id := nextTimer w; timer_event := event;
            timer_due := now w + timeoutDelay d |}]
      /\ elapse fuel d dt (task d [MarkFulfilled event r1] w) =
         Some (setNow (now w + dt) (task d [MarkFulfilled event r1] w))
      /\ timers (task d [MarkFulfilled event r2]
                   (setNow (now w + dt) (task d [MarkFulfilled event r1] w))) =
         [{| timer_id := S (nextTimer w); timer_event := event;
             timer_due := (now w + dt) + timeoutDelay d |}]
      /\ (forall dt', (0 <= dt' < timeoutDelay d)%Z ->
            (fun w' => isFulfilled (requestStatus w' event)) <$>
              elapse fuel d dt'
                (task d [MarkFulfilled event r2]
                   (setNow (now w + dt) (task d [MarkFulfilled event r1] w))) = Some true)
      /\ (fun w' => requestStatus w' event) <$>
           elapse (S fuel) d (timeoutDelay d)
             (task d [MarkFulfilled event r2]
                (setNow (now w + dt) (task d [MarkFulfilled event r1] w))) =
         Some (idleSnapshot event))
  /\ ((0 <= d <= 2147483647)%Z -> timeoutDelay d = d).
Proof.
  intros Hw Hp1 Hp2 Hdt. unfold task. cbn [fold_left perform]. unfold markFulfilled.
  assert (Hw1 : wf (flushEffects d (markResolved event fulfilled r1 w)))
    by by apply wf_flushEffects, wf_markResolved.
  split; [|split; [|split; [|apply timeoutDelay_in_range]]].
  { intros w1 He.
    destruct (settle_one_timer d event fulfilled r1 w Hw Hp1) as (id1 & _ & E1).
    destruct (elapse_clock _ _ _ _ _ He) as [Hnow Hnext].
    destruct (settle_one_timer d event fulfilled r2 w1 (wf_elapse _ _ _ _ _ Hw1 He) Hp2)
      as (id2 & Hid2 & E2).
    exists id1, id2. rewrite E1, E2, Hnow, flushEffects_now.
    split; [reflexivity|]. split; [reflexivity|].
    assert (Hin : {| timer_id := id1; timer_event := event;
                     timer_due := now w + timeoutDelay d |}
                  ∈ timers (flushEffects d (markResolved event fulfilled r1 w))).
    { assert (H : {| timer_id := id1; timer_event := event;
                     timer_due := now w + timeoutDelay d |}
                  ∈ timersFor event (flushEffects d (markResolved event fulfilled r1 w)))
        by (rewrite E1; apply list_elem_of_here).
      unfold timersFor in H. by apply list_elem_of_filter in H as [_ H]. }
    apply (timer_older _ _ Hw1) in Hin. cbn [timer_id] in Hin. lia. }
  { destruct (settle_one_timer d event fulfilled r2 (markResolved event fulfilled r1 w)
                (wf_markResolved event fulfilled r1 w Hw) Hp2) as (id & _ & E).
    exists id. exact E. }
  intros Hq.
  assert (E1 := settle_quiet d event fulfilled r1 w Hw Hq Hp1).
  set (w1 := flushEffects d (markResolved event fulfilled r1 w)) in *.
  assert (Ht1 : timers w1 = [resetTimer d event w]) by by rewrite E1.
  assert (Hn1 : now w1 = now w) by by rewrite E1.
  assert (Hnt1 : nextTimer w1 = S (nextTimer w)) by by rewrite E1.
  assert (Hq1 : quiet event w1).
  { split.
    - rewrite Ht1. intros t Hin. by apply list_elem_of_singleton in Hin as ->.
    - rewrite E1. cbn [state]. rewrite requests_settledState_plain by done.
      apply quietOthers_setEntry. apply Hq. }
  set (w1' := setNow (now w + dt) w1).
  assert (Hw1' : wf w1') by exact Hw1.
  assert (Hq1' : quiet event w1') by exact Hq1.
  assert (E2 := settle_quiet d event fulfilled r2 w1' Hw1' Hq1' Hp2).
  destruct (settled_lifetime d event fulfilled r2 fuel w1' Hw1' Hq1' Hp2)
    as [Hbefore Hafter].
  set (w2 := flushEffects d (markResolved event fulfilled r2 w1')) in *.
  assert (Hl2 : lookupEntry event (requests (state w2)) =
                Some (settledEntity fulfilled r2)).
  { unfold w2. rewrite flushEffects_keeps_state.
    apply (lookupEntry_settled event fulfilled r2 w1' Hp2). }
  split; [|split; [|split; [|split]]].
  - exact Ht1.
  - rewrite (elapse_not_due fuel d dt w1 _ Ht1).
    + by rewrite Hn1.
    + unfold resetTimer. cbn [timer_due]. rewrite Hn1. lia.
  - rewrite E2. cbn [timers]. unfold resetTimer. cbn [nextTimer now w1' setNow].
    by rewrite Hnt1.
  - intros dt' Hdt'. rewrite (Hbefore dt' Hdt').
    unfold fmap, option_fmap, option_map. f_equal.
    rewrite (requestStatus_state (setNow (now w1' + dt') w2) w2 event eq_refl).
    rewrite (requestStatus_entity _ event _ Hl2). reflexivity.
  - exact Hafter.
Qed.

Lemma markFulfilled_twice_one_timer_witness :
  wf scenarioA /\ quiet "LOAD" scenarioA /\ (0 <= 1000 < timeoutDelay 1500)%Z
  /\ timers (task 1500 [MarkFulfilled "LOAD" None]
               (setNow (now scenarioA + 1000)
                  (task 1500 [MarkFulfilled "LOAD" (Some loadPayload)] scenarioA))) =
     [{| timer_id := 1; timer_event := "LOAD"; timer_due := 1000 + timeoutDelay 1500 |}].
Proof.
  split; [exact wf_scenarioA|]. split; [exact quiet_scenarioA|].
  split; [vm_compute; split; [discriminate|reflexivity]|].
  exact (proj1 (proj2 (proj2
           (proj1 (proj2 (proj2
              (markFulfilled_twice_one_timer 1500 1000 "LOAD" (Some loadPayload) None 0
                 scenarioA wf_scenarioA eq_refl eq_refl
                 ltac:(vm_compute; split; [discriminate|reflexivity]))))
              quiet_scenarioA)))).
Defined.

(** C5 as stated fails when another event is in play: on [twoEvents] the two
    calls for [B] come at 1000 and 1200, the timer left over for [A] fires
    at 1500, the effect re-runs and moves the reset of [B] from 2700 to
    3000; at 2700 the request is still fulfilled. *)
Lemma markFulfilled_twice_reset_postponed :
  (w ← twoEvents;
   w1 ← elapse 1 1500 200 (task 1500 [MarkFulfilled "B" None] w);
   (fun w' => (now w', isIdle (requestStatus w' "B"), timer_due <$> timers w')) <$>
     elapse 3 1500 1500 (task 1500 [MarkFulfilled "B" None] w1))
  = Some (2700%Z, false, [3000%Z]).
Proof. vm_compute. reflexivity. Qed.

End RequestStatus.

(* ===================================================================== *)
(** ** Reset to the initial state ([withResetState]) *)
(* ===================================================================== *)

Module ResetState.
Import Js.

(** The store: its state source and the [initialState] variable the
    feature's methods close over. *)
Record Store : Type := {
  state : gmap string JsValue;
  initialState : gmap string JsValue
}.

(** Right after construction: [let initialState = Object.create(null)]. *)
Definition newStore (s0 : gmap string JsValue) : Store :=
  {| state := s0; initialState := ∅ |}.

(** [patchState(store, partial)] of @ngrx/signals: every key of [partial]
    that is a slice of the state is set to its value in [partial]; a key the
    state does not have is skipped (with a warning in development mode), so
    the state keeps the keys it was declared with. *)
Definition patchState (partial : gmap string JsValue) (w : Store) : Store :=
  {| state := pick partial (keys (state w)) ∪ state w; initialState := initialState w |}.

(** [getStateSource(store)] on a store that carries the state-source
    marker: [getState(store)], the whole state. *)
Definition getStateSource (w : Store) : gmap string JsValue := state w.

Definition _setInitialState (st : gmap string JsValue) (w : Store) : Store :=
  {| state := state w; initialState := st |}.

Definition onInit (w : Store) : Store := _setInitialState (getStateSource w) w.

(** [patchState(store, overrideState ?? initialState)] *)
Definition resetState (overrideState : option (gmap string JsValue)) (w : Store) : Store :=
  patchState (default (initialState w) overrideState) w.

(** The keys the type [TStore] leaves out: [`_${string}`]. *)
Definition isInternal (k : string) : bool :=
  match k with
  | String c _ => Ascii.eqb c "_"%char
  | EmptyString => false
  end.

(** A store after [onInit] and a sequence of patches. *)
Definition patched (s0 : gmap string JsValue) (patches : list (gmap string JsValue)) : Store :=
  fold_left (fun w p => patchState p w) patches (onInit (newStore s0)).

(** The platform store with a title next to its internal menu. *)
Definition platformState : gmap string JsValue :=
  <["_menuItems" := JArr []]> (<["title" := JStr "home"]> ∅).

Lemma initialState_patched s0 patches : initialState (patched s0 patches) = s0.
Proof.
  unfold patched.
  assert (G : forall w, initialState (fold_left (fun w p => patchState p w) patches w)
                        = initialState w).
  { induction patches as [|p ps IH]; intros w; cbn; [reflexivity|]. by rewrite IH. }
  by rewrite G.
Qed.

(** A patch changes the value of the slices it names and of nothing else. *)
Lemma lookup_patchState partial w k :
  state (patchState partial w) !! k =
  match state w !! k with
  | Some v => Some (default v (partial !! k))
  | None => None
  end.
Proof.
  unfold patchState. cbn [state]. rewrite lookup_union, lookup_pick.
  destruct (state w !! k) as [v|] eqn:E.
  - rewrite decide_True by (apply elem_of_keys; eauto).
    by destruct (partial !! k).
  - rewrite decide_False; [done|]. rewrite elem_of_keys, E. by intros [? ?].
Qed.

Lemma patches_keep_keys patches k :
  forall w, is_Some (state (fold_left (fun w p => patchState p w) patches w) !! k)
            <-> is_Some (state w !! k).
Proof.
  induction patches as [|p ps IH]; intros w; cbn [fold_left]; [done|].
  rewrite IH, lookup_patchState. destruct (state w !! k); [|done].
  split; eauto.
Qed.

Lemma patched_keys s0 patches k :
  is_Some (state (patched s0 patches) !! k) <-> is_Some (s0 !! k).
Proof. unfold patched. by rewrite patches_keep_keys. Qed.

(** C6 (amended): after [onInit] on a state [S0] and any sequence of
    patches, [resetState()] puts every field of [S0] back to its value in
    [S0], the fields with the internal prefix (underscore) included: the
    snapshot taken at [onInit] is the whole state.  Only fields that [S0]
    does not have are left as they are. *)
Theorem resetState_restores_captured_state (s0 : gmap string JsValue)
    (patches : list (gmap string JsValue)) (k : string) :
  (forall v, s0 !! k = Some v ->
     state (resetState None (patched s0 patches)) !! k = Some v)
  /\ (s0 !! k = None ->
      state (resetState None (patched s0 patches)) !! k = state (patched s0 patches) !! k)
  /\ initialState (resetState None (patched s0 patches)) = s0.
Proof.
  unfold resetState. cbn [default]. rewrite lookup_patchState, initialState_patched.
  pose proof (patched_keys s0 patches k) as Hk.
  split; [|split].
  - intros v Hv. destruct (proj2 Hk (ex_intro _ v Hv)) as [v' ->]. by rewrite Hv.
  - intros Hn. destruct (state (patched s0 patches) !! k) as [v'|] eqn:E; [|done].
    by rewrite Hn.
  - cbn. apply initialState_patched.
Qed.

Lemma resetState_restores_captured_state_witness :
  platformState !! "_menuItems" = Some (JArr [])
  /\ state (resetState None (patched platformState [{["_menuItems" := JArr [JNum 7]]}]))
       !! "_menuItems" = Some (JArr []).
Proof.
  split; [reflexivity|].
  exact (proj1 (resetState_restores_captured_state platformState
                  [{["_menuItems" := JArr [JNum 7]]}] "_menuItems") (JArr []) eq_refl).
Defined.

(** C6 as stated fails: the internal field [_menuItems] is not left
    untouched, the reset overwrites what a patch had put there. *)
Lemma resetState_touches_internal_fields :
  isInternal "_menuItems" = true
  /\ state (patched platformState [{["_menuItems" := JArr [JNum 7]]}]) !! "_menuItems"
     = Some (JArr [JNum 7])
  /\ state (resetState None (patched platformState [{["_menuItems" := JArr [JNum 7]]}]))
       !! "_menuItems"
     <> state (patched platformState [{["_menuItems" := JArr [JNum 7]]}]) !! "_menuItems".
Proof. vm_compute. repeat split; discriminate. Qed.

End ResetState.

(* ===================================================================== *)
(** ** Persistence and cross-tab broadcast ([withStorage]) *)
(* ===================================================================== *)

Module Storage.
Import Js.

(** A thrown value. *)
Definition Err : Type := string.

(** How a call into fallible code ends. *)
Inductive Completion (A : Type) : Type :=
| Returned (a : A)
| Thrown (e : Err).
Arguments Returned {A} a.
Arguments Thrown {A} e.

Section Feature.

(** The state behind the [Storage] object the [storage] factory returns. *)
Context {Backend : Type}.

Record IStorageBroadcast : Type := {
  channelKey : option string;
  onChange : option (option (gmap string JsValue) -> Completion unit)
}.

(** [IStorageOptions] after normalisation.  [storage] is given by its two
    operations; each of them, like [serialize] and [deserialize], may throw.
    The [exception] callback is represented by what it receives (the
    [reported] log of the store below). *)
Record IStorageOptions : Type := {
  include : list string;
  exclude : list string;
  getItem : Backend -> string -> Completion (option string);
  setItem : Backend -> string -> string -> Completion Backend;
  broadcast : option IStorageBroadcast;
  deserialize : string -> Completion (option (gmap string JsValue));
  shouldStore : gmap string JsValue -> bool;
  serialize : gmap string JsValue -> Completion string
}.

(** What the host gives: the platform and the [BroadcastChannel]
    constructor, which may throw. *)
Record Env : Type := {
  isPlatformServer : bool;
  newBroadcastChannel : string -> Completion unit
}.

(** The store and what it has done to the outside world so far. *)
Record Store : Type := {
  state : gmap string JsValue;
  backend : Backend;
  broadcastStream : bool;        (* the channel variable is not null *)
  posted : list string;          (* messages posted on the channel *)
  reported : list Err;           (* errors handed to [exception] *)
  effectRegistered : bool;       (* the persist effect exists *)
  dirty : bool                   (* a state signal changed since it last ran *)
}.

(** *** State and exceptions threaded through the calls *)

Definition M (A : Type) : Type := Store -> Store * Completion A.

Definition ret {A} (a : A) : M A := fun w => (w, Returned a).

Definition bind {A B} (m : M A) (k : A -> M B) : M B := fun w =>
  match m w with
  | (w', Returned a) => k a w'
  | (w', Thrown e) => (w', Thrown e)
  end.

Definition lift {A} (c : Completion A) : M A := fun w => (w, c).

(** [try { body } catch (error) { handler(error) }] *)
Definition tryCatch {A} (body : M A) (handler : Err -> M A) : M A := fun w =>
  match body w with
  | (w', Thrown e) => handler e w'
  | r => r
  end.

Notation "'let*' x ':=' m 'in' k" := (bind m (fun x => k))
  (at level 10, x name, m at level 100, k at level 200).
Notation "m1 >> m2" := (bind m1 (fun _ => m2))
  (at level 61, left associativity).

(** [exception(error)] *)
Definition exception (e : Err) : M unit := fun w =>
  ({| state := state w; backend := backend w; broadcastStream := broadcastStream w;
      posted := posted w; reported := reported w ++ [e];
      effectRegistered := effectRegistered w; dirty := dirty w |}, Returned tt).

(** [storage().getItem(key)] *)
Definition storageGetItem (options : IStorageOptions) (key : string) : M (option string) :=
  fun w => (w, getItem options (backend w) key).

(** [storage().setItem(key, value)] *)
Definition storageSetItem (options : IStorageOptions) (key value : string) : M unit :=
  fun w =>
    match setItem options (backend w) key value with
    | Returned b =>
        ({| state := state w; backend := b; broadcastStream := broadcastStream w;
            posted := posted w; reported := reported w;
            effectRegistered := effectRegistered w; dirty := dirty w |}, Returned tt)
    | Thrown e => (w, Thrown e)
    end.

(** [broadcastStream?.postMessage(value)] *)
Definition postMessage (value : string) : M unit := fun w =>
  (if broadcastStream w then
     {| state := state w; backend := backend w; broadcastStream := true;
        posted := posted w ++ [value]; reported := reported w;
        effectRegistered := effectRegistered w; dirty := dirty w |}
   else w, Returned tt).

(** Does writing [partial] change a state signal?  A signal is written only
    with a value that is not identical to its current one. *)
Definition changes (partial st : gmap string JsValue) : bool :=
  existsb (fun kv => match st !! kv.1 with
                     | Some old => negb (strictEquals old kv.2)
                     | None => true
                     end) (map_to_list partial).

(** [patchState(store, partial)] *)
Definition patchState (partial : gmap string JsValue) : M unit := fun w =>
  ({| state := partial ∪ state w; backend := backend w;
      broadcastStream := broadcastStream w; posted := posted w; reported := reported w;
      effectRegistered := effectRegistered w;
      dirty := dirty w || changes partial (state w) |}, Returned tt).

(** lodash [isEmpty] on [string | null] *)
Definition isEmptyString (v : option string) : bool :=
  match v with
  | None => true
  | Some s => String.eqb s ""
  end.

(** *** The feature *)

Definition _sanitizeAndUpdateState (st : option (gmap string JsValue)) : M unit :=
  match st with
  | None => ret tt
  | Some s => fun w =>
      let stateSource := state w in
      let sanitizedState := pick s (keys stateSource) in
      if negb (isEmpty sanitizedState) then patchState sanitizedState w
      else ret tt w
  end.

Definition resolvePersistedState (key : string) (options : IStorageOptions)
  : M (option (gmap string JsValue)) :=
  tryCatch
    (let* persistedValue := storageGetItem options key in
     if isEmptyString persistedValue then ret None
     else lift (deserialize options (default "" persistedValue)))
    (fun error => exception error >> ret None).

Definition _rehydratePersistedState (key : string) (options : IStorageOptions) : M unit :=
  let* persistedState := resolvePersistedState key options in
  _sanitizeAndUpdateState persistedState.

(** [broadcast?.onChange?.(deserializedValue)] *)
Definition notifyChange (options : IStorageOptions) (st : option (gmap string JsValue))
  : M unit :=
  match broadcast options with
  | Some {| onChange := Some callback |} => lift (callback st)
  | _ => ret tt
  end.

(** The [onmessage] listener of the channel, for [event.data]. *)
Definition onmessage (key : string) (options : IStorageOptions) (serializedValue : string)
  : M unit :=
  if isEmptyString (Some serializedValue) then ret tt
  else
    tryCatch
      (let* deserializedValue := lift (deserialize options serializedValue) in
       _sanitizeAndUpdateState deserializedValue >>
       notifyChange options deserializedValue >>
       storageSetItem options key serializedValue)
      (fun error => exception error).

(** [kebabCase(applicationConfig.name)] for the name ['Angular 21']. *)
Definition applicationName : string := "angular-21".

(** [_setupBroadcastListener]: the result says whether a channel came back
    (it is [null] otherwise). *)
Definition _setupBroadcastListener (env : Env) (key : string) (options : IStorageOptions)
  : M bool :=
  match broadcast options with
  | None => ret false
  | Some b =>
      tryCatch
        (let channelNamespace := applicationName ++ "-channel-" ++ key in
         let channelIdentifier := default channelNamespace (channelKey b) in
         lift (newBroadcastChannel env channelIdentifier) >> ret true)
        (fun error => exception error >> ret false)
  end.

(** The fields to persist: [include] wins when it is not empty. *)
Definition persistableState (options : IStorageOptions) (currentState : gmap string JsValue)
  : gmap string JsValue :=
  match include options with
  | [] => omit currentState (exclude options)
  | _ => pick currentState (include options)
  end.

(** The body of the effect registered in [onInit]. *)
Definition persistEffect (key : string) (options : IStorageOptions) : M unit := fun w =>
  let currentState := state w in
  if negb (shouldStore options currentState) then ret tt w
  else
    tryCatch
      (let* serializedValue := lift (serialize options (persistableState options currentState)) in
       postMessage serializedValue >>
       storageSetItem options key serializedValue)
      (fun error => exception error) w.

Definition setBroadcastStream (b : bool) : M unit := fun w =>
  ({| state := state w; backend := backend w; broadcastStream := b;
      posted := posted w; reported := reported w;
      effectRegistered := effectRegistered w; dirty := dirty w |}, Returned tt).

(** [effect(() => ...)]: a new effect is due for its first run. *)
Definition registerEffect : M unit := fun w =>
  ({| state := state w; backend := backend w; broadcastStream := broadcastStream w;
      posted := posted w; reported := reported w;
      effectRegistered := true; dirty := true |}, Returned tt).

Definition onInit (env : Env) (key : string) (options : IStorageOptions) : M unit :=
  if isPlatformServer env then ret tt
  else
    _rehydratePersistedState key options >>
    (let* channel := _setupBroadcastListener env key options in
     setBroadcastStream channel) >>
    registerEffect.

Definition onDestroy : M unit := setBroadcastStream false.

(** The reactive scheduler: the effect runs again when a state signal it
    read has changed. *)
Definition flushEffects (key : string) (options : IStorageOptions) : M unit := fun w =>
  if effectRegistered w && dirty w then
    persistEffect key options
      {| state := state w; backend := backend w; broadcastStream := broadcastStream w;
         posted := posted w; reported := reported w;
         effectRegistered := effectRegistered w; dirty := false |}
  else ret tt w.

(** A message arrives on the channel: the listener runs, then the scheduler. *)
Definition deliver (key : string) (options : IStorageOptions) (serializedValue : string)
  : M unit :=
  onmessage key options serializedValue >> flushEffects key options.

(** *** No exception leaves the feature *)

(** A computation that always completes normally. *)
Definition returns {A} (m : M A) : Prop :=
  forall w, exists a, (m w).2 = Returned a.

Lemma returns_ret {A} (a : A) : returns (ret a).
Proof. intros w. by exists a. Qed.

Lemma returns_bind {A B} (m : M A) (k : A -> M B) :
  returns m -> (forall a, returns (k a)) -> returns (bind m k).
Proof.
  intros Hm Hk w. unfold bind. destruct (Hm w) as [a Ha].
  destruct (m w) as [w' c]. cbn in Ha. subst c. apply Hk.
Qed.

(** Whatever the body does, a [try] whose handler completes normally does. *)
Lemma returns_tryCatch {A} (body : M A) (handler : Err -> M A) :
  (forall e, returns (handler e)) -> returns (tryCatch body handler).
Proof.
  intros Hh w. unfold tryCatch. destruct (body w) as [w' [a|e]]; [by exists a|apply Hh].
Qed.

Lemma returns_exception e : returns (exception e).
Proof. intros w. by exists tt. Qed.

Lemma returns_setBroadcastStream b : returns (setBroadcastStream b).
Proof. intros w. by exists tt. Qed.

Lemma returns_registerEffect : returns registerEffect.
Proof. intros w. by exists tt. Qed.

Lemma returns__sanitizeAndUpdateState st : returns (_sanitizeAndUpdateState st).
Proof.
  destruct st as [s|]; [|apply returns_ret]. intros w. cbn.
  destruct (negb (isEmpty (pick s (keys (state w))))); by exists tt.
Qed.

Lemma returns_resolvePersistedState key options :
  returns (resolvePersistedState key options).
Proof.
  apply returns_tryCatch. intros e.
  apply returns_bind; [apply returns_exception|intros _; apply returns_ret].
Qed.

Lemma returns__rehydratePersistedState key options :
  returns (_rehydratePersistedState key options).
Proof.
  apply returns_bind; [apply returns_resolvePersistedState|].
  apply returns__sanitizeAndUpdateState.
Qed.

Lemma returns_onmessage key options serializedValue :
  returns (onmessage key options serializedValue).
Proof.
  unfold onmessage. destruct (isEmptyString (Some serializedValue)); [apply returns_ret|].
  apply returns_tryCatch, returns_exception.
Qed.

Lemma returns_persistEffect key options : returns (persistEffect key options).
Proof.
  intros w. unfold persistEffect.
  destruct (negb (shouldStore options (state w))); [by exists tt|].
  apply returns_tryCatch, returns_exception.
Qed.

Lemma returns_flushEffects key options : returns (flushEffects key options).
Proof.
  intros w. unfold flushEffects. destruct (effectRegistered w && dirty w); [|by exists tt].
  apply returns_persistEffect.
Qed.

Lemma returns__setupBroadcastListener env key options :
  returns (_setupBroadcastListener env key options).
Proof.
  unfold _setupBroadcastListener. destruct (broadcast options) as [b|]; [|apply returns_ret].
  apply returns_tryCatch. intros e.
  apply returns_bind; [apply returns_exception|intros _; apply returns_ret].
Qed.

Lemma returns_onInit env key options : returns (onInit env key options).
Proof.
  unfold onInit. destruct (isPlatformServer env); [apply returns_ret|].
  apply returns_bind; [|intros _; apply returns_registerEffect].
  apply returns_bind; [apply returns__rehydratePersistedState|intros _].
  apply returns_bind; [apply returns__setupBroadcastListener|].
  intros b. apply returns_setBroadcastStream.
Qed.

Lemma returns_deliver key options serializedValue :
  returns (deliver key options serializedValue).
Proof.
  apply returns_bind; [apply returns_onmessage|intros _; apply returns_flushEffects].
Qed.

Lemma returns_unit (m : M unit) w : returns m -> (m w).2 = Returned tt.
Proof. intros H. destruct (H w) as [[] ->]. reflexivity. Qed.

Ltac run_feature :=
  unfold deliver, flushEffects, onInit, onDestroy, persistEffect, onmessage,
    _setupBroadcastListener, _rehydratePersistedState, resolvePersistedState,
    _sanitizeAndUpdateState, registerEffect, setBroadcastStream, patchState,
    postMessage, storageSetItem, storageGetItem, exception, tryCatch, bind, lift, ret.

(** *** Where a failure comes from *)

(** [storage] or [deserialize] throws [e] during the rehydration. *)
Definition rehydrateThrows (key : string) (options : IStorageOptions) (w : Store) (e : Err)
  : Prop :=
  getItem options (backend w) key = Thrown e
  \/ exists v, getItem options (backend w) key = Returned (Some v) /\ v <> ""
               /\ deserialize options v = Thrown e.

(** [serialize] or [storage] throws [e] in a run of the persist effect. *)
Definition persistThrows (key : string) (options : IStorageOptions) (w : Store) (e : Err)
  : Prop :=
  shouldStore options (state w) = true
  /\ (serialize options (persistableState options (state w)) = Thrown e
      \/ exists v, serialize options (persistableState options (state w)) = Returned v
                   /\ setItem options (backend w) key v = Thrown e).

(** The [onChange] callback, when there is one, completes normally. *)
Definition notifies (options : IStorageOptions) (st : option (gmap string JsValue)) : Prop :=
  match broadcast options with
  | Some {| onChange := Some callback |} => callback st = Returned tt
  | _ => True
  end.

(** [deserialize] or [storage] throws [e] while a message is received. *)
Definition receiveThrows (key : string) (options : IStorageOptions) (msg : string)
    (w : Store) (e : Err) : Prop :=
  msg <> ""
  /\ (deserialize options msg = Thrown e
      \/ exists st, deserialize options msg = Returned st /\ notifies options st
                    /\ setItem options (backend w) key msg = Thrown e).

(** The [BroadcastChannel] constructor throws [e]. *)
Definition setupThrows (env : Env) (key : string) (options : IStorageOptions) (e : Err)
  : Prop :=
  exists b, broadcast options = Some b
            /\ newBroadcastChannel env
                 (default (applicationName ++ "-channel-" ++ key) (channelKey b)) = Thrown e.

Lemma isEmptyString_false v : v <> "" -> isEmptyString (Some v) = false.
Proof. intros H. cbn. by apply String.eqb_neq. Qed.

Lemma sanitize_backend st w :
  backend (_sanitizeAndUpdateState st w).1 = backend w
  /\ reported (_sanitizeAndUpdateState st w).1 = reported w
  /\ posted (_sanitizeAndUpdateState st w).1 = posted w
  /\ broadcastStream (_sanitizeAndUpdateState st w).1 = broadcastStream w
  /\ effectRegistered (_sanitizeAndUpdateState st w).1 = effectRegistered w.
Proof.
  destruct st as [s|]; cbn; [|done].
  by destruct (negb (isEmpty (pick s (keys (state w))))).
Qed.

Lemma notifyChange_ok options st w :
  notifies options st -> notifyChange options st w = (w, Returned tt).
Proof.
  unfold notifies, notifyChange. destruct (broadcast options) as [[ck [cb|]]|]; try done.
  unfold lift. by intros ->.
Qed.

Lemma notifyChange_store options st w :
  (notifyChange options st w).1 = w.
Proof.
  unfold notifyChange. by destruct (broadcast options) as [[ck [cb|]]|].
Qed.

Lemma rehydrate_failure key options w e :
  rehydrateThrows key options w e ->
  state (_rehydratePersistedState key options w).1 = state w
  /\ reported (_rehydratePersistedState key options w).1 = (reported w ++ [e])%list.
Proof.
  intros [H|(v & Hg & Hv & Hd)]; run_feature.
  - rewrite H. done.
  - rewrite Hg, (isEmptyString_false v Hv).
    change (default "" (Some v)) with v. rewrite Hd. done.
Qed.

Lemma persist_failure key options w e :
  persistThrows key options w e ->
  state (persistEffect key options w).1 = state w
  /\ reported (persistEffect key options w).1 = (reported w ++ [e])%list.
Proof.
  intros [Hs [H|(v & Hv & Hset)]]; run_feature; rewrite Hs; cbn [negb].
  - rewrite H. done.
  - rewrite Hv. destruct (broadcastStream w); cbn; rewrite Hset; done.
Qed.

Lemma receive_failure key options msg w e :
  receiveThrows key options msg w e ->
  reported (onmessage key options msg w).1 = (reported w ++ [e])%list
  /\ (deserialize options msg = Thrown e -> state (onmessage key options msg w).1 = state w).
Proof.
  intros [Hne [H|(st & Hd & Hn & Hset)]].
  - unfold onmessage. rewrite (isEmptyString_false msg Hne).
    unfold tryCatch, bind, lift, exception. rewrite H. done.
  - unfold onmessage. rewrite (isEmptyString_false msg Hne).
    unfold tryCatch, bind, lift. rewrite Hd.
    destruct (sanitize_backend st w) as (Hb & Hr & _).
    pose proof (returns_unit _ w (returns__sanitizeAndUpdateState st)) as Hret.
    destruct (_sanitizeAndUpdateState st w) as [w1 c]. cbn in Hb, Hr, Hret. subst c.
    rewrite (notifyChange_ok options st w1 Hn). unfold storageSetItem. rewrite Hb, Hset. unfold exception. cbn.
    split; [by rewrite Hr|]. intros Hd'. congruence.
Qed.

Lemma setup_failure env key options w e :
  setupThrows env key options e ->
  (_setupBroadcastListener env key options w).2 = Returned false
  /\ reported (_setupBroadcastListener env key options w).1 = (reported w ++ [e])%list.
Proof.
  intros (b & Hb & Hnew). run_feature. rewrite Hb, Hnew. done.
Qed.

(** *** The claims *)

(** C8: whatever [serialize], [deserialize], the storage backend and the
    [BroadcastChannel] constructor do, no operation of the feature ends with
    an exception: [onInit] (rehydrate, broadcast setup, effect registration),
    a run of the persist effect and the receipt of a message all complete
    normally.  An error thrown by one of those functions is handed to the
    [exception] callback, and a failed rehydration leaves the state of the
    store as it was. *)
Theorem storage_failures_are_reported_not_thrown (env : Env) (key : string)
    (options : IStorageOptions) (w : Store) (e : Err) :
  ((onInit env key options w).2 = Returned tt
   /\ (_rehydratePersistedState key options w).2 = Returned tt
   /\ (exists channel, (_setupBroadcastListener env key options w).2 = Returned channel)
   /\ (persistEffect key options w).2 = Returned tt
   /\ (flushEffects key options w).2 = Returned tt
   /\ (forall msg, (onmessage key options msg w).2 = Returned tt
                   /\ (deliver key options msg w).2 = Returned tt))
  /\ (rehydrateThrows key options w e ->
      state (_rehydratePersistedState key options w).1 = state w
      /\ reported (_rehydratePersistedState key options w).1 = (reported w ++ [e])%list)
  /\ (persistThrows key options w e ->
      state (persistEffect key options w).1 = state w
      /\ reported (persistEffect key options w).1 = (reported w ++ [e])%list)
  /\ (forall msg, receiveThrows key options msg w e ->
      reported (onmessage key options msg w).1 = (reported w ++ [e])%list
      /\ (deserialize options msg = Thrown e ->
          state (onmessage key options msg w).1 = state w))
  /\ (setupThrows env key options e ->
      (_setupBroadcastListener env key options w).2 = Returned false
      /\ reported (_setupBroadcastListener env key options w).1 = (reported w ++ [e])%list).
Proof.
  split; [|split; [|split; [|split]]].
  - split; [apply returns_unit, returns_onInit|].
    split; [apply returns_unit, returns__rehydratePersistedState|].
    split; [apply returns__setupBroadcastListener|].
    split; [apply returns_unit, returns_persistEffect|].
    split; [apply returns_unit, returns_flushEffects|].
    intros msg. split; apply returns_unit; [apply returns_onmessage|apply returns_deliver].
  - apply rehydrate_failure.
  - apply persist_failure.
  - intros msg. apply receive_failure.
  - apply setup_failure.
Qed.

(** What [_sanitizeAndUpdateState] leaves in the state. *)
Lemma sanitize_state (s : gmap string JsValue) w k :
  state (_sanitizeAndUpdateState (Some s) w).1 !! k =
  (pick s (keys (state w)) ∪ state w) !! k.
Proof.
  cbn. destruct (isEmpty (pick s (keys (state w)))) eqn:E; cbn; [|reflexivity].
  apply isEmpty_true in E. rewrite E. by rewrite (left_id ∅ (∪)).
Qed.

(** C7 (amended): a store with a non-empty include-list whose [shouldStore]
    accepts the state persists the projection of its state on that list;
    when the serialized projection is not the empty string, the storage
    hands the written blob back and [deserialize] returns the projection
    for it, a fresh instance of the same store (the same state keys)
    rehydrated from that key has every included field equal to the persisted
    one, and every other field at its own initial value. *)
Theorem rehydrate_restores_included_fields (key : string) (options : IStorageOptions)
    (old fresh : Store) (blob : string) (written : Backend) :
  include options <> [] ->
  shouldStore options (state old) = true ->
  serialize options (pick (state old) (include options)) = Returned blob ->
  blob <> "" ->
  setItem options (backend old) key blob = Returned written ->
  getItem options written key = Returned (Some blob) ->
  deserialize options blob = Returned (Some (pick (state old) (include options))) ->
  backend fresh = backend (persistEffect key options old).1 ->
  (forall k, is_Some (state fresh !! k) <-> is_Some (state old !! k)) ->
  backend (persistEffect key options old).1 = written
  /\ (forall k, k ∈ include options ->
        state (_rehydratePersistedState key options fresh).1 !! k = state old !! k)
  /\ (forall k, k ∉ include options ->
        state (_rehydratePersistedState key options fresh).1 !! k = state fresh !! k).
Proof.
  intros Hinc Hshould Hser Hne Hset Hget Hdes Hback Hschema.
  assert (Hw : backend (persistEffect key options old).1 = written).
  { unfold persistEffect, tryCatch, bind, lift, postMessage, storageSetItem, ret.
    rewrite Hshould. cbn [negb]. unfold persistableState.
    destruct (include options) as [|i rest] eqn:Ei; [done|]. rewrite Hser.
    destruct (broadcastStream old); cbn; rewrite Hset; reflexivity. }
  rewrite Hw in Hback. split; [exact Hw|].
  assert (E : forall k,
             state (_rehydratePersistedState key options fresh).1 !! k =
             (pick (pick (state old) (include options)) (keys (state fresh))
                ∪ state fresh) !! k).
  { intros k. unfold _rehydratePersistedState, resolvePersistedState, tryCatch, bind,
      storageGetItem, lift, ret.
    rewrite Hback, Hget, (isEmptyString_false blob Hne).
    change (default "" (Some blob)) with blob. rewrite Hdes.
    apply sanitize_state. }
  split; intros k Hk; rewrite E, lookup_union, !lookup_pick.
  - destruct (decide (k ∈ include options)); [|done].
    destruct (decide (k ∈ keys (state fresh))) as [Hin|Hnin].
    + apply elem_of_keys in Hin. destruct Hin as [x Hx]. rewrite Hx.
      destruct (proj1 (Hschema k) (ex_intro _ x Hx)) as [y Hy]. by rewrite Hy.
    + cbn. destruct (state fresh !! k) as [x|] eqn:Hx.
      * exfalso. apply Hnin. apply elem_of_keys. eauto.
      * destruct (state old !! k) as [y|] eqn:Hy; [|done].
        destruct (proj2 (Hschema k) (ex_intro _ y Hy)) as [x Hx']. congruence.
  - destruct (decide (k ∈ include options)); [done|].
    destruct (decide (k ∈ keys (state fresh))); cbn; by destruct (state fresh !! k).
Qed.

(** *** Receiving a broadcast message *)

(** What the listener leaves behind, seen through the store right after the
    merge: the callback, the storage write and the error report touch neither
    the state nor the channel. *)
Lemma onmessage_view key options msg st w :
  msg <> "" -> deserialize options msg = Returned st ->
  state (onmessage key options msg w).1 = state (_sanitizeAndUpdateState st w).1
  /\ dirty (onmessage key options msg w).1 = dirty (_sanitizeAndUpdateState st w).1
  /\ effectRegistered (onmessage key options msg w).1 = effectRegistered w
  /\ broadcastStream (onmessage key options msg w).1 = broadcastStream w
  /\ posted (onmessage key options msg w).1 = posted w.
Proof.
  intros Hne Hd. unfold onmessage. rewrite (isEmptyString_false msg Hne).
  unfold tryCatch, bind, lift. rewrite Hd.
  destruct (sanitize_backend st w) as (_ & _ & Hp & Hb & He).
  pose proof (returns_unit _ w (returns__sanitizeAndUpdateState st)) as Hret.
  destruct (_sanitizeAndUpdateState st w) as [w1 c]. cbn in Hp, Hb, He, Hret. subst c.
  cbn [fst]. pose proof (notifyChange_store options st w1) as Hn.
  destruct (notifyChange options st w1) as [w2 [[]|e]]; cbn in Hn; subst w2.
  - unfold storageSetItem. destruct (setItem options (backend w1) key msg); cbn; done.
  - cbn. done.
Qed.

Lemma onmessage_posted key options msg w :
  posted (onmessage key options msg w).1 = posted w.
Proof.
  destruct (String.eqb_spec msg "") as [->|Hne]; [reflexivity|].
  destruct (deserialize options msg) as [st|e] eqn:Hd.
  - by apply (onmessage_view key options msg st w).
  - unfold onmessage. rewrite (isEmptyString_false msg Hne).
    unfold tryCatch, bind, lift. by rewrite Hd.
Qed.

Lemma onmessage_dirty_unchanged key options msg w :
  (forall s, deserialize options msg = Returned (Some s) ->
             changes (pick s (keys (state w))) (state w) = false) ->
  dirty (onmessage key options msg w).1 = dirty w
  /\ effectRegistered (onmessage key options msg w).1 = effectRegistered w.
Proof.
  intros Hsame. destruct (String.eqb_spec msg "") as [->|Hne]; [done|].
  destruct (deserialize options msg) as [st|e] eqn:Hd.
  - destruct (onmessage_view key options msg st w Hne Hd) as (_ & -> & -> & _).
    split; [|done]. destruct st as [s|]; [|done]. cbn.
    destruct (negb (isEmpty (pick s (keys (state w))))); [|done].
    cbn. rewrite (Hsame s eq_refl). by rewrite orb_false_r.
  - unfold onmessage. rewrite (isEmptyString_false msg Hne).
    unfold tryCatch, bind, lift. by rewrite Hd.
Qed.

Lemma changes_true (partial st : gmap string JsValue) k v old :
  partial !! k = Some v -> st !! k = Some old -> strictEquals old v = false ->
  changes partial st = true.
Proof.
  intros Hp Hs Hne. unfold changes. apply existsb_exists. exists (k, v). split.
  - apply list_elem_of_In. by apply elem_of_map_to_list.
  - cbn. by rewrite Hs, Hne.
Qed.

Lemma persistEffect_posts key options w blob :
  broadcastStream w = true -> shouldStore options (state w) = true ->
  serialize options (persistableState options (state w)) = Returned blob ->
  posted (persistEffect key options w).1 = (posted w ++ [blob])%list.
Proof.
  intros Hb Hs Hser. unfold persistEffect, tryCatch, bind, lift, postMessage, storageSetItem.
  rewrite Hs, Hser, Hb. cbn.
  destruct (setItem options (backend w) key blob); reflexivity.
Qed.

(** C1 (amended): the listener for an incoming broadcast message posts
    nothing itself and, when nothing throws, re-writes the received blob to
    local storage under the store key.  Its merge, however, goes through
    [patchState], and the persist effect reads the state: when the merge
    writes a value that differs from the current one, the effect runs again
    and (with a channel open, [shouldStore] holding and [serialize]
    succeeding) posts the store's serialized projection on the broadcast
    channel.  Only a message whose merge changes no state field is received
    without anything being posted. *)
Theorem receive_reposts_through_persist_effect (key : string) (options : IStorageOptions)
    (msg : string) (w : Store) :
  posted (onmessage key options msg w).1 = posted w
  /\ (forall st written,
        msg <> "" -> deserialize options msg = Returned st -> notifies options st ->
        setItem options (backend w) key msg = Returned written ->
        backend (onmessage key options msg w).1 = written)
  /\ (forall s k v old blob,
        effectRegistered w = true -> broadcastStream w = true ->
        msg <> "" -> deserialize options msg = Returned (Some s) ->
        s !! k = Some v -> state w !! k = Some old -> strictEquals old v = false ->
        shouldStore options (pick s (keys (state w)) ∪ state w) = true ->
        serialize options
          (persistableState options (pick s (keys (state w)) ∪ state w)) = Returned blob ->
        posted (deliver key options msg w).1 = (posted w ++ [blob])%list)
  /\ (dirty w = false ->
      (forall s, deserialize options msg = Returned (Some s) ->
                 changes (pick s (keys (state w))) (state w) = false) ->
      posted (deliver key options msg w).1 = posted w).
Proof.
  split; [apply onmessage_posted|]. split; [|split].
  - intros st written Hne Hd Hn Hset. unfold onmessage.
    rewrite (isEmptyString_false msg Hne). unfold tryCatch, bind, lift. rewrite Hd.
    destruct (sanitize_backend st w) as (Hb & _).
    pose proof (returns_unit _ w (returns__sanitizeAndUpdateState st)) as Hret.
    destruct (_sanitizeAndUpdateState st w) as [w1 c]. cbn in Hb, Hret. subst c.
    rewrite (notifyChange_ok options st w1 Hn). unfold storageSetItem.
    by rewrite Hb, Hset.
  - intros s k v old blob Heff Hch Hne Hd Hs Hold Hdiff Hshould Hser.
    destruct (onmessage_view key options msg (Some s) w Hne Hd)
      as (Hst & Hdirty & He & Hb & Hp).
    assert (Hpick : pick s (keys (state w)) !! k = Some v).
    { rewrite lookup_pick, decide_True; [done|]. apply elem_of_keys. eauto. }
    assert (Hnonempty : isEmpty (pick s (keys (state w))) = false).
    { apply isEmpty_false. intros E. rewrite E in Hpick. by rewrite lookup_empty in Hpick. }
    cbn in Hst, Hdirty. rewrite Hnonempty in Hst, Hdirty. cbn in Hst, Hdirty.
    rewrite (changes_true _ _ k v old Hpick Hold Hdiff), orb_true_r in Hdirty.
    unfold deliver, bind.
    pose proof (returns_unit _ w (returns_onmessage key options msg)) as Hret.
    destruct (onmessage key options msg w) as [w1 c]. cbn in *. subst c.
    unfold flushEffects. rewrite He, Heff, Hdirty. cbn [andb].
    rewrite (persistEffect_posts key options _ blob);
      cbn [state broadcastStream posted].
    + by rewrite Hp.
    + by rewrite Hb.
    + by rewrite Hst.
    + by rewrite Hst.
  - intros Hclean Hsame.
    destruct (onmessage_dirty_unchanged key options msg w Hsame) as [Hdirty _].
    pose proof (onmessage_posted key options msg w) as Hp.
    unfold deliver, bind.
    pose proof (returns_unit _ w (returns_onmessage key options msg)) as Hret.
    destruct (onmessage key options msg w) as [w1 c]. cbn in *. subst c.
    unfold flushEffects. rewrite Hdirty, Hclean, andb_false_r. exact Hp.
Qed.

End Feature.

Arguments IStorageOptions Backend : clear implicits.
Arguments Store Backend : clear implicits.

(** *** Sample stores *)

(** A storage backend that behaves like [localStorage]. *)
Definition localGetItem (b : gmap string string) (key : string)
  : Completion (option string) := Returned (b !! key).

Definition localSetItem (b : gmap string string) (key value : string)
  : Completion (gmap string string) := Returned (<[key := value]> b).

Fixpoint skip (n : nat) (s : string) : string :=
  match n, s with
  | S n', String _ s' => skip n' s'
  | _, _ => s
  end.

(** The layout store: it persists [platformLayoutMode] only, with a codec
    for that one field, and broadcasts on its own channel. *)
Definition layoutSerialize (st : gmap string JsValue) : Completion string :=
  match st !! "platformLayoutMode" with
  | Some (JStr mode) => Returned ("mode=" ++ mode)
  | _ => Thrown "TypeError"
  end.

Definition layoutDeserialize (value : string) : Completion (option (gmap string JsValue)) :=
  if startsWith value "mode="
  then Returned (Some {["platformLayoutMode" := JStr (skip 5 value)]})
  else Thrown "SyntaxError".

Definition layoutOptions : IStorageOptions (gmap string string) :=
  {| include := ["platformLayoutMode"];
     exclude := [];
     getItem := localGetItem;
     setItem := localSetItem;
     broadcast := Some {| channelKey := Some "ng-layout-channel"; onChange := None |};
     deserialize := layoutDeserialize;
     shouldStore := fun st =>
       negb (strictEquals (default JUndefined (st !! "platformLayoutMode"))
               (JStr "collapsed"));
     serialize := layoutSerialize |}.

Definition layoutStateKey : string := "ng-layout-state".

Definition layoutInitial : gmap string JsValue :=
  <["accessLayoutMode" := JStr "extended"]>
    (<["platformLayoutMode" := JStr "extended"]>
       (<["isNavigationDrawerVisible" := JBool false]> ∅)).

Definition browser : Env :=
  {| isPlatformServer := false; newBroadcastChannel := fun _ => Returned tt |}.

Definition newLayoutStore (b : gmap string string) : Store (gmap string string) :=
  {| state := layoutInitial; backend := b; broadcastStream := false; posted := [];
     reported := []; effectRegistered := false; dirty := false |}.

(** A tab after [onInit] and the first run of the persist effect. *)
Definition layoutTab : Store (gmap string string) :=
  (flushEffects layoutStateKey layoutOptions
     (onInit browser layoutStateKey layoutOptions (newLayoutStore ∅)).1).1.

(** A storage that refuses every access. *)
Definition lockedOptions : IStorageOptions (gmap string string) :=
  {| include := ["platformLayoutMode"];
     exclude := [];
     getItem := fun _ _ => Thrown "SecurityError";
     setItem := fun _ _ _ => Thrown "QuotaExceededError";
     broadcast := None;
     deserialize := layoutDeserialize;
     shouldStore := fun _ => true;
     serialize := layoutSerialize |}.

(** Scenario B of the specification: state [{a:1, b:2}], [include: ['a']],
    and a storage that an external write has set to the blob of [{a:99}]. *)
Definition abDeserialize (value : string) : Completion (option (gmap string JsValue)) :=
  if String.eqb value "a=99" then Returned (Some {["a" := JNum 99]})
  else if String.eqb value "a=1" then Returned (Some {["a" := JNum 1]})
  else Thrown "SyntaxError".

Definition abSerialize (st : gmap string JsValue) : Completion string :=
  match st !! "a" with
  | Some (JNum 1) => Returned "a=1"
  | Some (JNum 99) => Returned "a=99"
  | _ => Thrown "TypeError"
  end.

Definition abOptions : IStorageOptions (gmap string string) :=
  {| include := ["a"]; exclude := [];
     getItem := localGetItem; setItem := localSetItem;
     broadcast := None;
     deserialize := abDeserialize;
     shouldStore := fun _ => true;
     serialize := abSerialize |}.

Definition abStore : Store (gmap string string) :=
  {| state := <["a" := JNum 1]> (<["b" := JNum 2]> ∅);
     backend := {["ab" := "a=99"]};
     broadcastStream := false; posted := []; reported := [];
     effectRegistered := false; dirty := false |}.

Example scenarioB :
  state (_rehydratePersistedState "ab" abOptions abStore).1
  = <["a" := JNum 99]> (<["b" := JNum 2]> ∅).
Proof. vm_compute. reflexivity. Qed.

(** A first instance of the same store, holding [{a:99, b:2}], on an empty
    storage. *)
Definition abWriter : Store (gmap string string) :=
  {| state := <["a" := JNum 99]> (<["b" := JNum 2]> ∅);
     backend := ∅;
     broadcastStream := false; posted := []; reported := [];
     effectRegistered := true; dirty := true |}.

Lemma ab_same_schema k :
  is_Some (state abStore !! k) <-> is_Some (state abWriter !! k).
Proof.
  rewrite <- !elem_of_dom.
  assert (E : dom (state abStore) = dom (state abWriter)) by (vm_compute; reflexivity).
  by rewrite E.
Qed.

Lemma rehydrate_restores_included_fields_witness :
  backend abStore = backend (persistEffect "ab" abOptions abWriter).1
  /\ state (_rehydratePersistedState "ab" abOptions abStore).1 !! "a" = Some (JNum 99)
  /\ state (_rehydratePersistedState "ab" abOptions abStore).1 !! "b" = Some (JNum 2).
Proof.
  assert (Hb : backend abStore = backend (persistEffect "ab" abOptions abWriter).1)
    by (vm_compute; reflexivity).
  pose proof (rehydrate_restores_included_fields "ab" abOptions abWriter abStore
                "a=99" {["ab" := "a=99"]}
                ltac:(discriminate) ltac:(reflexivity)
                ltac:(vm_compute; reflexivity) ltac:(discriminate)
                ltac:(vm_compute; reflexivity) ltac:(vm_compute; reflexivity)
                ltac:(vm_compute; reflexivity) Hb
                ab_same_schema) as (_ & Hin & Hout).
  split; [exact Hb|]. split.
  - rewrite Hin; [vm_compute; reflexivity|]. apply list_elem_of_singleton. reflexivity.
  - rewrite Hout; [vm_compute; reflexivity|]. intros H.
    apply list_elem_of_singleton in H. discriminate.
Defined.

(** A store that persists its one field, a string, as it is: the blob is
    the string, and [deserialize] wraps it again. *)
Definition noteSerialize (st : gmap string JsValue) : Completion string :=
  match st !! "note" with
  | Some (JStr text) => Returned text
  | _ => Thrown "TypeError"
  end.

Definition noteDeserialize (value : string) : Completion (option (gmap string JsValue)) :=
  Returned (Some {["note" := JStr value]}).

Definition noteOptions : IStorageOptions (gmap string string) :=
  {| include := ["note"]; exclude := [];
     getItem := localGetItem; setItem := localSetItem;
     broadcast := None;
     deserialize := noteDeserialize;
     shouldStore := fun _ => true;
     serialize := noteSerialize |}.

Definition noteStore (text : string) (b : gmap string string) : Store (gmap string string) :=
  {| state := {["note" := JStr text]}; backend := b;
     broadcastStream := false; posted := []; reported := [];
     effectRegistered := true; dirty := true |}.

(** The layout store of a tab whose layout is ['collapsed']. *)
Definition collapsedLayoutStore : Store (gmap string string) :=
  {| state := <["platformLayoutMode" := JStr "collapsed"]> layoutInitial;
     backend := ∅; broadcastStream := true; posted := []; reported := [];
     effectRegistered := true; dirty := true |}.

(** C7 as stated fails.  A store persists the note [''] with a codec that
    inverts itself: the blob written is the empty string, which rehydration
    takes for nothing stored, so a fresh instance keeps its own note instead
    of the persisted one.  And the layout store in ['collapsed'] mode, whose
    [shouldStore] rejects that state, writes nothing: a fresh instance comes
    up ['extended']. *)
Lemma rehydrate_skips_empty_blob :
  backend (persistEffect "note" noteOptions (noteStore "" ∅)).1 = {["note" := ""]}
  /\ deserialize noteOptions ""
     = Returned (Some (pick (state (noteStore "" ∅)) (include noteOptions)))
  /\ state (_rehydratePersistedState "note" noteOptions
              (noteStore "draft" (backend (persistEffect "note" noteOptions
                                             (noteStore "" ∅)).1))).1 !! "note"
     = Some (JStr "draft")
  /\ state (noteStore "" ∅) !! "note" = Some (JStr "")
  /\ backend (persistEffect layoutStateKey layoutOptions collapsedLayoutStore).1 = ∅
  /\ state (_rehydratePersistedState layoutStateKey layoutOptions
              (newLayoutStore
                 (backend (persistEffect layoutStateKey layoutOptions
                             collapsedLayoutStore).1))).1 !! "platformLayoutMode"
     = Some (JStr "extended")
  /\ state collapsedLayoutStore !! "platformLayoutMode" = Some (JStr "collapsed").
Proof. vm_compute. repeat split; reflexivity. Qed.

Lemma storage_failures_are_reported_not_thrown_witness :
  rehydrateThrows layoutStateKey lockedOptions (newLayoutStore ∅) "SecurityError"
  /\ (onInit browser layoutStateKey lockedOptions (newLayoutStore ∅)).2 = Returned tt
  /\ state (_rehydratePersistedState layoutStateKey lockedOptions (newLayoutStore ∅)).1
     = layoutInitial
  /\ reported (_rehydratePersistedState layoutStateKey lockedOptions (newLayoutStore ∅)).1
     = ["SecurityError"].
Proof.
  assert (H : rehydrateThrows layoutStateKey lockedOptions (newLayoutStore ∅) "SecurityError")
    by (left; reflexivity).
  pose proof (storage_failures_are_reported_not_thrown browser layoutStateKey lockedOptions
                (newLayoutStore ∅) "SecurityError") as (Hret & Hre & _).
  split; [exact H|]. split; [exact (proj1 Hret)|]. exact (Hre H).
Defined.

Lemma receive_reposts_through_persist_effect_witness :
  effectRegistered layoutTab = true /\ broadcastStream layoutTab = true
  /\ posted (deliver layoutStateKey layoutOptions "mode=compact" layoutTab).1
     = (posted layoutTab ++ ["mode=compact"])%list.
Proof.
  split; [vm_compute; reflexivity|]. split; [vm_compute; reflexivity|].
  exact (proj1 (proj2 (proj2
           (receive_reposts_through_persist_effect layoutStateKey layoutOptions
              "mode=compact" layoutTab)))
           {["platformLayoutMode" := JStr "compact"]} "platformLayoutMode"
           (JStr "compact") (JStr "extended") "mode=compact"
           ltac:(vm_compute; reflexivity) ltac:(vm_compute; reflexivity)
           ltac:(discriminate) ltac:(vm_compute; reflexivity)
           ltac:(vm_compute; reflexivity) ltac:(vm_compute; reflexivity)
           ltac:(vm_compute; reflexivity) ltac:(vm_compute; reflexivity)
           ltac:(vm_compute; reflexivity)).
Defined.

(** C1 as stated fails: a tab whose layout is ['extended'] receives the
    message of a tab that switched to ['compact']; after the merge the
    persist effect runs again and posts on the channel. *)
Lemma receive_triggers_rebroadcast :
  posted layoutTab = ["mode=extended"]
  /\ posted (deliver layoutStateKey layoutOptions "mode=compact" layoutTab).1
     = ["mode=extended"; "mode=compact"]
  /\ posted (deliver layoutStateKey layoutOptions "mode=compact" layoutTab).1
     <> posted layoutTab.
Proof. vm_compute. repeat split; discriminate. Qed.

End Storage.

(* ===================================================================== *)
(** ** Request status: construction, reachable stores, teardown, selector *)
(* ===================================================================== *)

Module RequestLifecycle.
Import Js RequestStatus.

(** [onDestroy]: every recorded timer is cleared, the state is patched with
    [initialState(eventTypes)], the registry is emptied. *)
Definition onDestroy (events : list string) (w : Store) : Store :=
  {| state := patchState (state w)
                [fun _ => {| p_requests := Some (initialState events); p_fields := ∅ |}];
     eventTimeouts := ∅;
     timers := foldr clearTimeout (timers w) (map_to_list (eventTimeouts w)).*2;
     nextTimer := nextTimer w;
     now := now w;
     effectRegistered := effectRegistered w;
     dirty := true |}.

(** The events argument of the selector: one event or an array of events. *)
Inductive TRequestStatusEvents : Type :=
| OneEvent (event : string)
| ManyEvents (events : list string).

(** [normalizeEvents(store, events)]: every selector pairs the event with
    the one store passed in, so the list of events stands for it. *)
Definition normalizeEvents (events : TRequestStatusEvents) : list string :=
  match events with
  | OneEvent e => [e]
  | ManyEvents l => l
  end.

(** The body of the computed signal: the first snapshot that is not idle. *)
Fixpoint firstActive (w : Store) (selectors : list string) : option IRequestSnapshot :=
  match selectors with
  | [] => None
  | event :: rest =>
      if negb (isIdle (requestStatus w event)) then Some (requestStatus w event)
      else firstActive w rest
  end.

(** [selectRequestSnapshot(store, events)]: [None] stands for the [Error]
    thrown when no selector was collected; otherwise the value of the
    computed signal, as a function of the store. *)
Definition selectRequestSnapshot (events : TRequestStatusEvents)
  : option (Store -> IRequestSnapshot) :=
  match normalizeEvents events with
  | [] => None
  | first :: rest =>
      Some (fun w =>
              match firstActive w (first :: rest) with
              | Some snapshot => snapshot
              | None => requestStatus w first
              end)
  end.

(** The stores a program can reach, seen between two tasks: construction,
    tasks of mark calls, time passing. *)
Inductive reachable (d : Z) (events : list string) (fields0 : gmap string JsValue)
  : Store -> Prop :=
| reach_init : reachable d events fields0 (createStore d events fields0)
| reach_task w calls :
    reachable d events fields0 w -> reachable d events fields0 (task d calls w)
| reach_elapse w fuel dt w' :
    reachable d events fields0 w -> elapse fuel d dt w = Some w' ->
    reachable d events fields0 w'.

(** *** The initial record *)

Lemma lookupEntry_fold_idle event events :
  forall acc,
    lookupEntry event (fold_left (fun acc e => setEntry e idleEntity acc) events acc) =
    if decide (event ∈ events) then Some idleEntity else lookupEntry event acc.
Proof.
  induction events as [|e es IH]; intros acc; cbn [fold_left].
  - rewrite decide_False; [done|]. apply not_elem_of_nil.
  - rewrite IH. destruct (decide (event ∈ es)) as [Hin|Hnin].
    + rewrite decide_True; [done|]. by apply list_elem_of_further.
    + destruct (decide (event = e)) as [->|Hne].
      * rewrite decide_True by apply list_elem_of_here. apply lookupEntry_setEntry_eq.
      * rewrite decide_False.
        -- by apply lookupEntry_setEntry_ne.
        -- intros H. apply elem_of_cons in H as [?|?]; contradiction.
Qed.

Lemma lookupEntry_initialState event events :
  lookupEntry event (initialState events) =
  if decide (event ∈ events) then Some idleEntity else None.
Proof. unfold initialState. by rewrite lookupEntry_fold_idle. Qed.

Lemma elem_of_lookupEntry (l : list (string * IRequestEntity)) k v :
  NoDup l.*1 -> (k, v) ∈ l -> lookupEntry k l = Some v.
Proof.
  induction l as [|[k0 v0] xs IH]; cbn; intros Hnd Hin.
  - by apply elem_of_nil in Hin.
  - apply NoDup_cons in Hnd as [Hnin Hnd].
    apply elem_of_cons in Hin as [Hin|Hin].
    + injection Hin as -> ->. by rewrite String.eqb_refl.
    + destruct (String.eqb_spec k0 k) as [->|Hne]; [|by apply IH].
      exfalso. apply Hnin. apply list_elem_of_fmap. by exists (k, v).
Qed.

Lemma initialState_unsettled events k v :
  (k, v) ∈ initialState events -> isSettled (status v) = false.
Proof.
  intros Hin. apply (elem_of_lookupEntry _ _ _ (NoDup_initialState events)) in Hin.
  rewrite lookupEntry_initialState in Hin. by destruct (decide (k ∈ events)); simplify_eq.
Qed.

Lemma keys_initialState events k : k ∈ (initialState events).*1 <-> k ∈ events.
Proof.
  unfold initialState.
  assert (G : forall acc,
             k ∈ (fold_left (fun acc e => setEntry e idleEntity acc) events acc).*1
             <-> k ∈ events \/ k ∈ acc.*1).
  { induction events as [|e es IH]; intros acc; cbn [fold_left].
    - rewrite elem_of_nil. tauto.
    - rewrite IH, setEntry_keys, elem_of_cons. tauto. }
  rewrite G. cbn. rewrite elem_of_nil. tauto.
Qed.

(** What [requestStatus] reads from the initial record. *)
Lemma readEntry_initialState event events :
  readEntry event (initialState events) =
  if decide (event ∈ events) then ownEntity idleEntity
  else if bool_decide (event ∈ objectPrototype) then inheritedMember
       else undefinedEntity.
Proof.
  unfold readEntry. rewrite lookupEntry_initialState.
  by destruct (decide (event ∈ events)).
Qed.

Lemma snapshot_initialState event events :
  (event ∈ events \/ event ∉ objectPrototype ->
   _getRequestSnapshot event (readEntry event (initialState events)) = idleSnapshot event)
  /\ (event ∉ events -> event ∈ objectPrototype ->
      _getRequestSnapshot event (readEntry event (initialState events))
      = inheritedSnapshot event).
Proof.
  rewrite readEntry_initialState. split.
  - intros [Hin|Hnp].
    + by rewrite decide_True.
    + destruct (decide (event ∈ events)); [done|].
      by rewrite bool_decide_eq_false_2.
  - intros Hnin Hp. rewrite decide_False by done.
    by rewrite bool_decide_eq_true_2.
Qed.

Lemma createStore_unfold d events fields0 :
  createStore d events fields0 = setDirty false (onInit (newStore events fields0)).
Proof.
  unfold createStore. rewrite flushEffects_run by reflexivity.
  unfold requestsEffect. apply fold_scheduleReset_unsettled.
  intros k v Hin. by apply (initialState_unsettled events k v).
Qed.

(** X1: a store built for a list of events has exactly one entry per declared
    event, however often the list names it; when the task that built it has
    ended, the effect has run, no timer is pending, and the snapshot of every
    declared event, and of every key that is not a member of
    [Object.prototype], is the idle one.  The name of a member of
    [Object.prototype] that is not a declared event ('constructor',
    'toString', ...) reads the inherited member: its snapshot has the idle
    status and [isIdle = false]. *)
Theorem new_store_is_idle (d : Z) (events : list string)
    (fields0 : gmap string JsValue) (event : string) :
  (event ∈ events \/ event ∉ objectPrototype ->
   requestStatus (createStore d events fields0) event = idleSnapshot event)
  /\ (event ∉ events -> event ∈ objectPrototype ->
      requestStatus (createStore d events fields0) event = inheritedSnapshot event)
  /\ timers (createStore d events fields0) = []
  /\ eventTimeouts (createStore d events fields0) = ∅
  /\ NoDup (requests (state (createStore d events fields0))).*1
  /\ (event ∈ (requests (state (createStore d events fields0))).*1 <-> event ∈ events).
Proof.
  rewrite createStore_unfold. unfold requestStatus.
  cbn [setDirty onInit newStore state requests timers eventTimeouts].
  destruct (snapshot_initialState event events) as [H1 H2].
  split; [exact H1|]. split; [exact H2|].
  split; [reflexivity|]. split; [reflexivity|].
  split; [apply NoDup_initialState|apply keys_initialState].
Qed.

Lemma new_store_is_idle_witness :
  requestStatus scenarioA "LOAD" = idleSnapshot "LOAD"
  /\ requestStatus scenarioA "SAVE" = idleSnapshot "SAVE"
  /\ requestStatus scenarioA "constructor" = inheritedSnapshot "constructor".
Proof.
  split; [|split].
  - apply (proj1 (new_store_is_idle defaultResetDelay ["LOAD"] ∅ "LOAD")).
    left. apply list_elem_of_here.
  - apply (proj1 (new_store_is_idle defaultResetDelay ["LOAD"] ∅ "SAVE")).
    right. apply (bool_decide_eq_false_1 ("SAVE" ∈ objectPrototype)). reflexivity.
  - apply (proj1 (proj2 (new_store_is_idle defaultResetDelay ["LOAD"] ∅ "constructor"))).
    + intros H. apply list_elem_of_singleton in H. discriminate.
    + apply list_elem_of_here.
Defined.

(** *** What every reachable store satisfies *)

(** No event has two pending timers. *)
Definition atMostOne (w : Store) : Prop :=
  forall event, length (timersFor event w) <= 1.

(** A settled request has its reset timer pending. *)
Definition settledHaveTimer (w : Store) : Prop :=
  forall event entity,
    lookupEntry event (requests (state w)) = Some entity ->
    isSettled (status entity) = true ->
    length (timersFor event w) = 1.

Lemma atMostOne_scheduleReset d w entry :
  wf w -> atMostOne w -> atMostOne (scheduleReset d w entry).
Proof.
  intros Hw Hone event. destruct entry as [k v].
  destruct (decide (k = event)) as [->|Hne].
  - destruct (isSettled (status v)) eqn:Hs.
    + by rewrite scheduleReset_self.
    + unfold scheduleReset. cbn [snd]. rewrite Hs. apply Hone.
  - rewrite scheduleReset_other by done. apply Hone.
Qed.

Lemma atMostOne_fold d l :
  forall w, wf w -> atMostOne w -> atMostOne (fold_left (scheduleReset d) l w).
Proof.
  induction l as [|x xs IH]; intros w Hw Hone; cbn; [done|].
  apply IH; [by apply wf_scheduleReset|by apply atMostOne_scheduleReset].
Qed.

Lemma effect_invariants d w :
  wf w -> atMostOne w ->
  wf (requestsEffect d w) /\ atMostOne (requestsEffect d w)
  /\ settledHaveTimer (requestsEffect d w).
Proof.
  intros Hw Hone. split; [by apply wf_fold_scheduleReset|].
  split; [by apply atMostOne_fold|].
  intros event entity Hl Hs. rewrite requestsEffect_state in Hl.
  destruct (fold_scheduleReset_one_timer d event entity (requests (state w))
              (proj1 Hw) Hl Hs w Hw) as (id & _ & E).
  unfold requestsEffect. by rewrite E.
Qed.

Definition invariant (w : Store) : Prop :=
  wf w /\ atMostOne w /\ settledHaveTimer w.

(** The run of the effect that a change of the state has made due
    establishes the invariant. *)
Lemma invariant_flush_dirty d w :
  wf w -> atMostOne w -> dirty w = true -> invariant (flushEffects d w).
Proof.
  intros Hw Hone Hd. rewrite flushEffects_run; [|apply Hw|exact Hd].
  apply effect_invariants; [by apply wf_setDirty|exact Hone].
Qed.

Lemma invariant_flush d w : invariant w -> invariant (flushEffects d w).
Proof.
  intros (Hw & Hone & Hs). destruct (dirty w) eqn:Hd.
  - by apply invariant_flush_dirty.
  - unfold flushEffects. rewrite Hd, andb_false_r. done.
Qed.

Lemma invariant_init d events fields0 : invariant (createStore d events fields0).
Proof.
  apply invariant_flush_dirty; [apply wf_newStore| |reflexivity].
  intros event. cbn. lia.
Qed.

Lemma timers_perform w call : timers (perform w call) = timers w.
Proof. by destruct call. Qed.

Lemma timers_calls calls : forall w, timers (fold_left perform calls w) = timers w.
Proof.
  induction calls as [|c cs IH]; intros w; cbn [fold_left]; [done|].
  by rewrite IH, timers_perform.
Qed.

Lemma dirty_perform w call : dirty (perform w call) = true.
Proof. by destruct call. Qed.

Lemma dirty_calls calls :
  forall w, calls <> [] -> dirty (fold_left perform calls w) = true.
Proof.
  induction calls as [|c cs IH]; intros w Hne; [done|]. cbn [fold_left].
  destruct cs as [|c' cs']; [apply dirty_perform|]. by apply IH.
Qed.

Lemma atMostOne_calls calls w : atMostOne w -> atMostOne (fold_left perform calls w).
Proof.
  intros Hone event. unfold timersFor. rewrite timers_calls. apply Hone.
Qed.

Lemma invariant_task d calls w : invariant w -> invariant (task d calls w).
Proof.
  intros Hi. unfold task. destruct calls as [|c cs].
  - by apply invariant_flush.
  - destruct Hi as (Hw & Hone & _). apply invariant_flush_dirty.
    + by apply wf_calls.
    + by apply atMostOne_calls.
    + by apply dirty_calls.
Qed.

Lemma timersFor_clearTimeout event id w :
  length (filter (fun u => timer_event u = event) (clearTimeout id (timers w)))
  <= length (timersFor event w).
Proof.
  unfold clearTimeout, timersFor.
  induction (timers w) as [|u us IH]; [done|].
  rewrite !filter_cons.
  destruct (decide (timer_id u <> id)), (decide (timer_event u = event));
    rewrite ?filter_cons; repeat case_decide; cbn; try lia; try contradiction.
Qed.

Lemma invariant_fireTimer d t w :
  invariant w -> invariant (flushEffects d (fireTimer t w)).
Proof.
  intros (Hw & Hone & _). apply invariant_flush_dirty.
  - by apply wf_fireTimer.
  - intros event. unfold timersFor. cbn [timers fireTimer].
    pose proof (timersFor_clearTimeout event (timer_id t) w).
    specialize (Hone event). lia.
  - reflexivity.
Qed.

Lemma invariant_runTimers fuel d limit :
  forall w w', invariant w -> runTimers fuel d limit w = Some w' -> invariant w'.
Proof.
  induction fuel as [|fuel IH]; intros w w' Hw; cbn.
  - destruct (nextDue limit (timers w)); [discriminate|]. by intros [= <-].
  - destruct (nextDue limit (timers w)) as [t|]; [|by intros [= <-]].
    apply IH. by apply invariant_fireTimer.
Qed.

Lemma invariant_elapse fuel d dt w w' :
  invariant w -> elapse fuel d dt w = Some w' -> invariant w'.
Proof.
  intros Hw. unfold elapse.
  destruct (runTimers fuel d (now w + dt) w) as [w1|] eqn:E; [|discriminate].
  intros [= <-]. exact (invariant_runTimers _ _ _ _ _ Hw E).
Qed.

(** X2: in every store reachable from construction by tasks of mark calls
    and the passing of time, the keys of [requests] are distinct, every
    pending timer is the one the registry records for its event, no event has
    more than one pending timer, and every fulfilled or rejected request has
    exactly one: a settled request is never left without its reset.  In the
    middle of a task, when calls have been made and the effect has not run
    yet, the first three properties hold as well. *)
Theorem reachable_store_timers (d : Z) (events : list string)
    (fields0 : gmap string JsValue) (w : Store) :
  reachable d events fields0 w ->
  wf w
  /\ (forall event, length (timersFor event w) <= 1)
  /\ (forall event entity,
        lookupEntry event (requests (state w)) = Some entity ->
        isSettled (status entity) = true ->
        length (timersFor event w) = 1)
  /\ (forall calls,
        wf (fold_left perform calls w)
        /\ forall event, length (timersFor event (fold_left perform calls w)) <= 1).
Proof.
  intros H.
  assert (Hi : invariant w).
  { induction H as [|w calls _ IH|w fuel dt w' _ IH He].
    - apply invariant_init.
    - by apply invariant_task.
    - by apply (invariant_elapse fuel d dt w). }
  destruct Hi as (Hw & Hone & Hs).
  split; [exact Hw|]. split; [exact Hone|]. split; [exact Hs|].
  intros calls. split; [by apply wf_calls|by apply atMostOne_calls].
Qed.

Lemma reachable_store_timers_witness :
  reachable 1500 ["LOAD"] ∅ (task 1500 [MarkRejected "LOAD" None] scenarioA)
  /\ length (timersFor "LOAD" (task 1500 [MarkRejected "LOAD" None] scenarioA)) = 1.
Proof.
  assert (H : reachable 1500 ["LOAD"] ∅ (task 1500 [MarkRejected "LOAD" None] scenarioA))
    by (apply reach_task, reach_init).
  split; [exact H|].
  exact (proj1 (proj2 (proj2 (reachable_store_timers 1500 ["LOAD"] ∅ _ H))) "LOAD"
           {| status := rejected; message := JNull; data := None |} eq_refl eq_refl).
Defined.

(** *** [markPending] and the timer of an earlier settle *)

Lemma markPending_keeps_timers d event w :
  wf w -> timersFor event (flushEffects d (markPending event w)) = timersFor event w.
Proof.
  intros Hw. rewrite flushEffects_run; [|apply Hw|reflexivity].
  unfold requestsEffect.
  rewrite (fold_scheduleReset_keeps d event
             {| status := pending; message := JNull; data := None |}).
  - reflexivity.
  - cbn. apply NoDup_setEntry, Hw.
  - cbn. apply lookupEntry_setEntry_eq.
  - reflexivity.
  - apply wf_setDirty. by apply wf_markPending.
Qed.

(** X3: [markPending] does not cancel the reset timer of an earlier settle:
    on any well-formed store the pending timers of the event are the same
    before and after a task that calls it.  On a store where only this event
    is in play (no other request settled, no timer of another event
    pending), with a payload that has no [requests] property: when a request
    fulfilled in one task is started again in a later task, [dt] after the
    settle ([dt] less than the delay), its snapshot is pending, and one
    delay after the settle the old timer sets it to idle, with no settle in
    between; when [markFulfilled] and [markPending] are called in one task,
    the one run of the effect sees the pending request and schedules
    nothing, and where no timer was pending before the request then stays
    pending however much time passes. *)
Theorem markPending_keeps_reset_timer (d dt : Z) (event : string)
    (result : option IRequestStatusPayload) (fuel : nat) (w : Store) :
  wf w ->
  timersFor event (task d [MarkPending event] w) = timersFor event w
  /\ (plain result -> quiet event w -> (0 <= dt < timeoutDelay d)%Z ->
      elapse fuel d dt (task d [MarkFulfilled event result] w) =
        Some (setNow (now w + dt) (task d [MarkFulfilled event result] w))
      /\ snap_status
           (requestStatus
              (task d [MarkPending event]
                 (setNow (now w + dt) (task d [MarkFulfilled event result] w)))
              event) = pending
      /\ (fun w' => requestStatus w' event) <$>
           elapse (S fuel) d (timeoutDelay d - dt)
             (task d [MarkPending event]
                (setNow (now w + dt) (task d [MarkFulfilled event result] w)))
         = Some (idleSnapshot event)
      /\ timers (task d [MarkFulfilled event result; MarkPending event] w) = timers w
      /\ snap_status
           (requestStatus (task d [MarkFulfilled event result; MarkPending event] w) event)
         = pending
      /\ (timers w = [] ->
          forall dt', (0 <= dt')%Z ->
            (fun w' => snap_status (requestStatus w' event)) <$>
              elapse fuel d dt' (task d [MarkFulfilled event result; MarkPending event] w)
            = Some pending)).
Proof.
  intros Hw. unfold task. cbn [fold_left perform]. split.
  - by apply markPending_keeps_timers.
  - intros Hp Hq Hdt. unfold markFulfilled.
    assert (E1 := settle_quiet d event fulfilled result w Hw Hq Hp).
    assert (Hw1 : wf (flushEffects d (markResolved event fulfilled result w)))
      by by apply wf_flushEffects, wf_markResolved.
    set (w1 := flushEffects d (markResolved event fulfilled result w)) in *.
    assert (Ht1 : timers w1 = [resetTimer d event w]) by by rewrite E1.
    assert (Hn1 : now w1 = now w) by by rewrite E1.
    assert (Hq1 : quiet event (setNow (now w + dt) w1)).
    { split.
      - cbn [timers setNow]. rewrite Ht1. intros t Hin.
        by apply list_elem_of_singleton in Hin as ->.
      - rewrite E1. cbn [state setNow]. rewrite requests_settledState_plain by done.
        apply quietOthers_setEntry. apply Hq. }
    assert (Hw1' : wf (setNow (now w + dt) w1)) by exact Hw1.
    assert (E2 := pending_quiet d event _ Hw1' Hq1).
    assert (Hw2 : wf (flushEffects d (markPending event (setNow (now w + dt) w1))))
      by by apply wf_flushEffects, wf_markPending.
    set (w2 := flushEffects d (markPending event (setNow (now w + dt) w1))) in *.
    assert (Ht2 : timers w2 = [resetTimer d event w]) by (rewrite E2; exact Ht1).
    assert (Hn2 : now w2 = (now w + dt)%Z) by by rewrite E2.
    assert (Hl2 : lookupEntry event (requests (state w2)) =
                  Some {| status := pending; message := JNull; data := None |}).
    { rewrite E2. cbn [state setDirty]. rewrite state_markPending. cbn [requests].
      apply lookupEntry_setEntry_eq. }
    assert (Hqm : quiet event (markResolved event fulfilled result w))
      by by apply quiet_markResolved.
    assert (Hwm : wf (markResolved event fulfilled result w)) by by apply wf_markResolved.
    assert (E3 := pending_quiet d event _ Hwm Hqm).
    assert (Hl3 : lookupEntry event
                    (requests (state (flushEffects d
                       (markPending event (markResolved event fulfilled result w))))) =
                  Some {| status := pending; message := JNull; data := None |}).
    { rewrite flushEffects_keeps_state, state_markPending. cbn [requests].
      apply lookupEntry_setEntry_eq. }
    split; [|split; [|split; [|split; [|split]]]].
    + rewrite (elapse_not_due fuel d dt w1 _ Ht1); [by rewrite Hn1|].
      unfold resetTimer. cbn [timer_due]. rewrite Hn1. lia.
    + by rewrite (requestStatus_entity _ event _ Hl2).
    + rewrite (elapse_fires fuel d (timeoutDelay d - dt) w2 _ Hw2 Ht2).
      * cbn. unfold requestStatus. cbn.
        by rewrite (readEntry_own _ _ _ (lookupEntry_setEntry_eq _ _ _)).
      * rewrite E2. cbn [state setDirty timer_event resetTimer].
        rewrite state_markPending. cbn [requests].
        apply quietOthers_setEntry. apply Hq1.
      * unfold resetTimer. cbn [timer_due]. rewrite Hn2. lia.
    + by rewrite E3.
    + by rewrite (requestStatus_entity _ event _ Hl3).
    + intros Hnone dt' Hdt'.
      rewrite elapse_no_timer by (rewrite E3; exact Hnone).
      cbn [fmap option_fmap option_map]. f_equal.
      rewrite (requestStatus_state
                 (setNow (now (flushEffects d
                                 (markPending event (markResolved event fulfilled result w)))
                          + dt')
                    (flushEffects d
                       (markPending event (markResolved event fulfilled result w))))
                 (flushEffects d (markPending event (markResolved event fulfilled result w)))
                 event eq_refl).
      by rewrite (requestStatus_entity _ event _ Hl3).
Qed.

Lemma markPending_keeps_reset_timer_witness :
  wf scenarioA /\ plain None /\ quiet "LOAD" scenarioA /\ (0 <= 400 < timeoutDelay 1500)%Z
  /\ (fun w' => requestStatus w' "LOAD") <$>
       elapse 1 1500 (timeoutDelay 1500 - 400)
         (task 1500 [MarkPending "LOAD"]
            (setNow (now scenarioA + 400) (task 1500 [MarkFulfilled "LOAD" None] scenarioA)))
     = Some (idleSnapshot "LOAD")
  /\ timers (task 1500 [MarkFulfilled "LOAD" None; MarkPending "LOAD"] scenarioA) = [].
Proof.
  split; [exact wf_scenarioA|]. split; [reflexivity|]. split; [exact quiet_scenarioA|].
  split; [vm_compute; split; [discriminate|reflexivity]|].
  pose proof (proj2 (markPending_keeps_reset_timer 1500 400 "LOAD" None 0 scenarioA
                       wf_scenarioA) eq_refl quiet_scenarioA
                ltac:(vm_compute; split; [discriminate|reflexivity])) as H.
  split; [exact (proj1 (proj2 (proj2 H)))|exact (proj1 (proj2 (proj2 (proj2 H))))].
Defined.

(** *** Destruction *)

Lemma elem_of_foldr_clearTimeout t ids :
  forall ts, t ∈ foldr clearTimeout ts ids <-> t ∈ ts /\ timer_id t ∉ ids.
Proof.
  induction ids as [|id ids IH]; intros ts; cbn [foldr].
  - split; [intros H; split; [done|apply not_elem_of_nil]|tauto].
  - unfold clearTimeout at 1. rewrite list_elem_of_filter, IH, not_elem_of_cons. tauto.
Qed.

(** X4: destroying a store in which every pending timer is the recorded one
    (as in every reachable store) leaves no timer behind and an empty
    registry; the snapshot of every declared event, and of every key that is
    not a member of [Object.prototype], reads idle (the name of an inherited
    member that is not a declared event reads that member, with
    [isIdle = false]); the fields other than [requests] are untouched; and a
    run of the effect on the destroyed store schedules nothing. *)
Theorem onDestroy_releases_timers (d : Z) (events : list string) (w : Store) :
  wf w ->
  timers (onDestroy events w) = []
  /\ eventTimeouts (onDestroy events w) = ∅
  /\ (forall event, event ∈ events \/ event ∉ objectPrototype ->
        requestStatus (onDestroy events w) event = idleSnapshot event)
  /\ (forall event, event ∉ events -> event ∈ objectPrototype ->
        requestStatus (onDestroy events w) event = inheritedSnapshot event)
  /\ fields (state (onDestroy events w)) = fields (state w)
  /\ requestsEffect d (onDestroy events w) = onDestroy events w
  /\ timers (flushEffects d (onDestroy events w)) = []
  /\ state (flushEffects d (onDestroy events w)) = state (onDestroy events w).
Proof.
  intros (_ & Ht & _ & _ & Hreg).
  assert (Hts : timers (onDestroy events w) = []).
  { apply elem_of_nil_inv. intros t Hin. cbn [timers onDestroy] in Hin.
    apply elem_of_foldr_clearTimeout in Hin as [Hin Hid].
    rewrite Forall_forall in Ht. apply Hid, list_elem_of_fmap.
    exists (timer_event t, timer_id t). split; [done|].
    apply elem_of_map_to_list. by apply Ht. }
  assert (Heff : forall w', state w' = state (onDestroy events w) ->
                            requestsEffect d w' = w').
  { intros w' Hst. unfold requestsEffect. apply fold_scheduleReset_unsettled.
    rewrite Hst. cbn. intros k v. apply initialState_unsettled. }
  split; [exact Hts|]. split; [reflexivity|].
  split; [|split; [|split; [|split; [|split]]]].
  - intros event. apply (proj1 (snapshot_initialState event events)).
  - intros event. apply (proj2 (snapshot_initialState event events)).
  - cbn. by rewrite (left_id_L ∅ (∪)).
  - by apply Heff.
  - rewrite flushEffects_run; [|exact Hreg|reflexivity].
    rewrite Heff by reflexivity. exact Hts.
  - apply flushEffects_keeps_state.
Qed.

Lemma onDestroy_releases_timers_witness :
  timers (onDestroy ["LOAD"] (task 1500 [MarkFulfilled "LOAD" None] scenarioA)) = []
  /\ timers (task 1500 [MarkFulfilled "LOAD" None] scenarioA) <> [].
Proof.
  split; [|by vm_compute].
  exact (proj1 (onDestroy_releases_timers 1500 ["LOAD"]
                  (task 1500 [MarkFulfilled "LOAD" None] scenarioA)
                  (wf_task 1500 [MarkFulfilled "LOAD" None] scenarioA wf_scenarioA))).
Defined.

(** *** The selector *)

Lemma firstActive_None w l :
  firstActive w l = None <-> forall e, e ∈ l -> isIdle (requestStatus w e) = true.
Proof.
  induction l as [|x xs IH]; cbn [firstActive].
  - split; [intros _ e H; by apply elem_of_nil in H|done].
  - destruct (isIdle (requestStatus w x)) eqn:E; cbn [negb].
    + rewrite IH. split.
      * intros H e Hin. apply elem_of_cons in Hin as [->|Hin]; [done|by apply H].
      * intros H e Hin. apply H. by apply list_elem_of_further.
    + split; [discriminate|]. intros H. specialize (H x (list_elem_of_here _ _)). congruence.
Qed.

Lemma firstActive_first w pre e post :
  (forall x, x ∈ pre -> isIdle (requestStatus w x) = true) ->
  isIdle (requestStatus w e) = false ->
  firstActive w (pre ++ e :: post)%list = Some (requestStatus w e).
Proof.
  induction pre as [|x xs IH]; intros Hpre He; cbn [firstActive app].
  - by rewrite He.
  - rewrite (Hpre x) by apply list_elem_of_here. cbn [negb].
    apply IH; [|done]. intros y Hin. apply Hpre. by apply list_elem_of_further.
Qed.

(** X5: [selectRequestSnapshot] throws exactly when no event is given.
    Otherwise its signal is the snapshot of the first listed event that is
    not idle, whatever comes after it in the list; it is idle exactly when
    every listed event is idle, and it is then the snapshot of the first
    listed event. *)
Theorem selectRequestSnapshot_first_active (events : TRequestStatusEvents) :
  (selectRequestSnapshot events = None <-> normalizeEvents events = [])
  /\ forall select, selectRequestSnapshot events = Some select ->
     forall w,
       (forall pre e post,
          normalizeEvents events = (pre ++ e :: post)%list ->
          (forall x, x ∈ pre -> isIdle (requestStatus w x) = true) ->
          isIdle (requestStatus w e) = false ->
          select w = requestStatus w e)
       /\ (isIdle (select w) = true <->
           forall e, e ∈ normalizeEvents events -> isIdle (requestStatus w e) = true)
       /\ (isIdle (select w) = true ->
           exists first rest, normalizeEvents events = first :: rest
                              /\ select w = requestStatus w first).
Proof.
  unfold selectRequestSnapshot.
  destruct (normalizeEvents events) as [|first rest] eqn:En.
  - split; [done|]. discriminate.
  - split; [split; discriminate|]. intros select Hsel w.
    assert (Hs : select = fun w => match firstActive w (first :: rest) with
                                   | Some snapshot => snapshot
                                   | None => requestStatus w first
                                   end) by congruence.
    subst select. clear Hsel. cbv beta.
    assert (Hsome : forall l s, firstActive w l = Some s -> isIdle s = false).
    { induction l as [|x xs IH]; cbn [firstActive]; intros s; [discriminate|].
      destruct (isIdle (requestStatus w x)) eqn:E; cbn [negb]; [apply IH|].
      by intros [= <-]. }
    split; [|split].
    + intros pre e post Heq Hpre He. rewrite Heq. by rewrite firstActive_first.
    + destruct (firstActive w (first :: rest)) as [s|] eqn:Ef.
      * pose proof (Hsome _ _ Ef) as Hs. split; [congruence|].
        intros Hall. apply (proj2 (firstActive_None w (first :: rest))) in Hall. congruence.
      * pose proof (proj1 (firstActive_None _ _) Ef) as Hall. split; [done|].
        intros _. apply Hall, list_elem_of_here.
    + intros Hidle. exists first, rest. split; [done|].
      destruct (firstActive w (first :: rest)) as [s|] eqn:Ef; [|done].
      pose proof (Hsome _ _ Ef). congruence.
Qed.

Definition loadAndSave : Store :=
  task 1500 [MarkPending "SAVE"] (createStore 1500 ["LOAD"; "SAVE"] ∅).

Lemma selectRequestSnapshot_first_active_witness :
  exists select,
    selectRequestSnapshot (ManyEvents ["LOAD"; "SAVE"]) = Some select
    /\ select loadAndSave = requestStatus loadAndSave "SAVE".
Proof.
  eexists. split; [reflexivity|].
  apply (proj1 (proj2 (selectRequestSnapshot_first_active (ManyEvents ["LOAD"; "SAVE"]))
                  _ eq_refl loadAndSave) ["LOAD"] "SAVE" []).
  - reflexivity.
  - intros x Hx. apply list_elem_of_singleton in Hx as ->. reflexivity.
  - reflexivity.
Defined.

End RequestLifecycle.

(* ===================================================================== *)
(** ** Storage: the state fields and the order of the outside effects *)
(* ===================================================================== *)

Module StorageBehaviour.
Import Js Storage.

Section Behaviour.

Context {Backend : Type}.

Implicit Types (options : IStorageOptions Backend) (w : Store Backend).

Ltac run :=
  unfold deliver, flushEffects, onInit, onDestroy, persistEffect, onmessage,
    _setupBroadcastListener, _rehydratePersistedState, resolvePersistedState,
    registerEffect, setBroadcastStream, postMessage, storageSetItem, storageGetItem,
    exception, tryCatch, bind, lift, ret.

(** The value of field [k] after [_sanitizeAndUpdateState]: a field the
    store has takes the incoming value when there is one; a field the store
    does not have stays absent. *)
Lemma sanitize_lookup (st : option (gmap string JsValue)) w k :
  state (_sanitizeAndUpdateState st w).1 !! k =
  match state w !! k with
  | Some old => Some (default old (st ≫= (.!! k)))
  | None => None
  end.
Proof.
  destruct st as [s|]; [|cbn; by destruct (state w !! k)].
  rewrite sanitize_state, lookup_union, lookup_pick. cbn [mbind option_bind].
  destruct (state w !! k) as [old|] eqn:E.
  - rewrite decide_True by (apply elem_of_keys; eauto).
    by destruct (s !! k).
  - rewrite decide_False; [done|]. rewrite elem_of_keys, E. by intros [? ?].
Qed.

Lemma persistEffect_state key options w :
  state (persistEffect key options w).1 = state w.
Proof.
  run. destruct (negb (shouldStore options (state w))); [done|].
  destruct (serialize options (persistableState options (state w))) as [v|e]; [|done].
  destruct (broadcastStream w); cbn;
    by destruct (setItem options (backend w) key v).
Qed.

Lemma flushEffects_state key options w :
  state (flushEffects key options w).1 = state w.
Proof.
  unfold flushEffects. destruct (effectRegistered w && dirty w); [|done].
  by rewrite persistEffect_state.
Qed.

Lemma onmessage_state key options msg w :
  exists st, state (onmessage key options msg w).1 = state (_sanitizeAndUpdateState st w).1.
Proof.
  destruct (String.eqb_spec msg "") as [->|Hne]; [by exists None|].
  destruct (deserialize options msg) as [st|e] eqn:Hd.
  - exists st. by apply (onmessage_view key options msg st w).
  - exists None. unfold onmessage. rewrite (isEmptyString_false msg Hne).
    unfold tryCatch, bind, lift. by rewrite Hd.
Qed.

Lemma rehydrate_state key options w :
  exists st,
    state (_rehydratePersistedState key options w).1
    = state (_sanitizeAndUpdateState st w).1.
Proof.
  run. destruct (getItem options (backend w) key) as [v|e]; [|by exists None].
  destruct (isEmptyString v); [by exists None|].
  destruct (deserialize options (default "" v)) as [st|e]; [by exists st|by exists None].
Qed.

Lemma setup_store env key options w :
  state (_setupBroadcastListener env key options w).1 = state w
  /\ backend (_setupBroadcastListener env key options w).1 = backend w.
Proof.
  run. destruct (broadcast options) as [b|]; [|done].
  by destruct (newBroadcastChannel env _).
Qed.

Lemma onInit_state env key options w :
  isPlatformServer env = false ->
  state (onInit env key options w).1 = state (_rehydratePersistedState key options w).1.
Proof.
  intros Hs. unfold onInit. rewrite Hs. unfold bind.
  pose proof (returns_unit _ w (returns__rehydratePersistedState key options)) as Hr.
  destruct (_rehydratePersistedState key options w) as [w1 c]. cbn in Hr. subst c.
  destruct (setup_store env key options w1) as [Hst _].
  destruct (returns__setupBroadcastListener env key options w1) as [ch Hch].
  destruct (_setupBroadcastListener env key options w1) as [w2 c]. cbn in Hst, Hch.
  subst c. cbn. exact Hst.
Qed.

(** X6: no operation of the storage feature adds or removes a state field.
    After [onInit] (on any platform), after a run of the persist effect and
    after the receipt of any broadcast message the store has exactly the
    fields it had before: a key of a stored value or of a message that the
    store does not declare is dropped, whatever [deserialize] returns.  The
    persist effect does not write to the state at all. *)
Theorem state_fields_are_fixed (env : Env) (key : string) (options : IStorageOptions Backend)
    (msg : string) (w : Store Backend) (k : string) :
  (is_Some (state (onInit env key options w).1 !! k) <-> is_Some (state w !! k))
  /\ (is_Some (state (onmessage key options msg w).1 !! k) <-> is_Some (state w !! k))
  /\ (is_Some (state (deliver key options msg w).1 !! k) <-> is_Some (state w !! k))
  /\ state (persistEffect key options w).1 = state w
  /\ state (flushEffects key options w).1 = state w.
Proof.
  assert (Hsan : forall st, is_Some (state (_sanitizeAndUpdateState st w).1 !! k)
                            <-> is_Some (state w !! k)).
  { intros st. rewrite sanitize_lookup. destruct (state w !! k); [|done].
    split; eauto. }
  assert (Hmsg : is_Some (state (onmessage key options msg w).1 !! k)
                 <-> is_Some (state w !! k)).
  { destruct (onmessage_state key options msg w) as [st ->]. apply Hsan. }
  split; [|split; [exact Hmsg|split]].
  - destruct (isPlatformServer env) eqn:Hs.
    + unfold onInit. by rewrite Hs.
    + rewrite onInit_state by done.
      destruct (rehydrate_state key options w) as [st ->]. apply Hsan.
  - unfold deliver, bind.
    pose proof (returns_unit _ w (returns_onmessage key options msg)) as Hr.
    destruct (onmessage key options msg w) as [w1 c]. cbn in Hr, Hmsg. subst c.
    by rewrite flushEffects_state.
  - split; [apply persistEffect_state|apply flushEffects_state].
Qed.

(** X7: rehydration does not look at [include], [exclude] or [shouldStore].
    In a browser, with a stored value that [deserialize] turns into an
    object, [onInit] gives every field the store declares the stored value
    when the object has one and leaves it alone otherwise, and this for the
    fields outside the include-list as well.  With nothing stored under the
    key (or the empty string) the state stays as it is and no error is
    reported. *)
Theorem onInit_merges_every_stored_field (env : Env) (key : string)
    (options : IStorageOptions Backend) (w : Store Backend) :
  isPlatformServer env = false ->
  (forall blob s,
     getItem options (backend w) key = Returned (Some blob) -> blob <> "" ->
     deserialize options blob = Returned (Some s) ->
     forall k old, state w !! k = Some old ->
       state (onInit env key options w).1 !! k = Some (default old (s !! k)))
  /\ (getItem options (backend w) key = Returned None
      \/ getItem options (backend w) key = Returned (Some "") ->
      state (onInit env key options w).1 = state w
      /\ reported (_rehydratePersistedState key options w).1 = reported w).
Proof.
  intros Hs. split.
  - intros blob s Hg Hne Hd k old Hk. rewrite onInit_state by done.
    assert (E : (_rehydratePersistedState key options w).1
                = (_sanitizeAndUpdateState (Some s) w).1).
    { unfold _rehydratePersistedState, resolvePersistedState, storageGetItem,
        tryCatch, bind, lift, ret.
      rewrite Hg, (isEmptyString_false blob Hne).
      change (default "" (Some blob)) with blob. by rewrite Hd. }
    rewrite E, sanitize_lookup, Hk. reflexivity.
  - intros Hg. rewrite onInit_state by done.
    unfold _rehydratePersistedState, resolvePersistedState, storageGetItem,
      tryCatch, bind, lift, ret.
    by destruct Hg as [-> | ->].
Qed.

(** X8: the persist effect posts before it stores.  When the channel is
    open and [serialize] succeeds but the storage refuses the write, the
    serialized state has already been posted to the other tabs; the storage
    is as it was and the error is reported. *)
Theorem persistEffect_posts_before_storing (key : string) (options : IStorageOptions Backend)
    (w : Store Backend) (blob : string) (e : Err) :
  shouldStore options (state w) = true ->
  serialize options (persistableState options (state w)) = Returned blob ->
  setItem options (backend w) key blob = Thrown e ->
  broadcastStream w = true ->
  posted (persistEffect key options w).1 = (posted w ++ [blob])%list
  /\ backend (persistEffect key options w).1 = backend w
  /\ reported (persistEffect key options w).1 = (reported w ++ [e])%list.
Proof.
  intros Hs Hser Hset Hb. run. rewrite Hs, Hser, Hb. cbn. rewrite Hset. done.
Qed.

(** X9: the listener merges before it notifies and stores.  When the
    [onChange] callback throws on a received message, the state has already
    taken the received values, the storage is not written, and the error is
    reported. *)
Theorem onmessage_merges_before_notifying (key : string) (options : IStorageOptions Backend)
    (msg : string) (w : Store Backend) (st : option (gmap string JsValue))
    (channel : option string)
    (callback : option (gmap string JsValue) -> Completion unit) (e : Err) :
  msg <> "" ->
  deserialize options msg = Returned st ->
  broadcast options = Some {| channelKey := channel; onChange := Some callback |} ->
  callback st = Thrown e ->
  (forall k old, state w !! k = Some old ->
     state (onmessage key options msg w).1 !! k = Some (default old (st ≫= (.!! k))))
  /\ backend (onmessage key options msg w).1 = backend w
  /\ reported (onmessage key options msg w).1 = (reported w ++ [e])%list.
Proof.
  intros Hne Hd Hb Hcb.
  destruct (onmessage_view key options msg st w Hne Hd) as (Hst & _).
  split.
  - intros k old Hk. by rewrite Hst, sanitize_lookup, Hk.
  - unfold onmessage. rewrite (isEmptyString_false msg Hne).
    unfold tryCatch, bind, lift, notifyChange. rewrite Hd, Hb.
    destruct (sanitize_backend st w) as (Hbk & Hr & _).
    pose proof (returns_unit _ w (returns__sanitizeAndUpdateState st)) as Hret.
    destruct (_sanitizeAndUpdateState st w) as [w1 c]. cbn in Hbk, Hr, Hret. subst c.
    unfold lift. rewrite Hcb. cbn. by rewrite Hbk, Hr.
Qed.

End Behaviour.

(** *** Sample stores *)

(** A store with fields [a] and [b] that persists [a] only, on a storage
    whose value was written with a wider schema. *)
Definition wideDeserialize (value : string) : Completion (option (gmap string JsValue)) :=
  if String.eqb value "a=7;b=8;c=9"
  then Returned (Some (<["a" := JNum 7]> (<["b" := JNum 8]> (<["c" := JNum 9]> ∅))))
  else Thrown "SyntaxError".

Definition wideOptions : IStorageOptions (gmap string string) :=
  {| include := ["a"]; exclude := [];
     getItem := localGetItem; setItem := localSetItem;
     broadcast := None;
     deserialize := wideDeserialize;
     shouldStore := fun _ => true;
     serialize := abSerialize |}.

Definition wideStore : Store (gmap string string) :=
  {| state := <["a" := JNum 1]> (<["b" := JNum 2]> ∅);
     backend := {["ab" := "a=7;b=8;c=9"]};
     broadcastStream := false; posted := []; reported := [];
     effectRegistered := false; dirty := false |}.

(** A layout tab with an open channel, before the first run of the effect. *)
Definition openTab : Store (gmap string string) :=
  {| state := layoutInitial; backend := ∅; broadcastStream := true; posted := [];
     reported := []; effectRegistered := true; dirty := true |}.

(** The layout options with an [onChange] callback that throws. *)
Definition throwingOnChange : IStorageOptions (gmap string string) :=
  {| include := ["platformLayoutMode"];
     exclude := [];
     getItem := localGetItem;
     setItem := localSetItem;
     broadcast := Some {| channelKey := Some "ng-layout-channel";
                          onChange := Some (fun _ => Thrown "TypeError") |};
     deserialize := layoutDeserialize;
     shouldStore := fun _ => true;
     serialize := layoutSerialize |}.

Lemma onInit_merges_every_stored_field_witness :
  include wideOptions = ["a"]
  /\ state (onInit browser "ab" wideOptions wideStore).1 !! "b" = Some (JNum 8).
Proof.
  split; [reflexivity|].
  exact (proj1 (onInit_merges_every_stored_field browser "ab" wideOptions wideStore eq_refl)
           "a=7;b=8;c=9"
           (<["a" := JNum 7]> (<["b" := JNum 8]> (<["c" := JNum 9]> ∅)))
           eq_refl ltac:(discriminate) eq_refl "b" (JNum 2) eq_refl).
Defined.

Lemma persistEffect_posts_before_storing_witness :
  posted (persistEffect layoutStateKey lockedOptions openTab).1 = ["mode=extended"]
  /\ backend (persistEffect layoutStateKey lockedOptions openTab).1 = ∅
  /\ reported (persistEffect layoutStateKey lockedOptions openTab).1 = ["QuotaExceededError"].
Proof.
  exact (persistEffect_posts_before_storing layoutStateKey lockedOptions openTab
           "mode=extended" "QuotaExceededError" eq_refl eq_refl eq_refl eq_refl).
Defined.

Lemma onmessage_merges_before_notifying_witness :
  state (onmessage layoutStateKey throwingOnChange "mode=compact" openTab).1
    !! "platformLayoutMode" = Some (JStr "compact")
  /\ backend (onmessage layoutStateKey throwingOnChange "mode=compact" openTab).1 = ∅
  /\ reported (onmessage layoutStateKey throwingOnChange "mode=compact" openTab).1
     = ["TypeError"].
Proof.
  destruct (onmessage_merges_before_notifying layoutStateKey throwingOnChange
              "mode=compact" openTab (Some {["platformLayoutMode" := JStr "compact"]})
              (Some "ng-layout-channel") (fun _ => Thrown "TypeError") "TypeError"
              ltac:(discriminate) eq_refl eq_refl eq_refl) as (Hst & Hb & Hr).
  split; [|split; [exact Hb|exact Hr]].
  exact (Hst "platformLayoutMode" (JStr "extended") eq_refl).
Defined.

End StorageBehaviour.

(* ===================================================================== *)
(** ** The layout store ([LayoutStore]: state, reset, storage, methods) *)
(* ===================================================================== *)

Module Layout.
Import Js Storage.

Inductive TAccessLayoutMode : Type := accessCompact | accessExtended.

Inductive TPlatformLayoutMode : Type := compact | extended | collapsed.

Definition accessName (mode : TAccessLayoutMode) : string :=
  match mode with
  | accessCompact => "compact"
  | accessExtended => "extended"
  end.

Definition platformName (mode : TPlatformLayoutMode) : string :=
  match mode with
  | compact => "compact"
  | extended => "extended"
  | collapsed => "collapsed"
  end.

Definition initialState : gmap string JsValue :=
  <["accessLayoutMode" := JStr "extended"]>
    (<["platformLayoutMode" := JStr "extended"]>
       (<["isNavigationDrawerVisible" := JBool false]> ∅)).

(** [applicationConfig.layoutStateKey] *)
Definition stateKey : string := "ng-layout-state".

(** A method of the store: it runs on a store whose storage is a dictionary. *)
Definition Method : Type := @M (gmap string string) unit.

Section Codec.

(** [JSON.stringify] and [JSON.parse], the defaults of [withStorage]. *)
Variable stringify : gmap string JsValue -> Completion string.
Variable parse : string -> Completion (option (gmap string JsValue)).

(** The options the layout store passes to [withStorage], on a storage that
    behaves like [localStorage] with room left. *)
Definition options : IStorageOptions (gmap string string) :=
  {| include := ["platformLayoutMode"];
     exclude := [];
     getItem := localGetItem;
     setItem := localSetItem;
     broadcast := Some {| channelKey := Some "ng-layout-channel"; onChange := None |};
     deserialize := parse;
     shouldStore := fun store =>
       negb (strictEquals (prop (Some store) "platformLayoutMode") (JStr "collapsed"));
     serialize := stringify |}.

(** *** The methods *)

Definition setAccessLayoutMode (mode : TAccessLayoutMode) : Method :=
  patchState {["accessLayoutMode" := JStr (accessName mode)]}.

Definition setPlatformLayoutMode (mode : TPlatformLayoutMode) : Method :=
  patchState (<["platformLayoutMode" := JStr (platformName mode)]>
                {["isNavigationDrawerVisible" := JBool false]}).

Definition setNavigationDrawerVisibility (visible : bool) : Method :=
  patchState {["isNavigationDrawerVisible" := JBool visible]}.

Definition toggleNavigationDrawerVisibility : Method := fun w =>
  let isNavigationDrawerVisible := prop (Some (state w)) "isNavigationDrawerVisible" in
  let alternateDrawerVisibility := negb (truthy isNavigationDrawerVisible) in
  patchState {["isNavigationDrawerVisible" := JBool alternateDrawerVisibility]} w.

Definition togglePlatformLayoutMode : Method := fun w =>
  let platformLayoutMode := prop (Some (state w)) "platformLayoutMode" in
  let alternateLayoutMode :=
    if strictEquals platformLayoutMode (JStr "extended") then compact else extended in
  patchState {["platformLayoutMode" := JStr (platformName alternateLayoutMode)]} w.

(** [resetState(overrideState)] of [withResetState], called with an override. *)
Definition resetState (overrideState : gmap string JsValue) : Method :=
  patchState overrideState.

(** The [onDestroy] hook of the layout store. *)
Definition onDestroy : Method := resetState initialState.

(** *** What happens to a store *)

Inductive Action : Type :=
| SetAccessLayoutMode (mode : TAccessLayoutMode)
| SetPlatformLayoutMode (mode : TPlatformLayoutMode)
| TogglePlatformLayoutMode
| SetNavigationDrawerVisibility (visible : bool)
| ToggleNavigationDrawerVisibility
| ResetState
| RunEffects                       (* the scheduler flushes the persist effect *)
| Receive (message : string).      (* a broadcast message arrives *)

Definition perform (a : Action) : Method :=
  match a with
  | SetAccessLayoutMode mode => setAccessLayoutMode mode
  | SetPlatformLayoutMode mode => setPlatformLayoutMode mode
  | TogglePlatformLayoutMode => togglePlatformLayoutMode
  | SetNavigationDrawerVisibility visible => setNavigationDrawerVisibility visible
  | ToggleNavigationDrawerVisibility => toggleNavigationDrawerVisibility
  | ResetState => onDestroy
  | RunEffects => flushEffects stateKey options
  | Receive message => onmessage stateKey options message
  end.

Definition performAll (actions : list Action) (w : Store (gmap string string))
  : Store (gmap string string) :=
  fold_left (fun w a => (perform a w).1) actions w.

(** The serialized projection of a state that is not collapsed. *)
Definition persistable (blob : string) : Prop :=
  exists st : gmap string JsValue,
    prop (Some st) "platformLayoutMode" <> JStr "collapsed"
    /\ stringify (pick st ["platformLayoutMode"]) = Returned blob.

(** *** Reading the state *)

Definition platformLayoutMode (w : Store (gmap string string)) : JsValue :=
  prop (Some (state w)) "platformLayoutMode".

Definition isNavigationDrawerVisible (w : Store (gmap string string)) : JsValue :=
  prop (Some (state w)) "isNavigationDrawerVisible".

Lemma strictEquals_JStr v s : strictEquals v (JStr s) = true <-> v = JStr s.
Proof.
  destruct v; cbn; try (split; [discriminate|intros [=]]).
  rewrite String.eqb_eq. split; [by intros ->|by intros [= ->]].
Qed.

Lemma strictEquals_JStr_false v s : strictEquals v (JStr s) = false <-> v <> JStr s.
Proof.
  rewrite <- strictEquals_JStr. by destruct (strictEquals v (JStr s)).
Qed.

(** What one action does to the storage and to the channel. *)
Lemma perform_outside (a : Action) (w : Store (gmap string string)) :
  (backend (perform a w).1 = backend w /\ posted (perform a w).1 = posted w)
  \/ (exists blob, persistable blob
                   /\ backend (perform a w).1 = <[stateKey := blob]> (backend w)
                   /\ (posted (perform a w).1 = posted w
                       \/ posted (perform a w).1 = (posted w ++ [blob])%list))
  \/ (exists message, a = Receive message
                      /\ backend (perform a w).1 = <[stateKey := message]> (backend w)
                      /\ posted (perform a w).1 = posted w).
Proof.
  destruct a as [mode|mode| |visible| | | |message]; try (left; done).
  - (* the persist effect *)
    cbn [perform]. unfold flushEffects.
    destruct (effectRegistered w && dirty w); [|left; done].
    unfold persistEffect. cbn [state shouldStore options].
    destruct (strictEquals (prop (Some (state w)) "platformLayoutMode") (JStr "collapsed"))
      eqn:Hc; cbn [negb]; [left; done|].
    unfold tryCatch, bind, lift. cbn [Storage.serialize options persistableState include].
    destruct (stringify (pick (state w) ["platformLayoutMode"])) as [blob|e] eqn:Hser;
      [|left; done].
    right; left. exists blob. split.
    { exists (state w). split; [by apply strictEquals_JStr_false|done]. }
    unfold postMessage, storageSetItem. cbn [broadcastStream].
    destruct (broadcastStream w); cbn; auto.
  - (* a received message *)
    cbn [perform]. pose proof (onmessage_posted stateKey options message w) as Hp.
    destruct (String.eqb_spec message "") as [->|Hne]; [left; done|].
    unfold onmessage in *. rewrite (isEmptyString_false message Hne) in *.
    unfold tryCatch, bind, lift in *. cbn [Storage.deserialize options] in *.
    destruct (parse message) as [st|e]; [|left; done].
    destruct (sanitize_backend st w) as (Hb & _).
    pose proof (returns_unit _ w (returns__sanitizeAndUpdateState st)) as Hret.
    destruct (_sanitizeAndUpdateState st w) as [w1 c]. cbn in Hb, Hret. subst c.
    cbn in *. right; right. exists message. rewrite <- Hb. done.
Qed.

Lemma performAll_snoc actions a w :
  performAll (actions ++ [a]) w = (perform a (performAll actions w)).1.
Proof. unfold performAll. by rewrite fold_left_app. Qed.

(** X10: the layout store never writes a collapsed layout to the storage
    and never posts one.  After any sequence of method calls, effect runs
    and received messages, the value under the store key is the one that was
    there at the start, or a message that was received (the listener stores
    it as it came), or the serialized [platformLayoutMode] of a state that
    was not collapsed; every message the store posted is of the last kind;
    no other storage key is touched. *)
Theorem collapsed_layout_is_never_persisted (actions : list Action)
    (w0 : Store (gmap string string)) :
  (forall blob, backend (performAll actions w0) !! stateKey = Some blob ->
     backend w0 !! stateKey = Some blob \/ Receive blob ∈ actions \/ persistable blob)
  /\ (forall blob, blob ∈ posted (performAll actions w0) ->
        blob ∈ posted w0 \/ persistable blob)
  /\ (forall k, k <> stateKey ->
        backend (performAll actions w0) !! k = backend w0 !! k).
Proof.
  induction actions as [|a actions IH] using rev_ind; [cbn; auto|].
  rewrite performAll_snoc. destruct IH as (IHb & IHp & IHk).
  destruct (perform_outside a (performAll actions w0))
    as [[Hb Hp]|[(blob' & Hok & Hb & Hp)|(message & -> & Hb & Hp)]];
    rewrite Hb; (split; [|split]).
  - intros blob H. destruct (IHb blob H) as [?|[?|?]]; auto.
    right; left. apply elem_of_app. by left.
  - rewrite Hp. exact IHp.
  - exact IHk.
  - intros blob. rewrite lookup_insert_eq. intros [= <-]. auto.
  - intros blob Hin. destruct Hp as [Hp|Hp]; rewrite Hp in Hin; [by apply IHp|].
    apply elem_of_app in Hin as [Hin|Hin]; [by apply IHp|].
    apply list_elem_of_singleton in Hin as ->. auto.
  - intros k Hk. rewrite lookup_insert_ne by done. by apply IHk.
  - intros blob. rewrite lookup_insert_eq. intros [= <-].
    right; left. apply elem_of_app. right. apply list_elem_of_here.
  - rewrite Hp. exact IHp.
  - intros k Hk. rewrite lookup_insert_ne by done. by apply IHk.
Qed.

Lemma platformLayoutMode_toggled (w : Store (gmap string string)) :
  platformLayoutMode (togglePlatformLayoutMode w).1 =
  if strictEquals (platformLayoutMode w) (JStr "extended")
  then JStr "compact" else JStr "extended".
Proof.
  unfold platformLayoutMode, togglePlatformLayoutMode, patchState, prop.
  cbn [fst state].
  rewrite (lookup_union_Some_l _ _ _ _ (lookup_singleton_eq _ _)). cbn [default].
  by destruct (strictEquals _ _).
Qed.

(** X11: [togglePlatformLayoutMode] never produces the collapsed layout.
    On a store that is extended or compact two toggles give back the mode it
    had; from any other mode (collapsed included) one toggle gives extended.
    The toggle changes no other field: unlike [setPlatformLayoutMode], which
    always closes the navigation drawer, it leaves the drawer as it is. *)
Theorem togglePlatformLayoutMode_cycle (w : Store (gmap string string)) :
  platformLayoutMode (togglePlatformLayoutMode w).1 <> JStr "collapsed"
  /\ (platformLayoutMode w = JStr "extended" \/ platformLayoutMode w = JStr "compact" ->
      platformLayoutMode (togglePlatformLayoutMode (togglePlatformLayoutMode w).1).1
      = platformLayoutMode w)
  /\ (platformLayoutMode w <> JStr "extended" ->
      platformLayoutMode (togglePlatformLayoutMode w).1 = JStr "extended")
  /\ (forall k, k <> "platformLayoutMode" ->
        state (togglePlatformLayoutMode w).1 !! k = state w !! k)
  /\ (forall mode, isNavigationDrawerVisible (setPlatformLayoutMode mode w).1 = JBool false).
Proof.
  split; [|split; [|split; [|split]]].
  - rewrite platformLayoutMode_toggled. by destruct (strictEquals _ _).
  - intros [H|H]; rewrite !platformLayoutMode_toggled, H; reflexivity.
  - intros H. rewrite platformLayoutMode_toggled.
    by rewrite (proj2 (strictEquals_JStr_false _ _) H).
  - intros k Hk. unfold togglePlatformLayoutMode, patchState. cbn [fst state].
    rewrite lookup_union_r; [done|]. by apply lookup_singleton_ne.
  - intros mode. unfold isNavigationDrawerVisible, setPlatformLayoutMode, patchState, prop.
    cbn [fst state].
    erewrite lookup_union_Some_l; [reflexivity|].
    rewrite lookup_insert_ne by done. apply lookup_singleton_eq.
Qed.

End Codec.

(** A session: compact is stored; collapsing afterwards leaves the storage
    alone, so a reload comes up compact. *)
Example collapsed_is_session_only :
  backend
    (performAll layoutSerialize layoutDeserialize
       [SetPlatformLayoutMode compact; RunEffects;
        SetPlatformLayoutMode collapsed; RunEffects] layoutTab) !! stateKey
  = Some "mode=compact".
Proof. vm_compute. reflexivity. Qed.

End Layout.

(* ===================================================================== *)
(** ** Menu evaluation ([Navigation.evaluateMenuItems]) *)
(* ===================================================================== *)

Module MenuEvaluation.
Import Js Navigation.

(** A menu item as [evaluateMenuItems] reads and writes it; [label] stands
    for the properties the spread [...menuItem] copies unchanged. *)
Inductive IMenuItem : Type :=
| MenuItem (id : Z) (label : string) (routerLink : option string)
           (queryParams : option (gmap string JsValue))
           (queryParamsHandling : option QueryParamsHandling)
           (expanded : option bool) (items : option (list IMenuItem)).

Definition routerLinkOf (m : IMenuItem) : option string :=
  match m with MenuItem _ _ link _ _ _ _ => link end.

Definition expandedOf (m : IMenuItem) : option bool :=
  match m with MenuItem _ _ _ _ _ e _ => e end.

Definition itemsOf (m : IMenuItem) : option (list IMenuItem) :=
  match m with MenuItem _ _ _ _ _ _ l => l end.

Definition queryParamsOf (m : IMenuItem) : option (gmap string JsValue) :=
  match m with MenuItem _ _ _ q _ _ _ => q end.

Definition queryParamsHandlingOf (m : IMenuItem) : option QueryParamsHandling :=
  match m with MenuItem _ _ _ _ h _ _ => h end.

(** lodash [isEmpty] on an array *)
Definition isEmptyArray {A} (l : list A) : bool :=
  match l with
  | [] => true
  | _ :: _ => false
  end.

(** [item.expanded || matchesActivePath(this.router, item.routerLink)] *)
Definition expandedOrActive (router : Router) (item : IMenuItem) : bool :=
  default false (expandedOf item) || matchesActivePath router (routerLinkOf item) None.

(** The callback of [menuItems.map] in [evaluateMenuItems]. *)
Fixpoint evaluateMenuItem (router : Router) (menuItem : IMenuItem) : IMenuItem :=
  match menuItem with
  | MenuItem id label routerLink queryParams queryParamsHandling _ items =>
      let evaluatedMenuItems :=
        match items with
        | Some l => map (evaluateMenuItem router) l
        | None => []
        end in
      let hasActiveDescendant := existsb (expandedOrActive router) evaluatedMenuItems in
      let resolvedParamsHandling :=
        resolveQueryPersistence router routerLink queryParams queryParamsHandling in
      let isActivatedRoute := matchesActivePath router routerLink None in
      let hasActiveState := hasActiveDescendant || isActivatedRoute in
      let requiresExpansion :=
        negb (isEmptyArray evaluatedMenuItems) && hasActiveState in
      MenuItem id label routerLink (Some (default ∅ queryParams))
        (Some resolvedParamsHandling) (Some requiresExpansion) (Some evaluatedMenuItems)
  end.

Definition evaluateMenuItems (router : Router) (menuItems : list IMenuItem)
  : list IMenuItem :=
  map (evaluateMenuItem router) menuItems.

(** *** Observations on a tree *)

Definition children (m : IMenuItem) : list IMenuItem := default [] (itemsOf m).

(** An item and all its descendants, in document order. *)
Fixpoint subtree (m : IMenuItem) : list IMenuItem :=
  m :: match m with
       | MenuItem _ _ _ _ _ _ (Some l) => flat_map subtree l
       | MenuItem _ _ _ _ _ _ None => []
       end.

(** The active route matches the link of the item. *)
Definition active (router : Router) (m : IMenuItem) : bool :=
  matchesActivePath router (routerLinkOf m) None.

(** The same tree with other [expanded] flags: [f] gives the flag by id. *)
Fixpoint setFlags (f : Z -> option bool) (m : IMenuItem) : IMenuItem :=
  match m with
  | MenuItem id label link q h _ items =>
      MenuItem id label link q h (f id)
        match items with
        | Some l => Some (map (setFlags f) l)
        | None => None
        end
  end.

Section Induction.

Variable P : IMenuItem -> Prop.

Hypothesis step :
  forall id label link q h e items,
    match items with Some l => Forall P l | None => True end ->
    P (MenuItem id label link q h e items).

Fixpoint IMenuItem_tree_ind (m : IMenuItem) : P m :=
  match m with
  | MenuItem id label link q h e items =>
      step id label link q h e items
        match items as o return match o with Some l => Forall P l | None => True end with
        | Some l =>
            (fix go (l : list IMenuItem) : Forall P l :=
               match l with
               | [] => @List.Forall_nil _ P
               | x :: xs => @List.Forall_cons _ P x xs (IMenuItem_tree_ind x) (go xs)
               end) l
        | None => I
        end
  end.

End Induction.

Lemma existsb_flat_map {A B} (p : B -> bool) (f : A -> list B) (l : list A) :
  existsb p (flat_map f l) = existsb (fun a => existsb p (f a)) l.
Proof.
  induction l as [|a l IH]; cbn; [done|]. by rewrite existsb_app, IH.
Qed.

Lemma existsb_ext_Forall {A} (p q : A -> bool) (l : list A) :
  Forall (fun a => p a = q a) l -> existsb p l = existsb q l.
Proof. induction 1 as [|a l E _ IH]; cbn; [done|]. by rewrite E, IH. Qed.

Lemma existsb_over_map {A B} (p : B -> bool) (f : A -> B) (l : list A) :
  existsb p (map f l) = existsb (fun a => p (f a)) l.
Proof. induction l as [|a l IH]; cbn; [done|]. by rewrite IH. Qed.

Lemma isEmptyArray_map {A B} (f : A -> B) (l : list A) :
  isEmptyArray (map f l) = isEmptyArray l.
Proof. by destruct l. Qed.

Lemma routerLinkOf_evaluateMenuItem router m :
  routerLinkOf (evaluateMenuItem router m) = routerLinkOf m.
Proof. by destruct m. Qed.

(** The flag an evaluation gives an item. *)
Lemma expandedOrActive_evaluated router c :
  expandedOf (evaluateMenuItem router c) =
    Some (negb (isEmptyArray (children c)) && existsb (active router) (subtree c)) ->
  expandedOrActive router (evaluateMenuItem router c) = existsb (active router) (subtree c).
Proof.
  intros Hc. unfold expandedOrActive. rewrite Hc, routerLinkOf_evaluateMenuItem.
  destruct c as [cid cl clink cq ch ce [[|c1 cs]|]]; unfold active; cbn;
    destruct (matchesActivePath router clink None); cbn;
    rewrite ?orb_false_r; reflexivity.
Qed.

Lemma expandedOf_evaluateMenuItem router m :
  expandedOf (evaluateMenuItem router m) =
  Some (negb (isEmptyArray (children m)) && existsb (active router) (subtree m)).
Proof.
  induction m as [i label link q h e items IH] using IMenuItem_tree_ind.
  destruct items as [l|]; [|reflexivity].
  change (children (MenuItem i label link q h e (Some l))) with l.
  change (existsb (active router) (subtree (MenuItem i label link q h e (Some l))))
    with (matchesActivePath router link None
          || existsb (active router) (flat_map subtree l)).
  cbn [evaluateMenuItem expandedOf]. rewrite isEmptyArray_map. do 2 f_equal.
  rewrite existsb_flat_map, orb_comm. f_equal.
  rewrite existsb_over_map.
  apply existsb_ext_Forall. eapply Forall_impl; [exact IH|].
  intros c Hc. by apply expandedOrActive_evaluated.
Qed.

Lemma map_ext_Forall' {A B} (f g : A -> B) (l : list A) :
  Forall (fun a => f a = g a) l -> map f l = map g l.
Proof. induction 1 as [|a l E _ IH]; cbn; [done|]. by rewrite E, IH. Qed.

Lemma evaluateMenuItem_setFlags router f m :
  evaluateMenuItem router (setFlags f m) = evaluateMenuItem router m.
Proof.
  induction m as [i label link q h e items IH] using IMenuItem_tree_ind.
  destruct items as [l|]; [|reflexivity].
  cbn [setFlags evaluateMenuItem].
  assert (E : map (evaluateMenuItem router) (map (setFlags f) l)
              = map (evaluateMenuItem router) l).
  { rewrite List.map_map. by apply map_ext_Forall'. }
  by rewrite E.
Qed.

Lemma subtree_evaluateMenuItem router m m' :
  m' ∈ subtree (evaluateMenuItem router m) ->
  exists m0, m0 ∈ subtree m /\ m' = evaluateMenuItem router m0.
Proof.
  revert m'. induction m as [i label link q h e items IH] using IMenuItem_tree_ind.
  intros m' Hin.
  change (subtree (evaluateMenuItem router (MenuItem i label link q h e items)))
    with (evaluateMenuItem router (MenuItem i label link q h e items)
          :: flat_map subtree
               match items with
               | Some l => map (evaluateMenuItem router) l
               | None => []
               end) in Hin.
  apply elem_of_cons in Hin as [->|Hin].
  - eexists. split; [apply list_elem_of_here|reflexivity].
  - destruct items as [l|]; [|by apply elem_of_nil in Hin].
    apply list_elem_of_In, in_flat_map in Hin as (c' & Hc' & Hin).
    apply in_map_iff in Hc' as (c & <- & Hc).
    rewrite Forall_forall in IH.
    destruct (IH c (proj2 (list_elem_of_In _ _) Hc) m' (proj2 (list_elem_of_In _ _) Hin))
      as (m0 & Hm0 & ->).
    exists m0. split; [|reflexivity].
    cbn [subtree]. apply list_elem_of_further, list_elem_of_In, in_flat_map.
    exists c. split; [done|]. by apply list_elem_of_In.
Qed.

(** X12: [evaluateMenuItems] opens the path to the active route and nothing
    else.  Every item of the result, at any depth, is the evaluation of an
    item of the input, and an evaluated item is expanded exactly when it has
    children and the active route matches its own link or the link of one of
    its descendants.  The [expanded] flags of the input play no role: the
    same tree with any other flags evaluates to the same result. *)
Theorem evaluateMenuItems_opens_active_path (router : Router)
    (menuItems : list IMenuItem) :
  (forall m', m' ∈ flat_map subtree (evaluateMenuItems router menuItems) ->
     exists m, m ∈ flat_map subtree menuItems /\ m' = evaluateMenuItem router m)
  /\ (forall m,
        expandedOf (evaluateMenuItem router m) =
        Some (negb (isEmptyArray (children m)) && existsb (active router) (subtree m)))
  /\ (forall f,
        evaluateMenuItems router (map (setFlags f) menuItems)
        = evaluateMenuItems router menuItems).
Proof.
  split; [|split].
  - intros m' Hin. unfold evaluateMenuItems in Hin.
    apply list_elem_of_In, in_flat_map in Hin as (c' & Hc' & Hin).
    apply in_map_iff in Hc' as (c & <- & Hc).
    destruct (subtree_evaluateMenuItem router c m' (proj2 (list_elem_of_In _ _) Hin))
      as (m0 & Hm0 & ->).
    exists m0. split; [|reflexivity].
    apply list_elem_of_In, in_flat_map. exists c. split; [done|]. by apply list_elem_of_In.
  - apply expandedOf_evaluateMenuItem.
  - intros f. unfold evaluateMenuItems. rewrite List.map_map.
    apply map_ext_Forall', Forall_forall. intros m _. apply evaluateMenuItem_setFlags.
Qed.

Lemma evaluateMenuItem_idempotent router m :
  evaluateMenuItem router (evaluateMenuItem router m) = evaluateMenuItem router m.
Proof.
  induction m as [i label link q h e items IH] using IMenuItem_tree_ind.
  cbn [evaluateMenuItem].
  assert (E : map (evaluateMenuItem router)
                match items with
                | Some l => map (evaluateMenuItem router) l
                | None => []
                end
              = match items with
                | Some l => map (evaluateMenuItem router) l
                | None => []
                end).
  { destruct items as [l|]; [|reflexivity].
    rewrite List.map_map. by apply map_ext_Forall'. }
  rewrite E. reflexivity.
Qed.

(** X13: evaluating an evaluated menu changes nothing.  After one pass every
    item carries an [items] array, a [queryParams] object and an explicit
    query handling, and a second pass for the same router state returns the
    same tree: the handling resolved by the first pass is kept as the
    explicit one. *)
Theorem evaluateMenuItems_idempotent (router : Router) (menuItems : list IMenuItem) :
  evaluateMenuItems router (evaluateMenuItems router menuItems)
  = evaluateMenuItems router menuItems
  /\ (forall m', m' ∈ flat_map subtree (evaluateMenuItems router menuItems) ->
        is_Some (itemsOf m') /\ is_Some (queryParamsOf m')
        /\ is_Some (queryParamsHandlingOf m') /\ is_Some (expandedOf m')).
Proof.
  split.
  - unfold evaluateMenuItems. rewrite List.map_map.
    apply map_ext_Forall', Forall_forall. intros m _. apply evaluateMenuItem_idempotent.
  - intros m' Hin. unfold evaluateMenuItems in Hin.
    apply list_elem_of_In, in_flat_map in Hin as (c' & Hc' & Hin).
    apply in_map_iff in Hc' as (c & <- & Hc).
    destruct (subtree_evaluateMenuItem router c m' (proj2 (list_elem_of_In _ _) Hin))
      as (m0 & _ & ->).
    destruct m0. cbn. eauto.
Qed.

(** Two sections, the second with the page the router stands on. *)
Definition sampleMenu : list IMenuItem :=
  [MenuItem 1 "Dashboard" (Some "/") None None (Some true) None;
   MenuItem 2 "Users" None None None None
     (Some [MenuItem 3 "All users" (Some "/users") None None None None;
            MenuItem 4 "New user" (Some "/users/create") None None None None])].

Example sampleMenu_evaluated :
  map expandedOf (flat_map subtree (evaluateMenuItems sampleRouter sampleMenu))
  = [Some false; Some true; Some false; Some false].
Proof. vm_compute. reflexivity. Qed.

End MenuEvaluation.

(* ===================================================================== *)
(** ** The route tree: primary chain, path segments, breadcrumbs *)
(* ===================================================================== *)

Module Routes.
Import Js Navigation.

(** Angular's [PRIMARY_OUTLET] *)
Definition PRIMARY_OUTLET : string := "primary".

(** [label?: string | (data, params) => string] *)
Inductive TLabel : Type :=
| LabelString (text : string)
| LabelCallback (callback : gmap string JsValue -> gmap string string -> string).

Record IRouteBreadcrumb : Type := {
  icon : option string;
  home : option bool;
  skip : option bool;
  iconSize : option Z;
  disabled : option bool;
  context : option (gmap string JsValue);
  label : option TLabel
}.

(** [breadcrumb?: string | IRouteBreadcrumb] *)
Inductive TBreadcrumb : Type :=
| BreadcrumbString (text : string)
| BreadcrumbObject (meta : IRouteBreadcrumb).

(** Route data: the breadcrumb declaration and the other properties, which
    are what a label callback reads. *)
Record IRouteData : Type := {
  breadcrumb : option TBreadcrumb;
  payload : gmap string JsValue
}.

(** A route of the configuration, as [resolveBreadcrumbContext] reads the
    children of [routeConfig]. *)
Record Route : Type := {
  path : option string;
  routeData : option IRouteData
}.

(** Angular's [ActivatedRouteSnapshot]: [url] holds the paths of the url
    segments, [routeChildren] is [routeConfig?.children]. *)
Inductive ActivatedRouteSnapshot : Type :=
| Snapshot (outlet : string) (url : list string) (params : gmap string string)
           (queryParams : gmap string JsValue) (data : IRouteData)
           (routeChildren : option (list Route))
           (children : list ActivatedRouteSnapshot).

Definition outletOf (r : ActivatedRouteSnapshot) : string :=
  match r with Snapshot o _ _ _ _ _ _ => o end.

Definition urlOf (r : ActivatedRouteSnapshot) : list string :=
  match r with Snapshot _ u _ _ _ _ _ => u end.

Definition paramsOf (r : ActivatedRouteSnapshot) : gmap string string :=
  match r with Snapshot _ _ p _ _ _ _ => p end.

Definition queryParamsOf (r : ActivatedRouteSnapshot) : gmap string JsValue :=
  match r with Snapshot _ _ _ q _ _ _ => q end.

Definition dataOf (r : ActivatedRouteSnapshot) : IRouteData :=
  match r with Snapshot _ _ _ _ d _ _ => d end.

Definition routeChildrenOf (r : ActivatedRouteSnapshot) : option (list Route) :=
  match r with Snapshot _ _ _ _ _ c _ => c end.

Definition childrenOf (r : ActivatedRouteSnapshot) : list ActivatedRouteSnapshot :=
  match r with Snapshot _ _ _ _ _ _ c => c end.

Definition isPrimary (r : ActivatedRouteSnapshot) : bool :=
  String.eqb (outletOf r) PRIMARY_OUTLET.

(** [route.children.find(({ outlet }) => outlet === PRIMARY_OUTLET) ?? null] *)
Definition resolvePrimaryRoute (route : ActivatedRouteSnapshot)
  : option ActivatedRouteSnapshot :=
  List.find isPrimary (childrenOf route).

(** [resolveActiveSnapshot]: the inner [scan] is the [while] loop at a fixed
    [routeSnapshot], its argument the children from [childIndex] on; a
    primary child restarts the loop on that child. *)
Fixpoint resolveActiveSnapshot (route : ActivatedRouteSnapshot) : ActivatedRouteSnapshot :=
  match route with
  | Snapshot _ _ _ _ _ _ children =>
      (fix scan (rest : list ActivatedRouteSnapshot) : ActivatedRouteSnapshot :=
         match rest with
         | [] => route
         | childSnapshot :: rest' =>
             if isPrimary childSnapshot then resolveActiveSnapshot childSnapshot
             else scan rest'
         end) children
  end.

(** [values(routeSnapshot.params)] *)
Definition paramValues (r : ActivatedRouteSnapshot) : list string :=
  (map_to_list (paramsOf r)).*2.

(** The inner [for] loop of [resolvedPathSegments]: the segments of one
    route that are not the value of one of its parameters. *)
Definition staticSegments (r : ActivatedRouteSnapshot) : list string :=
  List.filter (fun segment => negb (bool_decide (segment ∈ paramValues r))) (urlOf r).

(** [resolvedPathSegments(state)], from [state.root], with the segments
    pushed so far. *)
Fixpoint collectSegments (route : ActivatedRouteSnapshot) (pathSegments : list string)
  : list string :=
  match route with
  | Snapshot _ _ _ _ _ _ children =>
      let pathSegments' := (pathSegments ++ staticSegments route)%list in
      (fix next (rest : list ActivatedRouteSnapshot) : list string :=
         match rest with
         | [] => pathSegments'
         | child :: rest' =>
             if isPrimary child then collectSegments child pathSegments'
             else next rest'
         end) children
  end.

Definition resolvedPathSegments (root : ActivatedRouteSnapshot) : list string :=
  collectSegments root [].

(** [Array.prototype.join] *)
Fixpoint join (separator : string) (l : list string) : string :=
  match l with
  | [] => ""
  | [s] => s
  | s :: rest => s ++ separator ++ join separator rest
  end.

(** *** Breadcrumbs *)

Record IBreadcrumb : Type := {
  b_label : string;
  b_home : bool;
  b_disabled : bool;
  routerLink : string;
  b_queryParams : gmap string JsValue;
  b_icon : option string;
  b_iconSize : option Z;
  b_context : option (gmap string JsValue);
  b_queryParamsHandling : QueryParamsHandling
}.

Record IBreadcrumbContext : Type := {
  breadcrumbPath : string;
  breadcrumbMeta : option IRouteBreadcrumb
}.

Definition labelOnly (text : string) : IRouteBreadcrumb :=
  {| icon := None; home := None; skip := None; iconSize := None; disabled := None;
     context := None; label := Some (LabelString text) |}.

(** [data?.['breadcrumb']?.home === true] *)
Definition declaresHome (route : Route) : bool :=
  match routeData route with
  | Some {| breadcrumb := Some (BreadcrumbObject meta) |} =>
      match home meta with
      | Some true => true
      | _ => false
      end
  | _ => false
  end.

(** The metadata a truthy [routeData.breadcrumb] gives: an object as it is,
    a string (not empty) as a label. *)
Definition declaredMeta (routeData : IRouteData) : option IRouteBreadcrumb :=
  match breadcrumb routeData with
  | Some (BreadcrumbObject meta) => Some meta
  | Some (BreadcrumbString text) =>
      if String.eqb text "" then None else Some (labelOnly text)
  | None => None
  end.

(** [homeRoute.data['breadcrumb']], read as metadata without a check. *)
Definition homeMeta (route : Route) : option IRouteBreadcrumb :=
  match routeData route with
  | Some {| breadcrumb := Some (BreadcrumbObject meta) |} => Some meta
  | _ => None
  end.

Definition resolveBreadcrumbContext (path : string) (route : ActivatedRouteSnapshot)
  : IBreadcrumbContext :=
  match declaredMeta (dataOf route), routeChildrenOf route with
  | Some meta, _ => {| breadcrumbPath := path; breadcrumbMeta := Some meta |}
  | None, None => {| breadcrumbPath := path; breadcrumbMeta := None |}
  | None, Some routeChildren =>
      match List.find declaresHome routeChildren with
      | Some homeRoute =>
          {| breadcrumbPath :=
               match Routes.path homeRoute with
               | Some homeRoutePath =>
                   if String.eqb path "/" then "/" ++ homeRoutePath
                   else path ++ "/" ++ homeRoutePath
               | None => path
               end;
             breadcrumbMeta := homeMeta homeRoute |}
      | None => {| breadcrumbPath := path; breadcrumbMeta := None |}
      end
  end.

(** [!!breadcrumbMeta.label] *)
Definition hasLabel (meta : IRouteBreadcrumb) : bool :=
  match label meta with
  | Some (LabelString text) => negb (String.eqb text "")
  | Some (LabelCallback _) => true
  | None => false
  end.

(** [isFunction(label) ? label(payload, params) : label] for a truthy label *)
Definition resolveLabel (meta : IRouteBreadcrumb) (route : ActivatedRouteSnapshot)
  : string :=
  match label meta with
  | Some (LabelString text) => text
  | Some (LabelCallback callback) => callback (payload (dataOf route)) (paramsOf route)
  | None => ""
  end.

(** One round of the [while] loop of [resolveBreadcrumbs] on [routeSnapshot]:
    the breadcrumbs after it. *)
Definition visit (router : Router) (routeSnapshot : ActivatedRouteSnapshot)
    (normalizedSegment : string) (breadcrumbs : list IBreadcrumb) : list IBreadcrumb :=
  let ctx := resolveBreadcrumbContext normalizedSegment routeSnapshot in
  match breadcrumbMeta ctx with
  | None => breadcrumbs
  | Some meta =>
      if negb (default false (skip meta)) then
        let hasExistingBreadcrumb :=
          existsb (fun b => String.eqb (routerLink b) (breadcrumbPath ctx)) breadcrumbs in
        if negb hasExistingBreadcrumb && hasLabel meta then
          let isActivatedRoute :=
            matchesActivePath router (Some normalizedSegment) None in
          let resolvedParamsHandling :=
            if isActivatedRoute
            then resolveQueryPersistence router (Some (breadcrumbPath ctx))
                   (Some (queryParamsOf routeSnapshot)) None
            else noHandling in
          (breadcrumbs ++
           [{| b_label := resolveLabel meta routeSnapshot;
               b_home := default false (home meta);
               b_disabled := default false (disabled meta);
               routerLink := breadcrumbPath ctx;
               b_queryParams := if isActivatedRoute then queryParamsOf routeSnapshot else ∅;
               b_icon := icon meta;
               b_iconSize := iconSize meta;
               b_context := context meta;
               b_queryParamsHandling := resolvedParamsHandling |}])%list
        else breadcrumbs
      else breadcrumbs
  end.

(** The [while] loop of [resolveBreadcrumbs] from [routeSnapshot] on. *)
Fixpoint walk (router : Router) (routeSnapshot : ActivatedRouteSnapshot)
    (pathAccumulator : list string) (breadcrumbs : list IBreadcrumb) : list IBreadcrumb :=
  match routeSnapshot with
  | Snapshot _ segments _ _ _ _ children =>
      let compositeSegments := (pathAccumulator ++ segments)%list in
      let normalizedSegment := "/" ++ join "/" compositeSegments in
      let breadcrumbs' := visit router routeSnapshot normalizedSegment breadcrumbs in
      (fix next (rest : list ActivatedRouteSnapshot) : list IBreadcrumb :=
         match rest with
         | [] => breadcrumbs'
         | child :: rest' =>
             if isPrimary child then walk router child compositeSegments breadcrumbs'
             else next rest'
         end) children
  end.

Definition resolveBreadcrumbs (router : Router) (root : ActivatedRouteSnapshot)
  : list IBreadcrumb :=
  walk router root [] [].

(** *** The primary chain *)

(** The routes the loops visit: [route], its primary child, and so on. *)
Fixpoint chain (route : ActivatedRouteSnapshot) : list ActivatedRouteSnapshot :=
  match route with
  | Snapshot _ _ _ _ _ _ children =>
      route ::
      (fix next (rest : list ActivatedRouteSnapshot) : list ActivatedRouteSnapshot :=
         match rest with
         | [] => []
         | child :: rest' => if isPrimary child then chain child else next rest'
         end) children
  end.

Section Induction.

Variable P : ActivatedRouteSnapshot -> Prop.

Hypothesis step :
  forall o u p q d rc children, Forall P children -> P (Snapshot o u p q d rc children).

Fixpoint ActivatedRouteSnapshot_tree_ind (r : ActivatedRouteSnapshot) : P r :=
  match r with
  | Snapshot o u p q d rc children =>
      step o u p q d rc children
        ((fix go (l : list ActivatedRouteSnapshot) : Forall P l :=
            match l with
            | [] => @List.Forall_nil _ P
            | x :: xs =>
                @List.Forall_cons _ P x xs (ActivatedRouteSnapshot_tree_ind x) (go xs)
            end) children)
  end.

End Induction.

Lemma resolveActiveSnapshot_unfold route :
  resolveActiveSnapshot route =
  match resolvePrimaryRoute route with
  | Some child => resolveActiveSnapshot child
  | None => route
  end.
Proof.
  destruct route as [o u p q d rc children]. unfold resolvePrimaryRoute.
  cbn [childrenOf resolveActiveSnapshot].
  set (r := Snapshot o u p q d rc children). clearbody r.
  induction children as [|c cs IH]; cbn [List.find]; [reflexivity|].
  destruct (isPrimary c); [reflexivity|exact IH].
Qed.

Lemma chain_unfold route :
  chain route =
  route :: match resolvePrimaryRoute route with
           | Some child => chain child
           | None => []
           end.
Proof.
  destruct route as [o u p q d rc children]. unfold resolvePrimaryRoute.
  cbn [childrenOf chain]. f_equal.
  induction children as [|c cs IH]; cbn [List.find]; [reflexivity|].
  destruct (isPrimary c); [reflexivity|exact IH].
Qed.

Lemma collectSegments_unfold route pathSegments :
  collectSegments route pathSegments =
  match resolvePrimaryRoute route with
  | Some child => collectSegments child (pathSegments ++ staticSegments route)
  | None => (pathSegments ++ staticSegments route)%list
  end.
Proof.
  destruct route as [o u p q d rc children]. unfold resolvePrimaryRoute.
  cbn [childrenOf collectSegments].
  set (r := Snapshot o u p q d rc children). clearbody r.
  induction children as [|c cs IH]; cbn [List.find]; [reflexivity|].
  destruct (isPrimary c); [reflexivity|exact IH].
Qed.

Lemma walk_unfold router route pathAccumulator breadcrumbs :
  walk router route pathAccumulator breadcrumbs =
  let compositeSegments := (pathAccumulator ++ urlOf route)%list in
  let breadcrumbs' :=
    visit router route ("/" ++ join "/" compositeSegments) breadcrumbs in
  match resolvePrimaryRoute route with
  | Some child => walk router child compositeSegments breadcrumbs'
  | None => breadcrumbs'
  end.
Proof.
  destruct route as [o u p q d rc children]. unfold resolvePrimaryRoute.
  cbn [childrenOf urlOf walk]. cbv zeta.
  set (r := Snapshot o u p q d rc children). clearbody r.
  induction children as [|c cs IH]; cbn [List.find]; [reflexivity|].
  destruct (isPrimary c); [reflexivity|exact IH].
Qed.

Lemma find_elem_of {A} (f : A -> bool) (l : list A) (x : A) :
  List.find f l = Some x -> x ∈ l.
Proof. intros H. apply list_elem_of_In. by apply find_some in H as [? _]. Qed.

(** X14: [resolveActiveSnapshot] returns the end of the primary chain.  Its
    index loop goes where [resolvePrimaryRoute] goes: the result for a route
    with a primary child is the result for that child (the first one, when
    several children use the primary outlet), a route without one is its own
    result.  So the route returned has no primary child, whatever children
    in other outlets it has, and resolving again from it changes nothing. *)
Theorem resolveActiveSnapshot_ends_primary_chain (route : ActivatedRouteSnapshot) :
  resolveActiveSnapshot route =
    match resolvePrimaryRoute route with
    | Some child => resolveActiveSnapshot child
    | None => route
    end
  /\ resolvePrimaryRoute (resolveActiveSnapshot route) = None
  /\ resolveActiveSnapshot (resolveActiveSnapshot route) = resolveActiveSnapshot route
  /\ last (chain route) = Some (resolveActiveSnapshot route).
Proof.
  split; [apply resolveActiveSnapshot_unfold|].
  assert (Hend : forall r, resolvePrimaryRoute (resolveActiveSnapshot r) = None).
  { intros r. induction r as [o u p q d rc children IH] using ActivatedRouteSnapshot_tree_ind.
    rewrite resolveActiveSnapshot_unfold.
    destruct (resolvePrimaryRoute (Snapshot o u p q d rc children)) as [c|] eqn:E; [|done].
    rewrite Forall_forall in IH. apply IH. by apply (find_elem_of isPrimary). }
  split; [apply Hend|]. split.
  - rewrite (resolveActiveSnapshot_unfold (resolveActiveSnapshot route)). by rewrite Hend.
  - induction route as [o u p q d rc children IH] using ActivatedRouteSnapshot_tree_ind.
    rewrite chain_unfold, resolveActiveSnapshot_unfold.
    destruct (resolvePrimaryRoute (Snapshot o u p q d rc children)) as [c|] eqn:E; [|done].
    rewrite Forall_forall in IH.
    specialize (IH c (find_elem_of isPrimary _ _ E)).
    rewrite <- IH. rewrite (chain_unfold c). reflexivity.
Qed.

Lemma collectSegments_chain route :
  forall pathSegments,
    collectSegments route pathSegments
    = (pathSegments ++ flat_map staticSegments (chain route))%list.
Proof.
  induction route as [o u p q d rc children IH] using ActivatedRouteSnapshot_tree_ind.
  intros acc. rewrite collectSegments_unfold, chain_unfold.
  destruct (resolvePrimaryRoute (Snapshot o u p q d rc children)) as [c|] eqn:E.
  - rewrite Forall_forall in IH. rewrite (IH c (find_elem_of isPrimary _ _ E)).
    cbn [flat_map]. by rewrite <- app_assoc.
  - cbn [flat_map]. by rewrite app_nil_r.
Qed.

(** X15: [resolvedPathSegments] returns, in root-to-leaf order, the url
    segments of the routes on the primary chain that are not the value of a
    parameter of their own route.  A segment of a route in another outlet
    never appears, and a static segment that happens to equal a parameter
    value of its route is dropped with it.  When no route on the chain has
    parameters the result is every segment of the chain. *)
Theorem resolvedPathSegments_static_segments (root : ActivatedRouteSnapshot) :
  (forall segment,
     segment ∈ resolvedPathSegments root <->
     exists route, route ∈ chain root /\ segment ∈ urlOf route
                   /\ segment ∉ paramValues route)
  /\ ((forall route, route ∈ chain root -> paramsOf route = ∅) ->
      resolvedPathSegments root = flat_map urlOf (chain root)).
Proof.
  unfold resolvedPathSegments. rewrite collectSegments_chain. cbn [app]. split.
  - intros segment. rewrite list_elem_of_In, in_flat_map. split.
    + intros (r & Hr & Hs). exists r. split; [by apply list_elem_of_In|].
      unfold staticSegments in Hs. apply filter_In in Hs as [Hs Hn].
      split; [by apply list_elem_of_In|].
      apply negb_true_iff, bool_decide_eq_false in Hn. exact Hn.
    + intros (r & Hr & Hs & Hn). exists r. split; [by apply list_elem_of_In|].
      unfold staticSegments. apply filter_In. split; [by apply list_elem_of_In|].
      by apply negb_true_iff, bool_decide_eq_false.
  - intros Hnone. induction (chain root) as [|r rs IH]; [reflexivity|].
    cbn [flat_map]. rewrite IH by (intros r' Hr'; apply Hnone; by apply list_elem_of_further).
    f_equal. unfold staticSegments, paramValues.
    rewrite (Hnone r) by apply list_elem_of_here. rewrite map_to_list_empty. cbn.
    induction (urlOf r) as [|x xs IHx]; [reflexivity|]. cbn.
    rewrite bool_decide_eq_false_2 by apply not_elem_of_nil. cbn. by rewrite IHx.
Qed.

(** *** The breadcrumb trail *)

(** What the trail must satisfy at every point of the loop. *)
Definition trail (breadcrumbs : list IBreadcrumb) : Prop :=
  NoDup (map routerLink breadcrumbs)
  /\ Forall (fun b => startsWith (routerLink b) "/" = true) breadcrumbs.

Lemma existsb_routerLink_false link breadcrumbs :
  existsb (fun b => String.eqb (routerLink b) link) breadcrumbs = false ->
  link ∉ map routerLink breadcrumbs.
Proof.
  induction breadcrumbs as [|b bs IH]; cbn; [intros _; apply not_elem_of_nil|].
  intros H. apply orb_false_iff in H as [Hb Hbs]. apply not_elem_of_cons. split.
  - apply String.eqb_neq in Hb. congruence.
  - by apply IH.
Qed.

Lemma startsWith_slash_app s t : startsWith s "/" = true -> startsWith (s ++ t) "/" = true.
Proof.
  destruct s as [|c s]; [discriminate|].
  change (startsWith (String c s) "/") with (Ascii.eqb "/" c && startsWith s "").
  change (startsWith (String c s ++ t) "/")
    with (Ascii.eqb "/" c && startsWith (s ++ t) "").
  assert (E : forall x, startsWith x "" = true) by (by intros []).
  by rewrite !E.
Qed.

Lemma breadcrumbPath_absolute path route :
  startsWith path "/" = true ->
  startsWith (breadcrumbPath (resolveBreadcrumbContext path route)) "/" = true.
Proof.
  intros Hp. unfold resolveBreadcrumbContext.
  destruct (declaredMeta (dataOf route)); [done|].
  destruct (routeChildrenOf route) as [rc|]; [|done].
  destruct (List.find declaresHome rc) as [homeRoute|]; [|done].
  cbn [breadcrumbPath]. destruct (Routes.path homeRoute) as [hp|]; [|done].
  destruct (String.eqb path "/"); [by apply (startsWith_slash_app "/")|].
  by apply startsWith_slash_app.
Qed.

Lemma visit_cases router route segment breadcrumbs :
  visit router route segment breadcrumbs = breadcrumbs
  \/ exists b,
       visit router route segment breadcrumbs = (breadcrumbs ++ [b])%list
       /\ routerLink b = breadcrumbPath (resolveBreadcrumbContext segment route)
       /\ (routerLink b ∉ map routerLink breadcrumbs)
       /\ (exists meta,
             breadcrumbMeta (resolveBreadcrumbContext segment route) = Some meta
             /\ skip meta <> Some true /\ hasLabel meta = true
             /\ b_label b = resolveLabel meta route).
Proof.
  unfold visit.
  destruct (breadcrumbMeta (resolveBreadcrumbContext segment route)) as [meta|]; [|by left].
  destruct (skip meta) as [[|]|] eqn:Hskip; cbn [default negb]; [by left| |].
  all: destruct (existsb _ breadcrumbs) eqn:Hex; cbn [negb andb]; [by left|].
  all: destruct (hasLabel meta) eqn:Hl; [|by left].
  all: right; eexists; split; [reflexivity|]; cbn [routerLink b_label].
  all: split; [reflexivity|]; split; [by apply existsb_routerLink_false|].
  all: exists meta; repeat split; congruence.
Qed.

Lemma trail_visit router route segment breadcrumbs :
  startsWith segment "/" = true ->
  trail breadcrumbs -> trail (visit router route segment breadcrumbs).
Proof.
  intros Hs [Hnd Habs].
  destruct (visit_cases router route segment breadcrumbs) as [->|(b & -> & Hb & Hnew & _)];
    [done|].
  split.
  - rewrite List.map_app. cbn [map]. apply NoDup_app. split; [done|]. split.
    + intros x Hx Hin. apply list_elem_of_singleton in Hin as ->. contradiction.
    + apply NoDup_singleton.
  - apply Forall_app. split; [done|]. apply Forall_singleton. rewrite Hb.
    by apply breadcrumbPath_absolute.
Qed.

Lemma walk_trail router route :
  forall pathAccumulator breadcrumbs,
    trail breadcrumbs ->
    trail (walk router route pathAccumulator breadcrumbs)
    /\ length (walk router route pathAccumulator breadcrumbs)
       <= length breadcrumbs + length (chain route)
    /\ breadcrumbs `prefix_of` walk router route pathAccumulator breadcrumbs.
Proof.
  induction route as [o u p q d rc children IH] using ActivatedRouteSnapshot_tree_ind.
  intros acc crumbs Ht. rewrite walk_unfold, chain_unfold. cbv zeta.
  set (segment := "/" ++ join "/" (acc ++ urlOf (Snapshot o u p q d rc children))%list).
  assert (Ht' : trail (visit router (Snapshot o u p q d rc children) segment crumbs)).
  { apply trail_visit; [|done]. by apply (startsWith_slash_app "/"). }
  assert (Hlen : length (visit router (Snapshot o u p q d rc children) segment crumbs)
                 <= S (length crumbs)
                 /\ crumbs `prefix_of`
                      visit router (Snapshot o u p q d rc children) segment crumbs).
  { destruct (visit_cases router (Snapshot o u p q d rc children) segment crumbs)
      as [->|(b & -> & _)].
    - split; [lia|done].
    - rewrite length_app. cbn. split; [lia|]. by apply prefix_app_r. }
  destruct (resolvePrimaryRoute (Snapshot o u p q d rc children)) as [c|] eqn:E.
  - rewrite Forall_forall in IH.
    destruct (IH c (find_elem_of isPrimary _ _ E)
                (acc ++ urlOf (Snapshot o u p q d rc children))%list _ Ht')
      as (H1 & H2 & H3).
    split; [exact H1|]. cbn [length]. split; [lia|].
    etrans; [apply Hlen|exact H3].
  - split; [exact Ht'|]. cbn [length]. split; [lia|apply Hlen].
Qed.

(** Where an entry of the trail comes from: a route among [routes] whose
    metadata is not skipped and carries a label. *)
Definition origin (routes : list ActivatedRouteSnapshot) (b : IBreadcrumb) : Prop :=
  exists route segment meta,
    route ∈ routes
    /\ breadcrumbMeta (resolveBreadcrumbContext segment route) = Some meta
    /\ skip meta <> Some true /\ hasLabel meta = true
    /\ b_label b = resolveLabel meta route
    /\ routerLink b = breadcrumbPath (resolveBreadcrumbContext segment route).

Lemma walk_origin router routes route :
  forall pathAccumulator breadcrumbs,
    (forall r, r ∈ chain route -> r ∈ routes) ->
    Forall (origin routes) breadcrumbs ->
    Forall (origin routes) (walk router route pathAccumulator breadcrumbs).
Proof.
  induction route as [o u p q d rc children IH] using ActivatedRouteSnapshot_tree_ind.
  intros acc crumbs Hsub Hall. rewrite walk_unfold. cbv zeta.
  set (segment := "/" ++ join "/" (acc ++ urlOf (Snapshot o u p q d rc children))%list).
  assert (Hall' : Forall (origin routes)
                    (visit router (Snapshot o u p q d rc children) segment crumbs)).
  { destruct (visit_cases router (Snapshot o u p q d rc children) segment crumbs)
      as [->|(b & -> & Hb & _ & meta & Hm & Hs & Hl & Hlab)]; [done|].
    apply Forall_app. split; [done|]. apply Forall_singleton.
    exists (Snapshot o u p q d rc children), segment, meta.
    split; [|done]. apply Hsub. rewrite chain_unfold. apply list_elem_of_here. }
  destruct (resolvePrimaryRoute (Snapshot o u p q d rc children)) as [c|] eqn:E; [|done].
  rewrite Forall_forall in IH. apply (IH c (find_elem_of isPrimary _ _ E)); [|done].
  intros r Hr. apply Hsub. rewrite chain_unfold, E. by apply list_elem_of_further.
Qed.

(** X16: the breadcrumb trail has no two entries with the same router link,
    every router link is an absolute path, and the trail has at most one
    entry per route of the primary chain, whatever the route data and the
    router state are.  Each entry comes from a route of the primary chain
    whose metadata (its own or that of its home child) is not marked [skip]
    and has a label that is not empty. *)
Theorem resolveBreadcrumbs_trail (router : Router) (root : ActivatedRouteSnapshot) :
  NoDup (map routerLink (resolveBreadcrumbs router root))
  /\ Forall (fun b => startsWith (routerLink b) "/" = true) (resolveBreadcrumbs router root)
  /\ length (resolveBreadcrumbs router root) <= length (chain root)
  /\ Forall (origin (chain root)) (resolveBreadcrumbs router root).
Proof.
  assert (H0 : trail []) by (split; [apply NoDup_nil_2|apply List.Forall_nil]).
  destruct (walk_trail router root [] [] H0) as ((Hnd & Habs) & Hlen & _).
  split; [exact Hnd|]. split; [exact Habs|]. split; [exact Hlen|].
  apply walk_origin; [done|apply List.Forall_nil].
Qed.

(** Scenario D: the chain [/users] (label "Users"), then [/users/create]
    (label "Create User"), with [/users/create] the active route. *)
Definition plainData (text : string) : IRouteData :=
  {| breadcrumb := Some (BreadcrumbString text); payload := ∅ |}.

Definition noData : IRouteData := {| breadcrumb := None; payload := ∅ |}.

Definition scenarioD : ActivatedRouteSnapshot :=
  Snapshot "primary" [] ∅ ∅ noData None
    [Snapshot "primary" ["users"] ∅ ∅ (plainData "Users") None
       [Snapshot "primary" ["create"] ∅ ∅ (plainData "Create User") None []]].

Example scenarioD_breadcrumbs :
  map (fun b => (b_label b, routerLink b)) (resolveBreadcrumbs sampleRouter scenarioD)
  = [("Users", "/users"); ("Create User", "/users/create")].
Proof. vm_compute. reflexivity. Qed.

End Routes.

(* ===================================================================== *)
(** ** Query-parameter persistence of menu items and breadcrumbs *)
(* ===================================================================== *)

Module QueryPersistence.
Import Js Navigation.

(** The breadcrumb one round of the loop of [resolveBreadcrumbs] appends. *)
Lemma visit_appended router routeSnapshot normalizedSegment breadcrumbs crumb :
  Routes.visit router routeSnapshot normalizedSegment breadcrumbs
    = (breadcrumbs ++ [crumb])%list ->
  Routes.b_queryParamsHandling crumb =
    (if matchesActivePath router (Some normalizedSegment) None
     then resolveQueryPersistence router (Some (Routes.routerLink crumb))
            (Some (Routes.queryParamsOf routeSnapshot)) None
     else noHandling)
  /\ Routes.b_queryParams crumb =
     (if matchesActivePath router (Some normalizedSegment) None
      then Routes.queryParamsOf routeSnapshot else ∅).
Proof.
  assert (Hsame : forall l : list Routes.IBreadcrumb, l = (l ++ [crumb])%list -> False).
  { intros l Hl. apply (f_equal length) in Hl. rewrite length_app in Hl. cbn in Hl. lia. }
  unfold Routes.visit.
  destruct (Routes.breadcrumbMeta
              (Routes.resolveBreadcrumbContext normalizedSegment routeSnapshot))
    as [meta|]; [|by intros H%Hsame].
  destruct (negb (default false (Routes.skip meta))); [|by intros H%Hsame].
  destruct (negb _ && Routes.hasLabel meta); [|by intros H%Hsame].
  intros H. apply app_inv_head in H. injection H as <-.
  cbn [Routes.b_queryParamsHandling Routes.b_queryParams Routes.routerLink].
  done.
Qed.

(** The chain of scenario D with the query params of the URL
    [/users/create?tab=2] on every snapshot. *)
Definition usersSnapshot : Routes.ActivatedRouteSnapshot :=
  Routes.Snapshot "primary" ["users"] ∅ {["tab" := JNum 2]}
    (Routes.plainData "Users") None
    [Routes.Snapshot "primary" ["create"] ∅ {["tab" := JNum 2]}
       (Routes.plainData "Create User") None []].

Definition scenarioDQuery : Routes.ActivatedRouteSnapshot :=
  Routes.Snapshot "primary" [] ∅ {["tab" := JNum 2]} Routes.noData None [usersSnapshot].

(** A menu with the entry [Users] above the entry [Create]. *)
Definition usersMenu : list MenuEvaluation.IMenuItem :=
  [MenuEvaluation.MenuItem 1 "Users" (Some "/users") (Some {["tab" := JNum 2]}) None None
     (Some [MenuEvaluation.MenuItem 2 "Create" (Some "/users/create") None None None
              None])].

(** C9 (amended): [resolveQueryPersistence] follows the precedence of the
    claim: (1) an explicit handling argument is returned as it is; (2)
    otherwise query params that are present and not empty give [merge]; (3)
    otherwise (no query params, or an empty object), when the route is not
    the active one (no exact match), a path [''] or ['/'] gives no
    persistence and any other path gives [preserve] exactly when the current
    route is an extended (subset) match, no persistence otherwise; (4)
    otherwise (exact match) the result is [preserve] exactly when the current
    URL contains a ['?'], no persistence otherwise.  Every item of an
    evaluated menu, at any depth, gets the result of the function for its
    own router link, query params and handling.  A breadcrumb does not: it
    has no explicit handling, and the function is consulted only when the
    accumulated path of its route is exactly the active route; the
    breadcrumb of any other route gets no persistence and empty query
    params. *)
Theorem resolveQueryPersistence_on_routes (router : Router) :
  (forall path queryParams,
     (forall handling,
         resolveQueryPersistence router path queryParams (Some handling) = handling)
     /\ (forall q, queryParams = Some q -> q <> ∅ ->
         resolveQueryPersistence router path queryParams None = merge)
     /\ (queryParams = None \/ queryParams = Some ∅ ->
         matchesActivePath router path (Some exact) = false ->
         (path = Some "" \/ path = Some "/" ->
            resolveQueryPersistence router path queryParams None = noHandling)
         /\ (path <> Some "" -> path <> Some "/" ->
             resolveQueryPersistence router path queryParams None =
               if matchesActivePath router path (Some subset)
               then preserve else noHandling))
     /\ (queryParams = None \/ queryParams = Some ∅ ->
         matchesActivePath router path (Some exact) = true ->
         resolveQueryPersistence router path queryParams None =
           if includes (url router) "?" then preserve else noHandling))
  /\ (forall menuItems evaluated,
        evaluated ∈ flat_map MenuEvaluation.subtree
                      (MenuEvaluation.evaluateMenuItems router menuItems) ->
        exists menuItem,
          menuItem ∈ flat_map MenuEvaluation.subtree menuItems
          /\ evaluated = MenuEvaluation.evaluateMenuItem router menuItem
          /\ MenuEvaluation.routerLinkOf evaluated = MenuEvaluation.routerLinkOf menuItem
          /\ MenuEvaluation.queryParamsHandlingOf evaluated =
             Some (resolveQueryPersistence router
                     (MenuEvaluation.routerLinkOf menuItem)
                     (MenuEvaluation.queryParamsOf menuItem)
                     (MenuEvaluation.queryParamsHandlingOf menuItem)))
  /\ (forall routeSnapshot normalizedSegment breadcrumbs crumb,
        Routes.visit router routeSnapshot normalizedSegment breadcrumbs
          = (breadcrumbs ++ [crumb])%list ->
        (matchesActivePath router (Some normalizedSegment) None = true ->
         Routes.b_queryParamsHandling crumb =
           resolveQueryPersistence router (Some (Routes.routerLink crumb))
             (Some (Routes.queryParamsOf routeSnapshot)) None
         /\ Routes.b_queryParams crumb = Routes.queryParamsOf routeSnapshot)
        /\ (matchesActivePath router (Some normalizedSegment) None = false ->
            Routes.b_queryParamsHandling crumb = noHandling
            /\ Routes.b_queryParams crumb = ∅)).
Proof.
  split; [intros path queryParams; apply resolveQueryPersistence_cases|]. split.
  - intros menuItems evaluated Hin. unfold MenuEvaluation.evaluateMenuItems in Hin.
    apply list_elem_of_In, in_flat_map in Hin as (top' & Htop' & Hin).
    apply in_map_iff in Htop' as (top & <- & Htop).
    apply list_elem_of_In in Hin.
    destruct (MenuEvaluation.subtree_evaluateMenuItem router top evaluated Hin)
      as (menuItem & Hsub & ->).
    exists menuItem. split.
    + apply list_elem_of_In, in_flat_map. exists top. split; [done|].
      by apply list_elem_of_In.
    + split; [reflexivity|]. by destruct menuItem.
  - intros routeSnapshot normalizedSegment breadcrumbs crumb Hv.
    destruct (visit_appended router routeSnapshot normalizedSegment breadcrumbs crumb Hv)
      as [Hh Hq].
    split; intros Hact; rewrite Hact in Hh, Hq; done.
Qed.

Lemma resolveQueryPersistence_on_routes_witness :
  resolveQueryPersistence sampleRouter (Some "/users") (Some {["tab" := JNum 2]}) None
    = merge
  /\ resolveQueryPersistence sampleRouter (Some "/users") (Some ∅) None = preserve
  /\ resolveQueryPersistence sampleRouter (Some "/users/create") None None = preserve
  /\ resolveQueryPersistence sampleRouter (Some "/") None None = noHandling
  /\ resolveQueryPersistence sampleRouter (Some "/roles") None (Some replace) = replace
  /\ (exists menuItem,
        menuItem ∈ flat_map MenuEvaluation.subtree usersMenu
        /\ MenuEvaluation.queryParamsHandlingOf
             (MenuEvaluation.evaluateMenuItem sampleRouter menuItem) = Some merge)
  /\ (exists crumb,
        Routes.visit sampleRouter usersSnapshot "/users" [] = [crumb]
        /\ Routes.b_queryParamsHandling crumb = noHandling
        /\ Routes.b_queryParams crumb = ∅).
Proof.
  pose proof (resolveQueryPersistence_on_routes sampleRouter) as (Hfun & Hmenu & Hcrumb).
  split; [|split; [|split; [|split; [|split; [|split]]]]].
  - apply (proj1 (proj2 (Hfun (Some "/users") (Some {["tab" := JNum 2]})))
             {["tab" := JNum 2]} eq_refl).
    intros H. apply (f_equal (fun m : gmap string JsValue => m !! "tab")) in H.
    discriminate.
  - exact (proj2 (proj1 (proj2 (proj2 (Hfun (Some "/users") (Some ∅))))
                    (or_intror eq_refl) eq_refl)
             ltac:(discriminate) ltac:(discriminate)).
  - exact (proj2 (proj2 (proj2 (Hfun (Some "/users/create") None)))
             (or_introl eq_refl) eq_refl).
  - exact (proj1 (proj1 (proj2 (proj2 (Hfun (Some "/") None)))
                    (or_introl eq_refl) eq_refl) (or_intror eq_refl)).
  - exact (proj1 (Hfun (Some "/roles") None) replace).
  - destruct (Hmenu usersMenu
                (MenuEvaluation.evaluateMenuItem sampleRouter
                   (MenuEvaluation.MenuItem 1 "Users" (Some "/users")
                      (Some {["tab" := JNum 2]}) None None
                      (Some [MenuEvaluation.MenuItem 2 "Create" (Some "/users/create")
                               None None None None])))
                ltac:(apply list_elem_of_here))
      as (menuItem & Hin & Heq & _ & Hh).
    exists menuItem. split; [exact Hin|]. rewrite <- Heq. reflexivity.
  - eexists. split; [vm_compute; reflexivity|].
    refine (proj2 (Hcrumb usersSnapshot "/users" [] _ _) eq_refl).
    vm_compute. reflexivity.
Defined.

(** C9 as stated fails for breadcrumb routes.  On [/users/create?tab=2] the
    breadcrumb of [/users] has non-empty query params on its route and is a
    prefix of the active route: clause (2) of the claim gives [merge], and
    with empty query params clause (3) gives [preserve]; the breadcrumb gets
    no persistence in both cases, and its query params are dropped. *)
Lemma breadcrumb_of_parent_route_gets_no_persistence :
  map (fun b => (Routes.routerLink b, Routes.b_queryParamsHandling b,
                 Routes.b_queryParams b))
    (Routes.resolveBreadcrumbs sampleRouter scenarioDQuery)
  = [("/users", noHandling, ∅); ("/users/create", merge, {["tab" := JNum 2]})]
  /\ resolveQueryPersistence sampleRouter (Some "/users") (Some {["tab" := JNum 2]}) None
     = merge
  /\ map (fun b => (Routes.routerLink b, Routes.b_queryParamsHandling b))
       (Routes.resolveBreadcrumbs sampleRouter Routes.scenarioD)
     = [("/users", noHandling); ("/users/create", preserve)]
  /\ resolveQueryPersistence sampleRouter (Some "/users") (Some ∅) None = preserve.
Proof. vm_compute. repeat split; reflexivity. Qed.

End QueryPersistence.

(* ===================================================================== *)
(** ** Replacing the reset target ([setResetState]) *)
(* ===================================================================== *)

Module ResetTargets.
Import Js ResetState.

(** What [setResetState] may be handed: a store composed with
    [withResetState], or one without the feature (only its state matters). *)
Inductive IResetStore : Type :=
| WithReset (w : Store)
| WithoutReset (st : gmap string JsValue).

(** [setResetState(store, state)]: [None] stands for the [Error] thrown when
    the store has no [_setInitialState]. *)
Definition setResetState (store : IResetStore) (st : gmap string JsValue)
  : option IResetStore :=
  match store with
  | WithReset w => Some (WithReset (_setInitialState st w))
  | WithoutReset _ => None
  end.

(** A store after [onInit], a call of [setResetState] and a sequence of
    patches. *)
Definition retargeted (s0 target : gmap string JsValue)
    (patches : list (gmap string JsValue)) : Store :=
  fold_left (fun w p => patchState p w) patches
    (_setInitialState target (onInit (newStore s0))).

Lemma initialState_fold patches :
  forall w, initialState (fold_left (fun w p => patchState p w) patches w) = initialState w.
Proof. induction patches as [|p ps IH]; intros w; cbn; [reflexivity|]. by rewrite IH. Qed.

Lemma retargeted_keys s0 target patches k :
  is_Some (state (retargeted s0 target patches) !! k) <-> is_Some (s0 !! k).
Proof. unfold retargeted. by rewrite patches_keep_keys. Qed.

(** X17: after [setResetState(store, target)] the reset goes to [target],
    not to the state captured at [onInit]: whatever was patched in between,
    [resetState()] gives every field of [target] that is a field of the
    store's state its value in [target], and leaves the other fields of the
    state as they are.  A field of [target] that the state does not have is
    ignored: the reset adds no field to the state.  A reset with an override
    does not change the target, a second [resetState()] changes nothing, and
    [setResetState] on a store without the feature throws. *)
Theorem setResetState_replaces_target (s0 target override : gmap string JsValue)
    (patches : list (gmap string JsValue)) (k : string) :
  setResetState (WithReset (onInit (newStore s0))) target
    = Some (WithReset (retargeted s0 target []))
  /\ (forall v, target !! k = Some v -> is_Some (s0 !! k) ->
        state (resetState None (retargeted s0 target patches)) !! k = Some v)
  /\ (target !! k = None ->
        state (resetState None (retargeted s0 target patches)) !! k
        = state (retargeted s0 target patches) !! k)
  /\ (s0 !! k = None ->
        state (resetState None (retargeted s0 target patches)) !! k = None)
  /\ initialState (resetState (Some override) (retargeted s0 target patches)) = target
  /\ resetState None (resetState None (retargeted s0 target patches))
     = resetState None (retargeted s0 target patches)
  /\ setResetState (WithoutReset s0) target = None.
Proof.
  assert (Hi : initialState (retargeted s0 target patches) = target)
    by (unfold retargeted; by rewrite initialState_fold).
  pose proof (retargeted_keys s0 target patches k) as Hk.
  split; [reflexivity|]. unfold resetState. cbn [default].
  rewrite lookup_patchState, Hi.
  split; [|split; [|split; [|split; [|split]]]].
  - intros v Hv Hs. destruct (proj2 Hk Hs) as [v' ->]. by rewrite Hv.
  - intros Hn. rewrite Hn. by destruct (state (retargeted s0 target patches) !! k).
  - intros Hn. destruct (state (retargeted s0 target patches) !! k) as [v'|] eqn:E; [|done].
    destruct (proj1 Hk (ex_intro _ v' eq_refl)) as [? ?]. congruence.
  - cbn. exact Hi.
  - set (R := retargeted s0 target patches) in *.
    assert (Hst : state (patchState (initialState (patchState target R))
                           (patchState target R)) = state (patchState target R)).
    { apply map_eq. intros j. rewrite !lookup_patchState. cbn [initialState patchState].
      rewrite Hi.
      destruct (state R !! j) as [v|]; [|done]. by destruct (target !! j). }
    destruct (patchState (initialState (patchState target R)) (patchState target R))
      as [st' init'] eqn:E.
    assert (Hin : init' = initialState (patchState target R)).
    { change init' with (initialState {| state := st'; initialState := init' |}).
      by rewrite <- E. }
    cbn [state] in Hst. rewrite Hst, Hin. by destruct (patchState target R).
  - reflexivity.
Qed.

(** A target naming a field the store's state does not have: the reset
    leaves the state without it. *)
Example setResetState_undeclared_field :
  state (resetState None
           (retargeted {["title" := JStr "home"]}
              (<["title" := JStr "start"]> {["extra" := JNum 1]}) []))
  = {["title" := JStr "start"]}.
Proof. apply map_eq. intros k. by vm_compute. Qed.

End ResetTargets.

(* ===================================================================== *)
(** ** Menu expansion: how toggles compose *)
(* ===================================================================== *)

Module MenuToggles.
Import Menu.

(** The flag after two toggles of [menuId]: an absent flag on a targeted
    item has become [false]. *)
Definition settleAt (menuId : Z) (o : Z * string * option bool) : Z * string * option bool :=
  (o.1.1, o.1.2, if (o.1.1 =? menuId)%Z then Some (default false o.2) else o.2).

Lemma flagsOf_toggleMenuExpansion menuId s :
  flagsOf (menuItems (toggleMenuExpansion menuId s)) = map (flipAt menuId) (flagsOf (menuItems s)).
Proof.
  destruct s as [[ra l] next]. unfold toggleMenuExpansion, updateMenuExpansion, flagsOf.
  cbn. apply flags_mapItems.
Qed.

(** X18: on the flags of the tree, toggling the same id twice puts every
    flag back, except that an absent flag on a targeted item is then [false]
    (so a tree whose targeted items all carry a flag gets its flags back
    exactly), and toggles of two ids give the same flags in either order. *)
Theorem toggleMenuExpansion_composes (menuId other : Z) (s : Store) :
  flagsOf (menuItems (toggleMenuExpansion menuId (toggleMenuExpansion menuId s)))
    = map (settleAt menuId) (flagsOf (menuItems s))
  /\ (Forall (fun o => o.1.1 = menuId -> is_Some o.2) (flagsOf (menuItems s)) ->
      flagsOf (menuItems (toggleMenuExpansion menuId (toggleMenuExpansion menuId s)))
      = flagsOf (menuItems s))
  /\ flagsOf (menuItems (toggleMenuExpansion menuId (toggleMenuExpansion other s)))
     = flagsOf (menuItems (toggleMenuExpansion other (toggleMenuExpansion menuId s))).
Proof.
  rewrite !flagsOf_toggleMenuExpansion, !List.map_map.
  assert (Htwice : forall o, flipAt menuId (flipAt menuId o) = settleAt menuId o).
  { intros [[i l] e]. unfold flipAt, settleAt, requiresExpansion, notExpanded. cbn.
    destruct (i =? menuId)%Z; [|reflexivity]. cbn. by destruct e as [[|]|]. }
  split; [|split].
  - apply List.map_ext, Htwice.
  - intros Hall. rewrite <- (List.map_id (flagsOf (menuItems s))) at 2.
    induction Hall as [|o os Ho _ IH]; [reflexivity|]. cbn [map]. rewrite IH. f_equal.
    rewrite Htwice. destruct o as [[i l] e]. unfold settleAt. cbn in *.
    destruct (Z.eqb_spec i menuId) as [E|_]; [|reflexivity].
    by destruct (Ho E) as [b ->].
  - apply List.map_ext. intros [[i l] e].
    unfold flipAt, requiresExpansion, notExpanded. cbn.
    destruct (i =? menuId)%Z, (i =? other)%Z; cbn; try reflexivity.
Qed.

End MenuToggles.

(* ===================================================================== *)
(** ** State logging ([withLogger]) *)
(* ===================================================================== *)

Module StateLogger.
Import Js.

(** [ILoggerOptions] after the defaults ([collapsed = false],
    [disabled = environment.production]). *)
Record ILoggerOptions : Type := {
  storeName : string;
  disabled : bool;
  collapsed : bool;
  monitor : option (list string)
}.

(** [monitor?.length ? pick(stateSource, monitor) : stateSource] *)
Definition _getStateSnapshot (options : ILoggerOptions) (stateSource : gmap string JsValue)
  : gmap string JsValue :=
  match monitor options with
  | Some (k :: ks) => pick stateSource (k :: ks)
  | _ => stateSource
  end.

(** The calls made on the console. *)
Inductive ConsoleCall : Type :=
| group (label style : string)
| groupCollapsed (label style : string)
| log (message style : string) (value : gmap string JsValue)
| groupEnd.

Definition toUpper (c : ascii) : ascii :=
  let n := nat_of_ascii c in
  if (97 <=? n)%nat && (n <=? 122)%nat then ascii_of_nat (n - 32) else c.

Definition toLower (c : ascii) : ascii :=
  let n := nat_of_ascii c in
  if (65 <=? n)%nat && (n <=? 90)%nat then ascii_of_nat (n + 32) else c.

Fixpoint lowerCase (s : string) : string :=
  match s with
  | EmptyString => EmptyString
  | String c rest => String (toLower c) (lowerCase rest)
  end.

(** lodash [capitalize], on ASCII letters. *)
Definition capitalize (s : string) : string :=
  match s with
  | EmptyString => EmptyString
  | String c rest => String (toUpper c) (lowerCase rest)
  end.

(** [`[${capitalize(storeName)}] - @ ${logTimestamp}`] *)
Definition logGroupLabel (options : ILoggerOptions) (logTimestamp : string) : string :=
  "[" ++ capitalize (storeName options) ++ "] - @ " ++ logTimestamp.

Definition logHeaderStyle : string := "font-weight: bold; font-size: 12px;".
Definition logPrevStateStyle : string := "color: #9E9E9E; font-weight: normal;".
Definition logNextStateStyle : string := "color: #4CAF50; font-weight: normal;".

(** The variable [previousState] of [onInit] ([None] when the logger is
    disabled and no effect exists) and the console so far. *)
Record Logger : Type := {
  previousState : option (gmap string JsValue);
  console : list ConsoleCall
}.

Definition onInit (options : ILoggerOptions) (stateSource : gmap string JsValue) : Logger :=
  if disabled options then {| previousState := None; console := [] |}
  else {| previousState := Some (_getStateSnapshot options stateSource); console := [] |}.

(** One log entry as it reaches the console. *)
Definition logEntry (options : ILoggerOptions) (logTimestamp : string)
    (previous current : gmap string JsValue) : list ConsoleCall :=
  [ (if negb (collapsed options) then group else groupCollapsed)
      ("%c" ++ logGroupLabel options logTimestamp) logHeaderStyle;
    log "%c prev state" logPrevStateStyle previous;
    log "%c next state" logNextStateStyle current;
    groupEnd ].

Section Effect.

(** lodash [isEqual] on two snapshots. *)
Variable isEqual : gmap string JsValue -> gmap string JsValue -> bool.

(** A run of the effect at time [logTimestamp] on the state [stateSource]. *)
Definition effect (options : ILoggerOptions) (logger : Logger)
    (run : string * gmap string JsValue) : Logger :=
  match previousState logger with
  | None => logger
  | Some previous =>
      let currentState := _getStateSnapshot options run.2 in
      if isEqual previous currentState then logger
      else {| previousState := Some currentState;
              console := (console logger
                          ++ logEntry options run.1 previous currentState)%list |}
  end.

(** The store is created on [stateSource] and the effect then runs on each
    of [runs], a time and the state it sees. *)
Definition observe (options : ILoggerOptions) (stateSource : gmap string JsValue)
    (runs : list (string * gmap string JsValue)) : Logger :=
  fold_left (effect options) runs (onInit options stateSource).

End Effect.

(** The entries that start from [previous] and go through [nexts]: each one
    shows the state of the entry before it as its previous state. *)
Fixpoint chained (options : ILoggerOptions) (previous : gmap string JsValue)
    (nexts : list (string * gmap string JsValue)) : list ConsoleCall :=
  match nexts with
  | [] => []
  | (logTimestamp, current) :: rest =>
      (logEntry options logTimestamp previous current ++ chained options current rest)%list
  end.

(** The state the last entry of a chain ends on. *)
Fixpoint final (previous : gmap string JsValue)
    (nexts : list (string * gmap string JsValue)) : gmap string JsValue :=
  match nexts with
  | [] => previous
  | (_, current) :: rest => final current rest
  end.

(** No entry of the chain shows two states that [isEqual] takes for equal. *)
Fixpoint distinct (isEqual : gmap string JsValue -> gmap string JsValue -> bool)
    (previous : gmap string JsValue) (nexts : list (string * gmap string JsValue)) : Prop :=
  match nexts with
  | [] => True
  | (_, current) :: rest => isEqual previous current = false /\ distinct isEqual current rest
  end.

Lemma chained_snoc options previous nexts logTimestamp current :
  chained options previous (nexts ++ [(logTimestamp, current)])
  = (chained options previous nexts
     ++ logEntry options logTimestamp (final previous nexts) current)%list.
Proof.
  revert previous. induction nexts as [|[ts c] rest IH]; intros previous.
  - cbn [app chained final]. by rewrite app_nil_r.
  - cbn [app chained final]. by rewrite IH, app_assoc.
Qed.

Lemma final_snoc previous nexts logTimestamp current :
  final previous (nexts ++ [(logTimestamp, current)]) = current.
Proof.
  revert previous. induction nexts as [|[ts c] rest IH]; intros previous; [done|].
  cbn [app final]. apply IH.
Qed.

Lemma distinct_snoc isEqual previous nexts logTimestamp current :
  distinct isEqual previous nexts ->
  isEqual (final previous nexts) current = false ->
  distinct isEqual previous (nexts ++ [(logTimestamp, current)]).
Proof.
  revert previous. induction nexts as [|[ts c] rest IH]; intros previous; cbn; [done|].
  intros [H1 H2] H3. split; [done|]. by apply IH.
Qed.

(** X19: the log is a chain.  With the logger disabled nothing is ever
    written to the console.  Otherwise, after any number of effect runs, the
    console holds complete entries only (an opened group, the previous
    state, the next state, the closed group); the previous state of the
    first entry is the snapshot taken at [onInit], the previous state of
    every other entry is the next state of the entry before it, no entry
    shows two states that [isEqual] takes for equal, and the logged states
    are snapshots of states the effect saw, in the order it saw them. *)
Theorem log_entries_form_a_chain
    (isEqual : gmap string JsValue -> gmap string JsValue -> bool)
    (options : ILoggerOptions) (stateSource : gmap string JsValue)
    (runs : list (string * gmap string JsValue)) :
  (disabled options = true -> console (observe isEqual options stateSource runs) = [])
  /\ (disabled options = false ->
      exists nexts,
        console (observe isEqual options stateSource runs)
          = chained options (_getStateSnapshot options stateSource) nexts
        /\ previousState (observe isEqual options stateSource runs)
           = Some (final (_getStateSnapshot options stateSource) nexts)
        /\ distinct isEqual (_getStateSnapshot options stateSource) nexts
        /\ nexts `sublist_of`
             map (fun run => (run.1, _getStateSnapshot options run.2)) runs).
Proof.
  unfold observe, onInit. split; intros Hd; rewrite Hd.
  - induction runs as [|run runs IH] using rev_ind; [done|].
    rewrite fold_left_app. cbn [fold_left].
    assert (Hp : previousState
                   (fold_left (effect isEqual options) runs
                      {| previousState := None; console := [] |}) = None).
    { clear IH. induction runs as [|r rs IHr] using rev_ind; [done|].
      rewrite fold_left_app. cbn [fold_left]. unfold effect at 1. by rewrite IHr. }
    unfold effect at 1. by rewrite Hp.
  - induction runs as [|[ts st] runs IH] using rev_ind.
    + exists []. cbn. repeat split. apply sublist_nil.
    + destruct IH as (nexts & Hc & Hp & Hdis & Hsub).
      rewrite fold_left_app. cbn [fold_left].
      rewrite List.map_app. cbn [map fst snd].
      set (logger := fold_left (effect isEqual options) runs _) in *.
      assert (Heff : effect isEqual options logger (ts, st)
                     = if isEqual (final (_getStateSnapshot options stateSource) nexts)
                            (_getStateSnapshot options st)
                       then logger
                       else {| previousState := Some (_getStateSnapshot options st);
                               console :=
                                 (console logger
                                  ++ logEntry options ts
                                       (final (_getStateSnapshot options stateSource) nexts)
                                       (_getStateSnapshot options st))%list |})
        by (unfold effect; by rewrite Hp).
      rewrite Heff.
      destruct (isEqual (final (_getStateSnapshot options stateSource) nexts)
                  (_getStateSnapshot options st)) eqn:E.
      * exists nexts. split; [done|]. split; [done|]. split; [done|].
        by apply sublist_inserts_r.
      * exists (nexts ++ [(ts, _getStateSnapshot options st)])%list.
        cbn [previousState console]. rewrite chained_snoc, final_snoc, Hc.
        split; [done|]. split; [done|]. split; [by apply distinct_snoc|].
        by apply sublist_app.
Qed.

(** X20: a change that touches no monitored field is not logged.  With a
    non-empty monitor list, a run of the effect on a state that agrees on
    every monitored field with the state of the run before it leaves the
    logger as it was ([isEqual] takes equal snapshots for equal). *)
Theorem unmonitored_change_is_not_logged
    (isEqual : gmap string JsValue -> gmap string JsValue -> bool)
    (options : ILoggerOptions) (stateSource : gmap string JsValue)
    (runs : list (string * gmap string JsValue)) (fields : list string)
    (before after : string * gmap string JsValue) :
  (forall snapshot, isEqual snapshot snapshot = true) ->
  monitor options = Some fields -> fields <> [] ->
  (forall k, k ∈ fields -> after.2 !! k = before.2 !! k) ->
  observe isEqual options stateSource (runs ++ [before; after])
  = observe isEqual options stateSource (runs ++ [before]).
Proof.
  intros Hrefl Hm Hne Hsame. unfold observe.
  change (runs ++ [before; after])%list with (runs ++ ([before] ++ [after]))%list.
  rewrite app_assoc, (fold_left_app _ (runs ++ [before])). cbn [fold_left].
  rewrite fold_left_app. cbn [fold_left].
  set (logger := fold_left (effect isEqual options) runs (onInit options stateSource)).
  assert (Hsnap : _getStateSnapshot options after.2 = _getStateSnapshot options before.2).
  { unfold _getStateSnapshot. rewrite Hm. destruct fields as [|k ks]; [done|].
    apply map_eq. intros i. rewrite !lookup_pick.
    destruct (decide (i ∈ k :: ks)); [by apply Hsame|done]. }
  assert (Hquiet : forall l,
             match previousState l with
             | Some previous => isEqual previous (_getStateSnapshot options before.2) = true
             | None => True
             end -> effect isEqual options l after = l).
  { intros l Hl. unfold effect. destruct (previousState l) as [previous|]; [|done].
    by rewrite Hsnap, Hl. }
  apply Hquiet. unfold effect.
  destruct (previousState logger) as [previous|] eqn:Hp; [|by rewrite Hp].
  destruct (isEqual previous (_getStateSnapshot options before.2)) eqn:E.
  - by rewrite Hp.
  - cbn [previousState]. apply Hrefl.
Qed.

(** *** A sample logger *)

(** Deep equality of values; the properties of two objects are compared in
    the order the objects list them. *)
Fixpoint jsEqual (a b : JsValue) : bool :=
  match a, b with
  | JUndefined, JUndefined => true
  | JNull, JNull => true
  | JBool x, JBool y => Bool.eqb x y
  | JNum x, JNum y => (x =? y)%Z
  | JStr x, JStr y => String.eqb x y
  | JArr xs, JArr ys =>
      (fix all (xs ys : list JsValue) : bool :=
         match xs, ys with
         | [], [] => true
         | x :: xs', y :: ys' => jsEqual x y && all xs' ys'
         | _, _ => false
         end) xs ys
  | JObj ps, JObj qs =>
      (fix all (ps qs : list (string * JsValue)) : bool :=
         match ps, qs with
         | [], [] => true
         | (k, v) :: ps', (k', v') :: qs' => String.eqb k k' && jsEqual v v' && all ps' qs'
         | _, _ => false
         end) ps qs
  | _, _ => false
  end.

Fixpoint sameEntries (l1 l2 : list (string * JsValue)) : bool :=
  match l1, l2 with
  | [], [] => true
  | (k, v) :: l1', (k', v') :: l2' => String.eqb k k' && jsEqual v v' && sameEntries l1' l2'
  | _, _ => false
  end.

Definition sameSnapshot (a b : gmap string JsValue) : bool :=
  sameEntries (map_to_list a) (map_to_list b).

Lemma jsEqual_refl : forall v, jsEqual v v = true.
Proof.
  fix IH 1. intros [| |b|n|s|items|props]; cbn.
  - reflexivity.
  - reflexivity.
  - by destruct b.
  - apply Z.eqb_refl.
  - apply String.eqb_refl.
  - induction items as [|x xs IHxs]; [reflexivity|]. by rewrite (IH x), IHxs.
  - induction props as [|[k v] ps IHps]; [reflexivity|].
    by rewrite String.eqb_refl, (IH v), IHps.
Qed.

Lemma sameSnapshot_refl snapshot : sameSnapshot snapshot snapshot = true.
Proof.
  unfold sameSnapshot. induction (map_to_list snapshot) as [|[k v] l IH]; [reflexivity|].
  cbn. by rewrite String.eqb_refl, jsEqual_refl, IH.
Qed.

(** The layout store is logged under the name ['Layout']; here with a
    monitor on the layout mode. *)
Definition layoutLogger : ILoggerOptions :=
  {| storeName := "layout"; disabled := false; collapsed := false;
     monitor := Some ["platformLayoutMode"] |}.

Definition extendedLayout : gmap string JsValue :=
  <["platformLayoutMode" := JStr "extended"]> (<["isNavigationDrawerVisible" := JBool false]> ∅).

Definition compactLayout : gmap string JsValue :=
  <["platformLayoutMode" := JStr "compact"]> (<["isNavigationDrawerVisible" := JBool false]> ∅).

Definition compactWithDrawer : gmap string JsValue :=
  <["platformLayoutMode" := JStr "compact"]> (<["isNavigationDrawerVisible" := JBool true]> ∅).

Example layoutLogger_console :
  console (observe sameSnapshot layoutLogger extendedLayout
             [("10:00:00.000", extendedLayout); ("10:00:01.000", compactLayout);
              ("10:00:02.000", compactWithDrawer)])
  = [group "%c[Layout] - @ 10:00:01.000" logHeaderStyle;
     log "%c prev state" logPrevStateStyle {["platformLayoutMode" := JStr "extended"]};
     log "%c next state" logNextStateStyle {["platformLayoutMode" := JStr "compact"]};
     groupEnd].
Proof. vm_compute. reflexivity. Qed.

Lemma unmonitored_change_is_not_logged_witness :
  observe sameSnapshot layoutLogger extendedLayout
    ([("10:00:00.000", extendedLayout)]
     ++ [("10:00:01.000", compactLayout); ("10:00:02.000", compactWithDrawer)])
  = observe sameSnapshot layoutLogger extendedLayout
      ([("10:00:00.000", extendedLayout)] ++ [("10:00:01.000", compactLayout)]).
Proof.
  apply (unmonitored_change_is_not_logged sameSnapshot layoutLogger extendedLayout
           [("10:00:00.000", extendedLayout)] ["platformLayoutMode"]
           ("10:00:01.000", compactLayout) ("10:00:02.000", compactWithDrawer)
           sameSnapshot_refl eq_refl).
  - discriminate.
  - intros k Hk. apply list_elem_of_singleton in Hk as ->. reflexivity.
Defined.

End StateLogger.

(* ===================================================================== *)
(** ** Path segments ([normalizePathSegments]) *)
(* ===================================================================== *)

Module PathSegments.
Import Js Routes.

(** [String.prototype.split] with a separator of one character. *)
Fixpoint split (separator : ascii) (s : string) : list string :=
  match s with
  | EmptyString => [EmptyString]
  | String c rest =>
      if Ascii.eqb c separator then EmptyString :: split separator rest
      else match split separator rest with
           | head :: tail => String c head :: tail
           | [] => [String c EmptyString]
           end
  end.

(** [s.slice(1)] *)
Definition slice1 (s : string) : string :=
  match s with
  | EmptyString => EmptyString
  | String _ rest => rest
  end.

(** [!!segment] on a string *)
Definition nonEmpty (s : string) : bool := negb (String.eqb s "").

Definition normalizePathSegments (path : option string) : list string :=
  match path with
  | None => []
  | Some path =>
      if String.eqb path "" then []
      else
        let pathWithoutQuery := hd "" (split "?" path) in
        let hasLeadingSlash := startsWith pathWithoutQuery "/" in
        let normalizedPath :=
          if hasLeadingSlash then slice1 pathWithoutQuery else pathWithoutQuery in
        List.filter nonEmpty (split "/" normalizedPath)
  end.

(** *** Observations on strings *)

(** The character [c] occurs in [s]. *)
Fixpoint occurs (c : ascii) (s : string) : bool :=
  match s with
  | EmptyString => false
  | String d rest => Ascii.eqb d c || occurs c rest
  end.

(** What a path segment is: not empty, and free of ['/'] and ['?']. *)
Definition isSegment (s : string) : Prop :=
  s <> "" /\ occurs "/" s = false /\ occurs "?" s = false.

Lemma split_nonempty separator s : split separator s <> [].
Proof.
  destruct s as [|c rest]; cbn; [done|].
  destruct (Ascii.eqb c separator); [done|]. by destruct (split separator rest).
Qed.

(** No part of a split contains the separator. *)
Lemma split_free separator s : Forall (fun part => occurs separator part = false) (split separator s).
Proof.
  induction s as [|c rest IH]; cbn; [by constructor|].
  destruct (Ascii.eqb c separator) eqn:E; [by constructor|].
  destruct (split separator rest) as [|head tail]; [constructor; [cbn; by rewrite E|done]|].
  apply Forall_cons in IH as [Hh Ht]. constructor; [|done]. cbn. by rewrite E, Hh.
Qed.

(** A character that is not in the string is in none of its parts. *)
Lemma split_keeps_free c separator s :
  occurs c s = false -> Forall (fun part => occurs c part = false) (split separator s).
Proof.
  induction s as [|d rest IH]; cbn; [by constructor|].
  intros H. apply orb_false_iff in H as [Hd Hrest]. specialize (IH Hrest).
  destruct (Ascii.eqb d separator); [by constructor|].
  destruct (split separator rest) as [|head tail]; [constructor; [cbn; by rewrite Hd|done]|].
  apply Forall_cons in IH as [Hh Ht]. constructor; [|done]. cbn. by rewrite Hd, Hh.
Qed.

Lemma occurs_slice1 c s : occurs c s = false -> occurs c (slice1 s) = false.
Proof. destruct s; cbn; [done|]. intros H. by apply orb_false_iff in H as [_ ?]. Qed.

(** X21: whatever the input, every segment [normalizePathSegments] returns
    is a path segment: it is not empty and contains neither a slash nor a
    question mark.  A missing path and the empty path give no segment. *)
Theorem normalizePathSegments_segments (path : option string) :
  Forall isSegment (normalizePathSegments path)
  /\ normalizePathSegments None = []
  /\ normalizePathSegments (Some "") = [].
Proof.
  split; [|done]. destruct path as [p|]; [|by constructor].
  unfold normalizePathSegments. destruct (String.eqb p ""); [by constructor|].
  cbv zeta.
  assert (Hq : occurs "?" (hd "" (split "?" p)) = false).
  { pose proof (split_free "?" p) as H. destruct (split "?" p); [done|].
    by apply Forall_cons in H as [? _]. }
  set (q := hd "" (split "?" p)) in *.
  assert (Hn : occurs "?" (if startsWith q "/" then slice1 q else q) = false)
    by (destruct (startsWith q "/"); [by apply occurs_slice1|done]).
  set (n := if startsWith q "/" then slice1 q else q) in *.
  pose proof (split_free "/" n) as Hslash.
  pose proof (split_keeps_free "?" "/" n Hn) as Hquery.
  induction (split "/" n) as [|part parts IH]; [by constructor|].
  apply Forall_cons in Hslash as [Hs Hss]. apply Forall_cons in Hquery as [Hq' Hqs].
  cbn [List.filter]. destruct (nonEmpty part) eqn:E; [|by apply IH].
  constructor; [|by apply IH]. split; [|done].
  unfold nonEmpty in E. apply negb_true_iff, String.eqb_neq in E. exact E.
Qed.

(** *** The way back from a joined path *)

Lemma split_app_separator separator s t :
  occurs separator s = false ->
  split separator (s ++ String separator t) = s :: split separator t.
Proof.
  induction s as [|c rest IH]; intros H.
  - change ("" ++ String separator t) with (String separator t).
    cbn [split]. by rewrite Ascii.eqb_refl.
  - cbn [occurs] in H. apply orb_false_iff in H as [Hc Hrest].
    change (String c rest ++ String separator t)
      with (String c (rest ++ String separator t)).
    cbn [split]. by rewrite Hc, (IH Hrest).
Qed.

Lemma split_free_whole separator s : occurs separator s = false -> split separator s = [s].
Proof.
  induction s as [|c rest IH]; intros H; [done|].
  cbn [occurs] in H. apply orb_false_iff in H as [Hc Hrest].
  cbn [split]. by rewrite Hc, (IH Hrest).
Qed.

Lemma occurs_app c s t : occurs c (s ++ t) = occurs c s || occurs c t.
Proof.
  induction s as [|d rest IH]; [done|].
  change (String d rest ++ t) with (String d (rest ++ t)). cbn [occurs].
  by rewrite IH, orb_assoc.
Qed.

Lemma join_cons separator s rest :
  rest <> [] -> join separator (s :: rest) = s ++ separator ++ join separator rest.
Proof. by destruct rest. Qed.

Lemma occurs_join_query segments :
  Forall isSegment segments -> occurs "?" (join "/" segments) = false.
Proof.
  induction 1 as [|s rest (_ & _ & Hq) _ IH]; [done|].
  destruct rest as [|r rest]; [done|].
  rewrite join_cons by done. rewrite !occurs_app, Hq, IH. reflexivity.
Qed.

Lemma filter_split_join segments :
  Forall isSegment segments ->
  List.filter nonEmpty (split "/" (join "/" segments)) = segments.
Proof.
  induction 1 as [|s rest (Hne & Hs & _) Hrest IH]; [done|].
  assert (E : nonEmpty s = true) by (by apply negb_true_iff, String.eqb_neq).
  destruct rest as [|r rest].
  - cbn [join]. rewrite (split_free_whole "/" s Hs). cbn. by rewrite E.
  - rewrite join_cons by done.
    change ("/" ++ join "/" (r :: rest)) with (String "/" (join "/" (r :: rest))).
    rewrite (split_app_separator "/" s _ Hs). cbn [List.filter]. by rewrite E, IH.
Qed.

Lemma append_empty s : s ++ "" = s.
Proof.
  induction s as [|c s IH]; [done|].
  change (String c s ++ "") with (String c (s ++ "")). by rewrite IH.
Qed.

Lemma startsWith_join segments :
  Forall isSegment segments -> startsWith (join "/" segments) "/" = false.
Proof.
  intros [|s rest (Hne & Hs & _) _]; [done|].
  assert (H : forall t, startsWith (s ++ t) "/" = false).
  { intros t. destruct s as [|c s']; [done|]. cbn in Hs.
    apply orb_false_iff in Hs as [Hc _].
    change (startsWith (String c s' ++ t) "/")
      with (Ascii.eqb "/" c && startsWith (s' ++ t) "").
    by rewrite Ascii.eqb_sym, Hc. }
  destruct rest as [|r rest]; [|rewrite join_cons by done; apply H].
  cbn [join]. specialize (H ""). by rewrite append_empty in H.
Qed.

(** X22: [normalizePathSegments] undoes the way the services build a path.
    For segments that are not empty and contain no slash and no question
    mark, the absolute path ['/' + segments.join('/')] normalises to the
    segments again, with or without a query string behind it, and so does
    the relative path [segments.join('/')]. *)
Theorem normalizePathSegments_round_trip (segments : list string) (query : string) :
  Forall isSegment segments ->
  normalizePathSegments (Some ("/" ++ join "/" segments)) = segments
  /\ normalizePathSegments (Some ("/" ++ join "/" segments ++ "?" ++ query)) = segments
  /\ normalizePathSegments (Some (join "/" segments)) = segments.
Proof.
  intros Hseg.
  pose proof (occurs_join_query segments Hseg) as Hq.
  assert (Hq' : occurs "?" ("/" ++ join "/" segments) = false) by exact Hq.
  split; [|split].
  - unfold normalizePathSegments.
    change (String.eqb ("/" ++ join "/" segments) "") with false. cbv zeta.
    rewrite (split_free_whole "?" _ Hq'). cbn [hd].
    rewrite (startsWith_slash_app "/" _ eq_refl).
    change (slice1 ("/" ++ join "/" segments)) with (join "/" segments).
    by apply filter_split_join.
  - unfold normalizePathSegments.
    change (String.eqb ("/" ++ join "/" segments ++ "?" ++ query) "") with false. cbv zeta.
    change ("/" ++ join "/" segments ++ "?" ++ query)
      with (("/" ++ (join "/" segments ++ String "?" query))).
    change ("/" ++ (join "/" segments ++ String "?" query))
      with (("/" ++ join "/" segments) ++ String "?" query).
    rewrite (split_app_separator "?" _ _ Hq'). cbn [hd].
    rewrite (startsWith_slash_app "/" _ eq_refl).
    change (slice1 ("/" ++ join "/" segments)) with (join "/" segments).
    by apply filter_split_join.
  - unfold normalizePathSegments.
    destruct (String.eqb_spec (join "/" segments) "") as [E|_].
    + destruct Hseg as [|s rest (Hne & _) _]; [done|]. exfalso.
      destruct rest as [|r rest]; [by apply Hne|].
      rewrite join_cons in E by done. by destruct s.
    + cbv zeta. rewrite (split_free_whole "?" _ Hq). cbn [hd].
      rewrite (startsWith_join segments Hseg). by apply filter_split_join.
Qed.

Lemma normalizePathSegments_round_trip_witness :
  normalizePathSegments (Some "/users/create?tab=2") = ["users"; "create"].
Proof.
  assert (H : Forall isSegment ["users"; "create"]) by (repeat constructor; discriminate).
  exact (proj1 (proj2 (normalizePathSegments_round_trip ["users"; "create"] "tab=2" H))).
Defined.

End PathSegments.
